(** * Photo cache, batch fetch and optimistic mutations of the inspection app

    A shallow embedding of
    - [src/lib/photo-cache.ts]   (class [PhotoCache], an IndexedDB store),
    - [src/lib/kv-client.ts] and the [/kv/mget] endpoint of the server,
    - [src/hooks/use-database.ts] ([batchFetchPhotoData], the queries
      [usePhotoData] and [useInspectionPhotos], and the mutation hooks
      [useUpdateInspectionItem], [useUploadPhoto], [useBatchUploadPhotos],
      [useDeletePhoto], [useUpdatePhotoCaption]),
    - [handleTextUpdate] of [src/pages/inspection-edit-page.tsx],
    - [generateDynamicTemplate] of [src/lib/types.ts],
    and the properties of the cache and synchronisation layer proved on it. *)

From Stdlib Require Import ZArith NArith String Ascii List Lia Sorted Permutation.
From Stdlib Require Import DecimalString.
From stdpp Require Import gmap strings list sorting fin_maps.

Local Open Scope Z_scope.

(** ** Promises and [try]/[catch] in an [async] function *)

Module Js.

(** The errors that the modelled code can observe. *)
Inductive Request :=
| ReqGet (key : string)
| ReqPut (key : string)
| ReqDelete (key : string)
| ReqClear
| ReqGetAll
| ReqOpenCursor
| ReqIndexCursor.

Inductive JsError :=
| IdbOpenError
| IdbRequestError (r : Request)
| ApiError (endpoint : string)
| TypeError (msg : string).

(** A promise once it has settled. *)
Inductive Settled (A : Type) :=
| Fulfilled (a : A)
| Rejected (e : JsError).
Global Arguments Fulfilled {A} a.
Global Arguments Rejected {A} e.

(** How the body of a [try] block of an [async] function ends: by an
    exception (a [throw], or an [await] on a rejected promise), by
    [return value], or by [return promise] with the promise NOT awaited.
    In the last case the block has been left when the promise settles:
    the promise of the function adopts it, and a rejection is not seen by
    the [catch] clause. *)
Inductive Completion (A : Type) :=
| Throw (e : JsError)
| Return (a : A)
| ReturnPromise (p : Settled A).
Global Arguments Throw {A} e.
Global Arguments Return {A} a.
Global Arguments ReturnPromise {A} p.

Section WithState.
Context {S A B : Type}.

(** [try { body } catch (error) { handler }] as the whole body of an
    [async] function, over a state [S]. *)
Definition tryCatch (body : Completion A * S)
    (handler : JsError -> S -> Settled A * S) : Settled A * S :=
  match body with
  | (Throw e, s) => handler e s
  | (Return a, s) => (Fulfilled a, s)
  | (ReturnPromise p, s) => (p, s)
  end.

(** [const x = await p; k x] inside a [try] block. *)
Definition await (p : Settled A * S)
    (k : A -> S -> Completion B * S) : Completion B * S :=
  match p with
  | (Fulfilled a, s) => k a s
  | (Rejected e, s) => (Throw e, s)
  end.

(** The body of an [async] function that has no [try] around it: an
    exception rejects the promise of the function. *)
Definition async (body : Completion A * S) : Settled A * S :=
  tryCatch body (fun e s => (Rejected e, s)).

(** [return new Promise(...)]: the promise is handed back as it is. *)
Definition returnPromise (p : Settled A * S) : Completion A * S :=
  (ReturnPromise p.1, p.2).
End WithState.

End Js.
Import Js.

(** ** [src/lib/photo-cache.ts] *)

Module PhotoCache.

Definition MAX_CACHE_SIZE_MB : N := 100.
Definition CACHE_EXPIRY_DAYS : Z := 7.

(** [MAX_CACHE_SIZE_MB * 1024 * 1024] *)
Definition maxSizeBytes : N := (MAX_CACHE_SIZE_MB * 1024 * 1024)%N.

(** [1000 * 60 * 60 * 24], the divisor of [ageMs] *)
Definition msPerDay : Z := 1000 * 60 * 60 * 24.

(** [interface CachedPhoto] *)
Record CachedPhoto := mkCached {
  key : string;        (* inspection_id:photo_id *)
  dataUrl : string;
  timestamp : Z;
  sizeBytes : N;
}.

(** The object store [photos] (key path [key]): a map from the primary
    key to the record. *)
Abbreviation Store := (gmap string CachedPhoto).

(** The persistent medium as one call sees it: whether
    [indexedDB.open] succeeds (the outcome is kept in [db] /
    [initPromise] for the life of the instance), and which requests of
    the call fire [onerror].  A request that errors aborts its
    transaction, so it leaves the store as it was. *)
Record Medium := mkMedium {
  dbOpens : bool;
  fails : Request -> bool;
}.

Definition healthy : Medium := mkMedium true (fun _ => false).

(** [new Blob([dataUrl]).size]: the number of bytes of the UTF-8 encoding.
    A [dataUrl] is held here as that byte string. *)
Fixpoint blobSize (dataUrl : string) : N :=
  match dataUrl with
  | EmptyString => 0%N
  | String _ rest => N.succ (blobSize rest)
  end.

(** [`${inspectionId}:${photoId}`] *)
Definition cacheKey (inspectionId photoId : string) : string :=
  inspectionId +:+ ":" +:+ photoId.

(** [init]: rejects when the database cannot be opened. After it
    fulfils, [this.db] is set, so the [if (!this.db)] guards that follow
    every [await this.init()] do not fire. *)
Definition init (m : Medium) : Settled unit :=
  if dbOpens m then Fulfilled tt else Rejected IdbOpenError.

(** One request inside [new Promise((resolve, reject) => ...)]:
    [onerror] rejects, [onsuccess] runs [k]. *)
Definition request {A} (m : Medium) (r : Request) (st : Store)
    (onsuccess : Settled A * Store) : Settled A * Store :=
  if fails m r then (Rejected (IdbRequestError r), st) else onsuccess.

(** [ageDays > CACHE_EXPIRY_DAYS] with [ageDays = ageMs / msPerDay].
    [ageMs] is an integer number of milliseconds and [7 * msPerDay] is
    an exact double, and the quotient of an [ageMs] above it exceeds 7 by
    more than a rounding step, so the test on the quotient is the test
    [7 * msPerDay < ageMs] on integers. *)
Definition expired (now : Z) (cached : CachedPhoto) : bool :=
  let ageMs := now - timestamp cached in
  CACHE_EXPIRY_DAYS * msPerDay <? ageMs.

(** [delete(inspectionId, photoId)] *)
Definition delete (m : Medium) (inspectionId photoId : string) (st : Store)
    : Settled unit * Store :=
  tryCatch
    (await (init m, st) (fun _ st =>
       let key := cacheKey inspectionId photoId in
       returnPromise
         (request m (ReqDelete key) st
            (Fulfilled tt, base.delete key st))))
    (fun _ st => (Fulfilled tt, st)).

(** [get(inspectionId, photoId)]. The [this.delete] of an expired record
    is not awaited: its outcome is dropped, its effect on the store is
    kept. *)
Definition get (m : Medium) (now : Z) (inspectionId photoId : string)
    (st : Store) : Settled (option string) * Store :=
  tryCatch
    (await (init m, st) (fun _ st =>
       let key := cacheKey inspectionId photoId in
       returnPromise
         (request m (ReqGet key) st
            match st !! key with
            | None => (Fulfilled None, st)
            | Some cached =>
                if expired now cached
                then (Fulfilled None, (delete m inspectionId photoId st).2)
                else (Fulfilled (Some (dataUrl cached)), st)
            end)))
    (fun _ st => (Fulfilled None, st)).

(** [photos.reduce((sum, p) => sum + p.sizeBytes, 0)] over [getAll()] *)
Definition totalSize (st : Store) : N :=
  foldl (fun sum p => (sum + sizeBytes p.2)%N) 0%N (map_to_list st).

Definition getTotalSize (m : Medium) (st : Store) : Settled N * Store :=
  tryCatch
    (await (init m, st) (fun _ st =>
       returnPromise
         (request m ReqGetAll st (Fulfilled (totalSize st), st))))
    (fun _ st => (Fulfilled 0%N, st)).

(** The UTF-16 code units of a code point. *)
Definition units (cp : N) : list N :=
  if (cp <? 65536)%N then [cp]
  else [(55296 + (cp - 65536) / 1024)%N; (56320 + (cp - 65536) mod 1024)%N].

(** The UTF-16 code units of a string, which is held here as its UTF-8
    bytes. [pending] is the part of a code point read so far and [more]
    the number of bytes of it still to come. *)
Fixpoint codeUnits (pending : N) (more : nat) (s : string) : list N :=
  match s with
  | EmptyString => []
  | String c rest =>
      let b := N_of_ascii c in
      match more with
      | S O => units (pending * 64 + b mod 64)%N ++ codeUnits 0 0 rest
      | S more' => codeUnits (pending * 64 + b mod 64)%N more' rest
      | O =>
          if (b <? 128)%N then b :: codeUnits 0 0 rest
          else if (b <? 224)%N then codeUnits (b mod 32)%N 1 rest
          else if (b <? 240)%N then codeUnits (b mod 16)%N 2 rest
          else codeUnits (b mod 8)%N 3 rest
      end
  end.

(** The order of IndexedDB on keys that are strings: by code units,
    a proper prefix first. *)
Fixpoint lexLeb (a b : list N) : bool :=
  match a, b with
  | [], _ => true
  | _ :: _, [] => false
  | x :: a', y :: b' =>
      if (x <? y)%N then true
      else if (y <? x)%N then false
      else lexLeb a' b'
  end.

Definition keyLeb (a b : string) : bool :=
  lexLeb (codeUnits 0 0 a) (codeUnits 0 0 b).

(** The order of the index [timestamp]: by timestamp, records of one
    timestamp by primary key, which is a string and is compared as
    IndexedDB compares strings. *)
Definition indexLe (a b : string * CachedPhoto) : Prop :=
  timestamp a.2 < timestamp b.2
  \/ (timestamp a.2 = timestamp b.2 /\ keyLeb a.1 b.1 = true).

#[global] Instance indexLe_dec a b : Decision (indexLe a b).
Proof. unfold indexLe. apply _. Defined.

(** [index.openCursor()]: the records, oldest first. *)
Definition indexCursor (st : Store) : list (string * CachedPhoto) :=
  merge_sort indexLe (map_to_list st).

(** The [onsuccess] handler of the cursor of [cleanOldest]:
    [if (cursor && freedBytes < neededBytes) { freedBytes += ...;
    cursor.delete(); cursor.continue() } else resolve()]. *)
Fixpoint evict (neededBytes : N) (cursor : list (string * CachedPhoto))
    (freedBytes : N) (st : Store) : Store :=
  match cursor with
  | [] => st
  | (k, cached) :: rest =>
      if (freedBytes <? neededBytes)%N
      then evict neededBytes rest (freedBytes + sizeBytes cached)%N
             (base.delete k st)
      else st
  end.

Definition cleanOldest (m : Medium) (neededBytes : N) (st : Store)
    : Settled unit * Store :=
  tryCatch
    (await (init m, st) (fun _ st =>
       returnPromise
         (request m ReqIndexCursor st
            (Fulfilled tt, evict neededBytes (indexCursor st) 0%N st))))
    (fun _ st => (Fulfilled tt, st)).

(** [set(inspectionId, photoId, dataUrl)] *)
Definition set (m : Medium) (now : Z) (inspectionId photoId dataUrl : string)
    (st : Store) : Settled unit * Store :=
  tryCatch
    (await (init m, st) (fun _ st =>
       let key := cacheKey inspectionId photoId in
       let sizeBytes := blobSize dataUrl in
       await (getTotalSize m st) (fun currentSize st =>
         await (if (maxSizeBytes <? currentSize + sizeBytes)%N
                then cleanOldest m sizeBytes st
                else (Fulfilled tt, st)) (fun _ st =>
           let cached := mkCached key dataUrl now sizeBytes in
           returnPromise
             (request m (ReqPut key) st
                (Fulfilled tt, <[key := cached]> st))))))
    (fun _ st => (Fulfilled tt, st)).

(** [deleteInspection(inspectionId)]: the cursor visits every record and
    deletes those whose key starts with [`${inspectionId}:`]. *)
Definition deleteInspection (m : Medium) (inspectionId : string) (st : Store)
    : Settled unit * Store :=
  tryCatch
    (await (init m, st) (fun _ st =>
       returnPromise
         (request m ReqOpenCursor st
            (Fulfilled tt,
             filter (fun p => String.prefix (inspectionId +:+ ":") p.1 = false)
               st))))
    (fun _ st => (Fulfilled tt, st)).

(** [clear()] *)
Definition clear (m : Medium) (st : Store) : Settled unit * Store :=
  tryCatch
    (await (init m, st) (fun _ st =>
       returnPromise (request m ReqClear st (Fulfilled tt, ∅))))
    (fun _ st => (Fulfilled tt, st)).

(** [getStats()]: [count] and [sizeBytes]; [sizeMB] is their quotient by
    [1024 * 1024] and carries nothing more. *)
Definition getStats (m : Medium) (st : Store) : Settled (nat * N) * Store :=
  tryCatch
    (await (init m, st) (fun _ st =>
       returnPromise
         (request m ReqGetAll st
            (Fulfilled (length (map_to_list st), totalSize st), st))))
    (fun _ st => (Fulfilled (0%nat, 0%N), st)).

(** [batchGet(inspectionId, photoIds)]: one request per id; a request
    that errors only counts as completed, an expired record is skipped
    (and not deleted). *)
Definition batchGetOne (m : Medium) (now : Z) (inspectionId : string)
    (st : Store) (results : gmap string string) (photoId : string)
    : gmap string string :=
  let key := cacheKey inspectionId photoId in
  if fails m (ReqGet key) then results
  else match st !! key with
       | Some cached =>
           if expired now cached then results
           else <[photoId := dataUrl cached]> results
       | None => results
       end.

Definition batchGet (m : Medium) (now : Z) (inspectionId : string)
    (photoIds : list string) (st : Store)
    : Settled (gmap string string) * Store :=
  tryCatch
    (await (init m, st) (fun _ st =>
       returnPromise
         (Fulfilled (foldl (batchGetOne m now inspectionId st) ∅ photoIds),
          st)))
    (fun _ st => (Fulfilled ∅, st)).

(** *** Runs of the cache *)

(** The public operations, and a call: an operation with the clock
    reading and the behaviour of the medium during it. *)
Inductive Op :=
| OpGet (inspectionId photoId : string)
| OpSet (inspectionId photoId dataUrl : string)
| OpDelete (inspectionId photoId : string)
| OpDeleteInspection (inspectionId : string)
| OpClear
| OpGetStats
| OpBatchGet (inspectionId : string) (photoIds : list string).

Record Call := mkCall {
  callMedium : Medium;
  callNow : Z;
  callOp : Op;
}.

(** The store after one call, and after a sequence of calls made one
    after the other: each call has settled before the next one starts.
    Calls that are started together (the [set]s of one [Promise.all])
    are not runs of this kind; the module [Overlap] below takes [set]
    apart at its [await]s for them. *)
Definition step (st : Store) (c : Call) : Store :=
  let m := callMedium c in
  match callOp c with
  | OpGet i p => (get m (callNow c) i p st).2
  | OpSet i p d => (set m (callNow c) i p d st).2
  | OpDelete i p => (delete m i p st).2
  | OpDeleteInspection i => (deleteInspection m i st).2
  | OpClear => (clear m st).2
  | OpGetStats => (getStats m st).2
  | OpBatchGet i ps => (batchGet m (callNow c) i ps st).2
  end.

Definition run (calls : list Call) (st : Store) : Store :=
  foldl step st calls.

(** A medium on which the database opens and no request errors. *)
Definition Healthy (m : Medium) : Prop :=
  dbOpens m = true /\ forall r, fails m r = false.

(** No payload written by the call is larger than the whole budget. *)
Definition withinCapacity (c : Call) : Prop :=
  match callOp c with
  | OpSet _ _ d => (blobSize d <= maxSizeBytes)%N
  | _ => True
  end.

(** The records that the cursor of [cleanOldest] deletes, in the order
    in which it deletes them. *)
Fixpoint evicted (neededBytes : N) (cursor : list (string * CachedPhoto))
    (freedBytes : N) : list (string * CachedPhoto) :=
  match cursor with
  | [] => []
  | p :: rest =>
      if (freedBytes <? neededBytes)%N
      then p :: evicted neededBytes rest (freedBytes + sizeBytes p.2)%N
      else []
  end.

(** [a] was written no later than [b]. *)
Definition olderEq (a b : string * CachedPhoto) : Prop :=
  timestamp a.2 <= timestamp b.2.

(** The sum of the sizes of a list of records. *)
Definition sumSizes (l : list (string * CachedPhoto)) : N :=
  foldr (fun p sum => (sizeBytes p.2 + sum)%N) 0%N l.

(** The store without the records of a list. *)
Definition deleteAll (l : list (string * CachedPhoto)) (st : Store) : Store :=
  foldl (fun st p => base.delete p.1 st) st l.

(** The store that [set] writes into: the store after the eviction
    pass when the occupancy check fires, the store as it is otherwise. *)
Definition cleaned (sizeBytes : N) (st : Store) : Store :=
  if (maxSizeBytes <? totalSize st + sizeBytes)%N
  then evict sizeBytes (indexCursor st) 0%N st
  else st.



(** A payload of [n] bytes, for the examples: [n] times the letter x. *)
Definition filler (n : N) : string := N.iter n (String "x") EmptyString.

(** The example of an overwrite: 40 MiB under [i:a], then 30 MiB under
    [i:b], then 35 MiB written over [i:b]. *)
Definition payload40 : string := filler 41943040.
Definition payload30 : string := filler 31457280.
Definition payload35 : string := filler 36700160.
Definition payload80 : string := filler 83886080.

Definition twoPhotos : Store :=
  run [mkCall healthy 1 (OpSet "i" "a" payload40);
       mkCall healthy 2 (OpSet "i" "b" payload30)] ∅.

(** Media on which the database opens and a request errors: every
    request, or only the [put]. *)
Definition requestsFail : Medium := mkMedium true (fun _ => true).

Definition putFails : Medium :=
  mkMedium true (fun r => match r with ReqPut _ => true | _ => false end).

End PhotoCache.

(** ** [src/lib/kv-client.ts] and the [/kv/...] endpoints of the server *)

Module KvStore.

(** [interface Photo], the fields that the modelled code reads or
    writes. An object literal that gives only [id] and [storage_key]
    (a cache hit in [batchFetchPhotoData]) has the other fields empty. *)
Record Photo := mkPhoto {
  id : string;
  inspection_id : string;
  storage_key : string;
  caption : option string;
  order_index : Z;
}.

#[global] Instance Photo_eq_dec : EqDecision Photo.
Proof. solve_decision. Defined.

(** The values of the table that the photo code touches: a full photo
    under a [photo-data:] key, the list of metadata under a
    [photo-index:] key. *)
Inductive KvValue :=
| VPhoto (p : Photo)
| VPhotos (ps : list Photo).

(** The requests that the client sends. *)
Inductive ApiCall :=
| CallSet (key : string) (value : KvValue)
| CallGet (key : string)
| CallDelete (key : string)
| CallMget (keys : list string).

Definition endpoint (c : ApiCall) : string :=
  match c with
  | CallSet _ _ => "/kv/set"
  | CallGet _ => "/kv/get"
  | CallDelete _ => "/kv/delete"
  | CallMget _ => "/kv/mget"
  end.

(** The remote store: the table [kv_store_be68fc60], and the requests
    received so far, latest first. *)
Record Remote := mkRemote {
  table : gmap string KvValue;
  calls : list ApiCall;
}.

(** Which requests fail ([!response.ok], or [fetch] throws). *)
Abbreviation Network := (ApiCall -> bool).

Definition online : Network := fun _ => false.

(** What a handler of the server answers. *)
Inductive Response :=
| RespOk
| RespValue (value : option KvValue)
| RespValues (values : list (option KvValue)).

(** The handlers [app.post("/kv/set" | "/kv/get" | "/kv/delete" |
    "/kv/mget")]. [/kv/mget] answers
    [keys.map(key => valueMap.get(key) || null)]: one value per
    requested key, in the order of the keys. *)
Definition serve (c : ApiCall) (t : gmap string KvValue)
    : Response * gmap string KvValue :=
  match c with
  | CallSet key value => (RespOk, <[key := value]> t)
  | CallGet key => (RespValue (t !! key), t)
  | CallDelete key => (RespOk, base.delete key t)
  | CallMget keys => (RespValues (map (fun key => t !! key) keys), t)
  end.

(** [apiCall(endpoint, body)]: sends the request; throws when it
    failed. *)
Definition apiCall (net : Network) (c : ApiCall) (r : Remote)
    : Settled Response * Remote :=
  if net c
  then (Rejected (ApiError (endpoint c)), mkRemote (table r) (c :: calls r))
  else let '(resp, t) := serve c (table r) in
       (Fulfilled resp, mkRemote t (c :: calls r)).

Definition mapSettled {A B} (f : A -> B) (p : Settled A) : Settled B :=
  match p with
  | Fulfilled a => Fulfilled (f a)
  | Rejected e => Rejected e
  end.

(** [kvStore.set], [kvStore.get], [kvStore.delete] *)
Definition kvSet (net : Network) (key : string) (value : KvValue) (r : Remote)
    : Settled unit * Remote :=
  let '(p, r') := apiCall net (CallSet key value) r in
  (mapSettled (fun _ => tt) p, r').

Definition kvGet (net : Network) (key : string) (r : Remote)
    : Settled (option KvValue) * Remote :=
  let '(p, r') := apiCall net (CallGet key) r in
  (mapSettled (fun resp => match resp with RespValue v => v | _ => None end) p,
   r').

Definition kvDelete (net : Network) (key : string) (r : Remote)
    : Settled unit * Remote :=
  let '(p, r') := apiCall net (CallDelete key) r in
  (mapSettled (fun _ => tt) p, r').

(** [kvStore.mget]: [if (keys.length === 0) return []], else one call
    of the batch endpoint. *)
Definition mget (net : Network) (keys : list string) (r : Remote)
    : Settled (list (option KvValue)) * Remote :=
  match keys with
  | [] => (Fulfilled [], r)
  | _ =>
      let '(p, r') := apiCall net (CallMget keys) r in
      (mapSettled
         (fun resp => match resp with RespValues vs => vs | _ => [] end) p,
       r')
  end.

(** [KEYS.photoIndex] and [KEYS.photoData] of the hooks. *)
Definition photoIndex (inspectionId : string) : string :=
  "photo-index:" +:+ inspectionId.

Definition photoData (inspectionId photoId : string) : string :=
  "photo-data:" +:+ inspectionId +:+ ":" +:+ photoId.

End KvStore.

(** ** [batchFetchPhotoData] of [src/hooks/use-database.ts] *)

Module BatchFetch.
Import PhotoCache KvStore.

(** The browser cache and the remote store. *)
Record World := mkWorld {
  cache : Store;
  remote : Remote;
}.

Definition onCache {A} (f : Store -> Settled A * Store) (w : World)
    : Settled A * World :=
  let '(p, st) := f (cache w) in (p, mkWorld st (remote w)).

Definition onRemote {A} (f : Remote -> Settled A * Remote) (w : World)
    : Settled A * World :=
  let '(p, r) := f (remote w) in (p, mkWorld (cache w) r).

(** [photo?.storage_key], as a condition: a non-empty string. *)
Definition storageKeyOf (photo : option KvValue) : option string :=
  match photo with
  | Some (VPhoto p) =>
      if decide (storage_key p = EmptyString) then None
      else Some (storage_key p)
  | _ => None
  end.

(** Step 4: [serverPhotos.map((photo, index) => ...)] and
    [await Promise.all(storePromises)]. Every [photoCache.set] is
    started; the first rejection, if any, is the outcome. The code
    starts the calls together, so that each reads the total before any
    of them writes; here they are taken one after the other, in the
    order of the list, each on the store that the one before left. The
    outcome, the photos returned and the requests sent are the same
    either way; the records that the cache holds afterwards are not
    (see [Overlap]), and nothing below is stated about them. *)
Fixpoint storeFetched (m : Medium) (now : Z) (inspectionId : string)
    (missingPhotoIds : list string) (serverPhotos : list (option KvValue))
    (st : Store) : Settled unit * Store :=
  match serverPhotos, missingPhotoIds with
  | photo :: photos, photoId :: ids =>
      let '(p, st1) :=
        match storageKeyOf photo with
        | Some dataUrl => set m now inspectionId photoId dataUrl st
        | None => (Fulfilled tt, st)
        end in
      let '(ps, st2) := storeFetched m now inspectionId ids photos st1 in
      (match p with Fulfilled _ => ps | Rejected e => Rejected e end, st2)
  | _, _ => (Fulfilled tt, st)
  end.

(** Step 5, first loop: [cachedPhotos.forEach((dataUrl, photoId) =>
    photoMap.set(photoId, { id: photoId, storage_key: dataUrl }))]. *)
Definition stub (photoId dataUrl : string) : KvValue :=
  VPhoto (mkPhoto photoId EmptyString dataUrl None 0).

Definition addCached (cachedPhotos : gmap string string)
    : gmap string KvValue :=
  map_imap (fun photoId dataUrl => Some (stub photoId dataUrl)) cachedPhotos.

(** Step 5, second loop: [serverPhotos.forEach((photo, index) =>
    { if (photo) photoMap.set(missingPhotoIds[index], photo) })]. *)
Fixpoint addServer (missingPhotoIds : list string)
    (serverPhotos : list (option KvValue)) (photoMap : gmap string KvValue)
    : gmap string KvValue :=
  match serverPhotos, missingPhotoIds with
  | photo :: photos, photoId :: ids =>
      addServer ids photos
        (match photo with
         | Some v => <[photoId := v]> photoMap
         | None => photoMap
         end)
  | _, _ => photoMap
  end.

(** [batchFetchPhotoData(inspectionId, photoIds)]. The values of the
    result are typed [Photo] by unchecked casts; they are the stored
    values as they come. [now] is the clock during the cache check,
    [now'] the clock during the write-through. The calls of
    [onProgress], the log lines and the preloading of the images do not
    touch the cache, the remote store or the result and are left out. *)
Definition batchFetchPhotoData (m : Medium) (net : Network) (now now' : Z)
    (inspectionId : string) (photoIds : list string) (w : World)
    : Settled (list KvValue) * World :=
  match photoIds with
  | [] => (Fulfilled [], w)
  | _ =>
    async
      (await (onCache (batchGet m now inspectionId photoIds) w)
         (fun cachedPhotos w =>
          let missingPhotoIds :=
            filter (fun id => cachedPhotos !! id = None) photoIds in
          match missingPhotoIds with
          | [] =>
              (Return
                 (map (fun photoId =>
                         stub photoId
                           (default EmptyString (cachedPhotos !! photoId)))
                    photoIds), w)
          | _ =>
              let keys := map (photoData inspectionId) missingPhotoIds in
              await (onRemote (mget net keys) w) (fun serverPhotos w =>
                await (onCache (storeFetched m now' inspectionId
                                  missingPhotoIds serverPhotos) w)
                  (fun _ w =>
                   let photoMap :=
                     addServer missingPhotoIds serverPhotos
                       (addCached cachedPhotos) in
                   (Return (omap (fun id => photoMap !! id) photoIds), w)))
          end))
  end.

(** The cache hits of [batchGet], as a function of the store. *)
Definition cacheHits (m : Medium) (now : Z) (inspectionId : string)
    (photoIds : list string) (st : Store) : gmap string string :=
  if dbOpens m
  then foldl (batchGetOne m now inspectionId st) ∅ photoIds
  else ∅.

(** What the two sources hold for an id: the cache hit, or else the
    value of the remote table under the key of the id. *)
Definition found (hits : gmap string string) (t : gmap string KvValue)
    (inspectionId photoId : string) : option KvValue :=
  match hits !! photoId with
  | Some dataUrl => Some (stub photoId dataUrl)
  | None => t !! photoData inspectionId photoId
  end.

(** The example of a fetch: [a] is in the cache, [b] only in the remote
    table, [c] in neither. *)
Definition photoB : Photo := mkPhoto "b" "i" "data:B" None 1.

Definition demoWorld : World :=
  mkWorld (set healthy 1 "i" "a" "data:A" ∅).2
    (mkRemote {[ photoData "i" "b" := VPhoto photoB ]} []).

End BatchFetch.

(** ** The photo mutations of [src/hooks/use-database.ts]: the remote side *)

Module PhotoStore.
Import PhotoCache KvStore BatchFetch.

(** [await Promise.all([p1, p2, p3])] once the three promises have
    settled: the first rejection, if there is one. *)
Definition promiseAll3 (p1 p2 p3 : Settled unit) : Settled unit :=
  match p1, p2, p3 with
  | Rejected e, _, _ => Rejected e
  | _, Rejected e, _ => Rejected e
  | _, _, Rejected e => Rejected e
  | _, _, _ => Fulfilled tt
  end.

(** [(await kvStore.get(KEYS.photoIndex(id))) || []]: the stored list,
    the empty list when the key is absent. A stored value that is not a
    list has no [filter]. *)
Definition indexOf (v : option KvValue) : option (list Photo) :=
  match v with
  | None => Some []
  | Some (VPhotos ps) => Some ps
  | Some (VPhoto _) => None
  end.

(** [mutationFn] of [useDeletePhoto], one call from its start to its
    end. The three writes are started together; each one that does not
    fail takes effect. The index is read at an [await] before the
    writes: what two calls that overlap there do is in [DeleteOverlap]
    below. *)
Definition deletePhoto (m : Medium) (net : Network) (photo : Photo) (w : World)
    : Settled Photo * World :=
  async
    (await (onRemote (kvGet net (photoIndex (inspection_id photo))) w)
       (fun v w =>
        match indexOf v with
        | None => (Throw (TypeError "existingIndex.filter is not a function"), w)
        | Some existingIndex =>
            let updatedIndex :=
              filter (fun p => id p <> id photo) existingIndex in
            let '(p1, w1) :=
              onRemote (kvSet net (photoIndex (inspection_id photo))
                          (VPhotos updatedIndex)) w in
            let '(p2, w2) :=
              onRemote (kvDelete net
                          (photoData (inspection_id photo) (id photo))) w1 in
            let '(p3, w3) :=
              onCache (PhotoCache.delete m (inspection_id photo) (id photo)) w2 in
            await (promiseAll3 p1 p2 p3, w3) (fun _ w => (Return photo, w))
        end)).

(** No entry of the index of inspection [i] lacks its full record. *)
Definition noDangling (i : string) (t : gmap string KvValue) : Prop :=
  forall ps p, t !! photoIndex i = Some (VPhotos ps) -> p ∈ ps ->
    exists q, t !! photoData i (id p) = Some (VPhoto q).

(** The identifier contains a colon. The identifiers of the application
    are UUIDs, which contain none. *)
Fixpoint hasColon (s : string) : bool :=
  match s with
  | EmptyString => false
  | String c rest => if Ascii.eqb c ":" then true else hasColon rest
  end.

(** The example of a delete: inspection [i] with the photos [a] and [b],
    each with its full record. *)
Definition photoA : Photo := mkPhoto "a" "i" "data:A" None 0.

Definition twoStored : World :=
  mkWorld ∅
    (mkRemote
       (<[photoIndex "i" :=
            VPhotos [mkPhoto "a" "i" EmptyString None 0;
                     mkPhoto "b" "i" EmptyString None 1]]>
          (<[photoData "i" "a" := VPhoto photoA]>
             (<[photoData "i" "b" := VPhoto photoB]> ∅)))
       []).

End PhotoStore.

(** ** The query cache of [@tanstack/react-query]

    The library is not part of the repository. The functions below
    follow its [QueryClient]: [getQueryData] reads [state.data] of the
    query of a key; [setQueryData(key, updater)] computes the new data
    from the old and returns without a change when the new data is
    [undefined], and otherwise stores it, building the query if there is
    none; [getQueriesData] and [setQueriesData] do the same over every
    query that matches a filter; [cancelQueries] stops the fetches in
    flight of the queries that match. *)

Module QueryClient.

Record Query (A : Type) := mkQuery {
  data : option A;       (* [undefined] as [None] *)
  fetching : bool;       (* a fetch is in flight *)
}.
Arguments mkQuery {A} data fetching.
Arguments data {A} q.
Arguments fetching {A} q.

Section Queries.
Context {A : Type}.

(** The queries of one family of keys ([['inspection', id]], or
    [['inspection-photos', id]]), by [id]. *)
Implicit Types (qs : gmap string (Query A)) (key : string).

Definition getQueryData qs key : option A :=
  q ← qs !! key; data q.

Definition setQueryData qs key (updater : option A -> option A)
    : gmap string (Query A) :=
  match updater (getQueryData qs key) with
  | None => qs
  | Some d =>
      <[key := mkQuery (Some d)
                 (match qs !! key with Some q => fetching q | None => false end)]>
        qs
  end.

(** [cancelQueries({ queryKey: [family, key] })] and
    [cancelQueries({ queryKey: [family] })] *)
Definition cancelQuery qs key : gmap string (Query A) :=
  alter (fun q => mkQuery (data q) false) key qs.

Definition cancelQueries qs : gmap string (Query A) :=
  (fun q => mkQuery (data q) false) <$> qs.

(** [getQueriesData({ queryKey: [family] })]: the pairs of a key and its
    data. *)
Definition getQueriesData qs : list (string * option A) :=
  (fun kq => (kq.1, data kq.2)) <$> map_to_list qs.

(** [setQueriesData({ queryKey: [family] }, updater)]:
    [setQueryData(key, updater)] for every query of the family. *)
Definition setQueriesData qs (updater : option A -> option A)
    : gmap string (Query A) :=
  foldl (fun qs kq => setQueryData qs kq.1 updater) qs (map_to_list qs).

End Queries.

End QueryClient.

(** ** The optimistic mutations of [src/hooks/use-database.ts] *)

Module Mutations.
Import KvStore QueryClient.

(** [interface InspectionItem]: the identifier and the answers. *)
Record InspectionItem := mkItem {
  item_id : string;
  answer_text : option string;
  answer_boolean : option bool;
  answer_select : option string;
  notes : option string;
}.

(** [Partial<InspectionItem>]: for each answer, the new value when the
    update has the field. *)
Record ItemUpdates := mkUpdates {
  new_answer_text : option (option string);
  new_answer_boolean : option (option bool);
  new_answer_select : option (option string);
  new_notes : option (option string);
}.

(** [{ ...item, ...updates }] *)
Definition applyUpdates (item : InspectionItem) (updates : ItemUpdates)
    : InspectionItem :=
  mkItem (item_id item)
    (default (answer_text item) (new_answer_text updates))
    (default (answer_boolean item) (new_answer_boolean updates))
    (default (answer_select item) (new_answer_select updates))
    (default (notes item) (new_notes updates)).

(** The data of an [['inspection', id]] query: the inspection (its own
    fields stand in [summary]) with its [items], when it has them. *)
Record InspectionData := mkInspection {
  summary : string;
  items : option (list InspectionItem);
}.

(** The part of the query cache that the mutations touch. *)
Record Client := mkClient {
  inspections : gmap string (Query InspectionData);  (* ['inspection', id] *)
  photos : gmap string (Query (list Photo));          (* ['inspection-photos', id] *)
}.

(** [mutateAsync(variables)] of a mutation with the callbacks
    [onMutate], [onError] and [onSuccess]: [onMutate] runs first and its
    result is the context; [outcome] is the promise of [mutationFn] (the
    remote write) as it settled; a rejection runs [onError] and is the
    rejection of [mutateAsync]. *)
Definition mutateAsync {V C R : Type}
    (onMutate : V -> Client -> C * Client)
    (onError : V -> option C -> Client -> Client)
    (onSuccess : R -> V -> C -> Client -> Client)
    (variables : V) (outcome : Settled R) (qc : Client)
    : Settled R * Client :=
  let '(context, qc1) := onMutate variables qc in
  match outcome with
  | Fulfilled r => (Fulfilled r, onSuccess r variables context qc1)
  | Rejected e => (Rejected e, onError variables (Some context) qc1)
  end.

(** *** [useUpdateInspectionItem] *)

Definition itemTransform (id : string) (updates : ItemUpdates)
    (old : option InspectionData) : option InspectionData :=
  match old with
  | None => None                       (* [!old?.items]: [return old] *)
  | Some d =>
      match items d with
      | None => Some d                 (* [!old?.items]: [return old] *)
      | Some its =>
          Some (mkInspection (summary d)
                  (Some (map (fun item =>
                                if decide (item_id item = id)
                                then applyUpdates item updates else item)
                           its)))
      end
  end.

Definition updateItem_onMutate (v : string * ItemUpdates) (qc : Client)
    : list (string * option InspectionData) * Client :=
  let qs := cancelQueries (inspections qc) in
  let previousInspections := getQueriesData qs in
  (previousInspections,
   mkClient (setQueriesData qs (itemTransform v.1 v.2)) (photos qc)).

Definition updateItem_onError (v : string * ItemUpdates)
    (context : option (list (string * option InspectionData))) (qc : Client)
    : Client :=
  match context with
  | Some previousInspections =>
      mkClient
        (foldl (fun qs kd => setQueryData qs kd.1 (fun _ => kd.2))
           (inspections qc) previousInspections)
        (photos qc)
  | None => qc
  end.

(** [onSettled] does nothing and there is no [onSuccess]. *)
Definition updateItem_onSuccess (r : InspectionItem) (v : string * ItemUpdates)
    (context : list (string * option InspectionData)) (qc : Client) : Client :=
  qc.

(** *** The photo hooks

    Their [onError] is the same: [if (context?.previousPhotos)
    queryClient.setQueryData(key, context.previousPhotos)]. An array,
    empty or not, passes the test; [undefined] does not. *)

Definition photos_onError (inspectionId : string)
    (context : option (option (list Photo))) (qc : Client) : Client :=
  match context with
  | Some (Some previousPhotos) =>
      mkClient (inspections qc)
        (setQueryData (photos qc) inspectionId (fun _ => Some previousPhotos))
  | _ => qc
  end.

(** The common shape of their [onMutate]: cancel, snapshot, transform. *)
Definition photos_onMutate (inspectionId : string)
    (transform : option (list Photo) -> option (list Photo)) (qc : Client)
    : option (list Photo) * Client :=
  let qs := cancelQuery (photos qc) inspectionId in
  let previousPhotos := getQueryData qs inspectionId in
  (previousPhotos, mkClient (inspections qc) (setQueryData qs inspectionId transform)).

(** [useUploadPhoto]: the variables are the optimistic photo, built from
    the input and a fresh [crypto.randomUUID()]. *)
Definition upload_onMutate (newPhoto : Photo) (qc : Client)
    : option (list Photo) * Client :=
  photos_onMutate (inspection_id newPhoto)
    (fun old => Some (default [] old ++ [newPhoto])) qc.

Definition upload_onError (newPhoto : Photo)
    (context : option (option (list Photo))) (qc : Client) : Client :=
  photos_onError (inspection_id newPhoto) context qc.

Definition upload_onSuccess (data : Photo) (newPhoto : Photo)
    (context : option (list Photo)) (qc : Client) : Client :=
  mkClient (inspections qc)
    (setQueryData (photos qc) (inspection_id newPhoto)
       (fun old =>
          Some (map (fun p => if decide (id p = id newPhoto) then data else p)
                  (default [] old)))).

(** [useDeletePhoto] *)
Definition delete_onMutate (photo : Photo) (qc : Client)
    : option (list Photo) * Client :=
  photos_onMutate (inspection_id photo)
    (fun old => Some (filter (fun p => id p <> id photo) (default [] old))) qc.

Definition delete_onError (photo : Photo)
    (context : option (option (list Photo))) (qc : Client) : Client :=
  photos_onError (inspection_id photo) context qc.

(** [useUpdatePhotoCaption]: the variables are [id], [caption] and
    [inspection_id]. *)
Record CaptionVars := mkCaptionVars {
  cv_id : string;
  cv_caption : string;
  cv_inspection_id : string;
}.

Definition withCaption (caption : string) (p : Photo) : Photo :=
  mkPhoto (id p) (inspection_id p) (storage_key p) (Some caption) (order_index p).

Definition caption_onMutate (v : CaptionVars) (qc : Client)
    : option (list Photo) * Client :=
  photos_onMutate (cv_inspection_id v)
    (fun old =>
       Some (map (fun p => if decide (id p = cv_id v)
                           then withCaption (cv_caption v) p else p)
               (default [] old))) qc.

Definition caption_onError (v : CaptionVars)
    (context : option (option (list Photo))) (qc : Client) : Client :=
  photos_onError (cv_inspection_id v) context qc.

(** The photo hooks other than the upload have no [onSuccess]. *)
Definition noSuccess {V C R : Type} (r : R) (v : V) (context : C) (qc : Client)
    : Client := qc.

(** A query cache in which no query has been created yet. *)
Definition freshClient : Client := mkClient ∅ ∅.

End Mutations.

(** ** [handleTextUpdate] of [src/pages/inspection-edit-page.tsx] *)

Module Debounce.

(** The two text fields of an item. *)
Inductive Field := AnswerText | Notes.

#[global] Instance Field_eq_dec : EqDecision Field.
Proof. solve_decision. Defined.

Definition fieldName (field : Field) : string :=
  match field with
  | AnswerText => "answer_text"
  | Notes => "notes"
  end.

(** [`${itemId}-${field}`] *)
Definition fieldKey (itemId : string) (field : Field) : string :=
  itemId +:+ "-" +:+ fieldName field.

(** A timer of the runtime that waits: its handle, the time at which it
    is due, and what its callback closes over. *)
Record Timer := mkTimer {
  handle : nat;
  deadline : Z;
  itemId : string;
  field : Field;
  value : string;
}.

#[global] Instance Timer_eq_dec : EqDecision Timer.
Proof. solve_decision. Defined.

(** A call [handleItemUpdate(itemId, { [field]: value })], which issues
    one remote write ([updateItem.mutateAsync]). *)
Record Write := mkWrite {
  w_itemId : string;
  w_field : Field;
  w_value : string;
}.

#[global] Instance Write_eq_dec : EqDecision Write.
Proof. solve_decision. Defined.

(** The page: the timers of the runtime that wait, in the order in which
    they come due; the next handle of [setTimeout]; the ref
    [debounceTimers]; the calls of [handleItemUpdate] so far, latest
    first. The state [localItems], the flag [isEditingField] and the
    100 ms timer that clears the flag take no part in the writes and are
    left out. *)
Record Page := mkPage {
  timers : list Timer;
  nextHandle : nat;
  debounceTimers : gmap string nat;
  writes : list Write;
}.

Definition initialPage : Page := mkPage [] 1 ∅ [].

(** The queue of the runtime: a timer goes behind the timers that are due
    no later than it. *)
Fixpoint enqueue (tm : Timer) (queue : list Timer) : list Timer :=
  match queue with
  | [] => [tm]
  | x :: rest =>
      if deadline tm <? deadline x then tm :: x :: rest
      else x :: enqueue tm rest
  end.

(** [clearTimeout(handle)] *)
Definition clearTimeout (h : nat) (p : Page) : Page :=
  mkPage (filter (fun tm => handle tm <> h) (timers p)) (nextHandle p)
    (debounceTimers p) (writes p).

(** The callback of the debounce timer: [handleItemUpdate(itemId,
    { [field]: value }); delete debounceTimers.current[fieldKey]]. *)
Definition fire (p : Page) (tm : Timer) : Page :=
  mkPage (timers p) (nextHandle p)
    (base.delete (fieldKey (itemId tm) (field tm)) (debounceTimers p))
    (mkWrite (itemId tm) (field tm) (value tm) :: writes p).

(** The clock reaches [now]: the timers that are due run, in the order
    of the queue. *)
Definition advance (now : Z) (p : Page) : Page :=
  let due := filter (fun tm => deadline tm <= now) (timers p) in
  let waiting := filter (fun tm => now < deadline tm) (timers p) in
  foldl fire
    (mkPage waiting (nextHandle p) (debounceTimers p) (writes p)) due.

(** [handleTextUpdate(itemId, field, value)] at time [now]. A handle of
    [setTimeout] is a positive number (or an object), so the test
    [if (debounceTimers.current[fieldKey])] is the test that the key is
    there. *)
Definition handleTextUpdate (now : Z) (itemId : string) (field : Field)
    (value : string) (p : Page) : Page :=
  let key := fieldKey itemId field in
  let p1 :=
    match debounceTimers p !! key with
    | Some h => clearTimeout h p
    | None => p
    end in
  let h := nextHandle p1 in
  mkPage (enqueue (mkTimer h (now + 500) itemId field value) (timers p1))
    (S h) (<[key := h]> (debounceTimers p1)) (writes p1).

(** An edit of a text field, with the time at which it happens. *)
Record Edit := mkEdit {
  time : Z;
  e_itemId : string;
  e_field : Field;
  e_value : string;
}.

Definition editKey (ev : Edit) : string := fieldKey (e_itemId ev) (e_field ev).

(** The event loop: at the time of an edit, the timers that are due have
    run, then the handler runs. *)
Definition step (p : Page) (ev : Edit) : Page :=
  handleTextUpdate (time ev) (e_itemId ev) (e_field ev) (e_value ev)
    (advance (time ev) p).

Definition run (evs : list Edit) (p : Page) : Page := foldl step p evs.

(** The writes and the waiting timers of one field key. *)
Definition timerKey (tm : Timer) : string := fieldKey (itemId tm) (field tm).

Definition writeKey (w : Write) : string := fieldKey (w_itemId w) (w_field w).

Definition toWrite (tm : Timer) : Write :=
  mkWrite (itemId tm) (field tm) (value tm).

Definition writesFor (K : string) (p : Page) : list Write :=
  filter (fun w => writeKey w = K) (writes p).

Definition pendingFor (K : string) (p : Page) : list Timer :=
  filter (fun tm => timerKey tm = K) (timers p).

(** What the page keeps true: the handles of the waiting timers are
    distinct and below the next handle; [debounceTimers] holds, under the
    key of each waiting timer, the handle of that timer; and every handle
    that it holds is the handle of a waiting timer of that key. *)
Record Inv (p : Page) : Prop := mkInv {
  inv_nodup : NoDup (handle <$> timers p);
  inv_fresh : forall tm, tm ∈ timers p -> (handle tm < nextHandle p)%nat;
  inv_registered : forall tm, tm ∈ timers p ->
    debounceTimers p !! timerKey tm = Some (handle tm);
  inv_live : forall key h, debounceTimers p !! key = Some h ->
    exists tm, tm ∈ timers p /\ handle tm = h /\ timerKey tm = key;
}.

(** A burst on the key [K]: the edits (of any key) come in the order of
    time, and once [K] has been edited, each comes less than 500 ms after
    the latest edit of [K]. [prev] is the time of the edit before, [last]
    the latest edit of [K] so far. *)
Fixpoint burst (K : string) (prev : Z) (last : option Edit) (evs : list Edit)
    : Prop :=
  match evs with
  | [] => True
  | ev :: rest =>
      prev <= time ev
      /\ match last with Some l => time ev < time l + 500 | None => True end
      /\ burst K (time ev) (if decide (editKey ev = K) then Some ev else last) rest
  end.

(** The latest edit of [K] after the edits [evs]. *)
Definition latest (K : string) (last : option Edit) (evs : list Edit)
    : option Edit :=
  foldl (fun last ev => if decide (editKey ev = K) then Some ev else last)
    last evs.

(** The state of the key [K] during a burst: nothing written yet, and
    exactly the timer of the latest edit of [K] waiting, if [K] has been
    edited. *)
Definition KState (K : string) (last : option Edit) (p : Page) : Prop :=
  writesFor K p = []
  /\ match last with
     | None => pendingFor K p = []
     | Some ev =>
         exists h, pendingFor K p
                   = [mkTimer h (time ev + 500) (e_itemId ev) (e_field ev)
                        (e_value ev)]
     end.

(** The example of a burst: two edits of the notes of [item1], 100 ms
    apart, with an edit of the answer of [item2] between them. *)
Definition demoEdits : list Edit :=
  [mkEdit 0 "item1" Notes "a";
   mkEdit 50 "item2" AnswerText "x";
   mkEdit 100 "item1" Notes "ab"].

End Debounce.

(** ** The photo queries of [src/hooks/use-database.ts] *)

Module PhotoQueries.
Import PhotoCache KvStore BatchFetch.

(** What the query function of [usePhotoData] returns: the object
    literal [{ storage_key: cachedDataUrl }] of a cache hit, or the
    value of the remote store as it comes. *)
Inductive PhotoData :=
| FromCache (cachedDataUrl : string)
| FromServer (fetched : option KvValue).

(** [if (cachedDataUrl)]: a string, and not the empty one. *)
Definition truthy (s : option string) : option string :=
  match s with
  | None => None
  | Some EmptyString => None
  | Some d => Some d
  end.

(** [queryFn] of [usePhotoData(inspectionId, photoId)]. [now] is the
    clock during the cache check, [now'] the clock during the
    write-through. *)
Definition usePhotoData (m : Medium) (net : Network) (now now' : Z)
    (inspectionId photoId : string) (w : World)
    : Settled PhotoData * World :=
  async
    (await (onCache (get m now inspectionId photoId) w)
       (fun cachedDataUrl w =>
        match truthy cachedDataUrl with
        | Some d => (Return (FromCache d), w)
        | None =>
            await (onRemote (kvGet net (photoData inspectionId photoId)) w)
              (fun fetched w =>
               await (match storageKeyOf fetched with
                      | Some dataUrl =>
                          onCache (set m now' inspectionId photoId dataUrl) w
                      | None => (Fulfilled tt, w)
                      end)
                 (fun _ w => (Return (FromServer fetched), w)))
        end)).

(** [photoIndex.sort((a, b) => a.order_index - b.order_index)]. The
    sort of an array is stable; the sorted order with the stored order
    among equals is what every stable sort gives, computed here by
    insertion from the right. *)
Fixpoint insertByOrder (p : Photo) (sorted : list Photo) : list Photo :=
  match sorted with
  | [] => [p]
  | q :: rest =>
      if order_index p <=? order_index q then p :: q :: rest
      else q :: insertByOrder p rest
  end.

Definition sortByOrder (ps : list Photo) : list Photo :=
  foldr insertByOrder [] ps.

(** [queryFn] of [useInspectionPhotos(inspectionId)]:
    [Array.isArray(photoIndex) ? photoIndex.sort(...) : []]. *)
Definition useInspectionPhotos (net : Network) (inspectionId : string)
    (r : Remote) : Settled (list Photo) * Remote :=
  let '(p, r') := kvGet net (photoIndex inspectionId) r in
  (mapSettled (fun v => match v with
                        | Some (VPhotos ps) => sortByOrder ps
                        | _ => []
                        end) p,
   r').

End PhotoQueries.

(** ** [useBatchUploadPhotos] of [src/hooks/use-database.ts] *)

Module BatchUpload.
Import PhotoCache KvStore BatchFetch PhotoStore QueryClient Mutations.

(** An element of [photos] of the variables, the fields that reach a
    modelled field of [Photo]. *)
Record UploadItem := mkUpload {
  up_dataUrl : string;
  up_caption : option string;
  up_order_index : Z;
}.

(** [photoData.caption || null] *)
Definition captionOrNull (c : option string) : option string :=
  match c with
  | None => None
  | Some EmptyString => None
  | Some s => Some s
  end.

(** [photosToUpload.map((photoData) => ({ id: crypto.randomUUID(), ... }))];
    [randomUUID k] is the identifier that the [k]-th call draws. *)
Definition newPhotos (randomUUID : nat -> string) (inspection_id : string)
    (photosToUpload : list UploadItem) : list Photo :=
  imap (fun k photoData =>
          mkPhoto (randomUUID k) inspection_id (up_dataUrl photoData)
            (captionOrNull (up_caption photoData))
            (up_order_index photoData))
    photosToUpload.

(** [{ ...photo, storage_key: '' }] *)
Definition metadata (photo : Photo) : Photo :=
  mkPhoto (id photo) (inspection_id photo) EmptyString (caption photo)
    (order_index photo).

Definition promiseAll2 (p1 p2 : Settled unit) : Settled unit :=
  match p1, p2 with
  | Rejected e, _ => Rejected e
  | _, Rejected e => Rejected e
  | _, _ => Fulfilled tt
  end.

(** [newPhotos.map((photo) => Promise.all([kvStore.set(...),
    photoCache.set(...)]))]: every write is started and each one that
    does not fail takes effect; the first rejection, if any, is the
    outcome. The code starts the writes together; here they are taken
    in the order of the list. For the remote table that is the same
    (the keys differ); for the cache it is not when the [set]s evict
    (see [Overlap]), and nothing below is stated about the cache
    after a batch. *)
Fixpoint writePhotos (m : Medium) (net : Network) (now : Z)
    (inspection_id : string) (photos : list Photo) (w : World)
    : Settled unit * World :=
  match photos with
  | [] => (Fulfilled tt, w)
  | photo :: rest =>
      let '(p1, w1) :=
        onRemote (kvSet net (photoData inspection_id (id photo))
                    (VPhoto photo)) w in
      let '(p2, w2) :=
        onCache (set m now inspection_id (id photo) (storage_key photo)) w1 in
      let '(ps, w3) := writePhotos m net now inspection_id rest w2 in
      (promiseAll2 (promiseAll2 p1 p2) ps, w3)
  end.

(** [mutationFn] of [useBatchUploadPhotos]. Spreading a stored value
    that is not a list throws. *)
Definition batchUploadPhotos (m : Medium) (net : Network) (now : Z)
    (randomUUID : nat -> string) (inspection_id : string)
    (photosToUpload : list UploadItem) (w : World)
    : Settled (list Photo) * World :=
  let newPhotos := newPhotos randomUUID inspection_id photosToUpload in
  async
    (await (onRemote (kvGet net (photoIndex inspection_id)) w)
       (fun v w =>
        match indexOf v with
        | None => (Throw (TypeError "existingIndex is not iterable"), w)
        | Some existingIndex =>
            let newPhotoMetadata := map metadata newPhotos in
            let updatedIndex := existingIndex ++ newPhotoMetadata in
            let '(p0, w0) :=
              onRemote (kvSet net (photoIndex inspection_id)
                          (VPhotos updatedIndex)) w in
            let '(ps, w1) :=
              writePhotos m net now inspection_id newPhotos w0 in
            await (promiseAll2 p0 ps, w1)
              (fun _ w => (Return newPhotoMetadata, w))
        end)).

(** The table once the full record of each photo of a list has been
    written, in the order of the list. *)
Definition stored (i : string) (photos : list Photo) (t : gmap string KvValue)
    : gmap string KvValue :=
  foldl (fun t photo => <[photoData i (id photo) := VPhoto photo]> t) t photos.

(** [onMutate] and [onSuccess] of the hook. The variables are the
    optimistic photos, built from the input and fresh identifiers; the
    context carries the snapshot and [optimisticPhotoIds]. [onError] is
    the one of the other photo hooks. *)
Definition batch_onMutate (inspectionId : string) (optimistic : list Photo)
    (qc : Client) : (option (list Photo) * list string) * Client :=
  let '(previousPhotos, qc') :=
    photos_onMutate inspectionId
      (fun old => Some (default [] old ++ optimistic)) qc in
  ((previousPhotos, map id optimistic), qc').

Definition batch_onError (inspectionId : string)
    (context : option (option (list Photo) * list string)) (qc : Client)
    : Client :=
  photos_onError inspectionId (fst <$> context) qc.

Definition batch_onSuccess (inspectionId : string) (data : list Photo)
    (context : option (list Photo) * list string) (qc : Client) : Client :=
  let optimisticIds := context.2 in
  mkClient (inspections qc)
    (setQueryData (photos qc) inspectionId
       (fun old =>
          Some (filter (fun p => id p ∉ optimisticIds) (default [] old)
                ++ data))).

End BatchUpload.

(** ** The debounce over any sequence of edits *)

Module DebounceStates.
Import Debounce.

(** The state of the key [K] at any time. Before an edit of [K]: no
    timer and no write of [K]. After one: either the timer of the latest
    edit of [K] is the one timer of [K] that waits, or no timer of [K]
    waits and the latest write of [K] carries the value of that edit. *)
Definition LastWins (K : string) (last : option Edit) (p : Page) : Prop :=
  match last with
  | None => pendingFor K p = [] /\ writesFor K p = []
  | Some ev =>
      (exists h, pendingFor K p
                 = [mkTimer h (time ev + 500) (e_itemId ev) (e_field ev)
                      (e_value ev)])
      \/ (pendingFor K p = []
          /\ head (writesFor K p)
             = Some (mkWrite (e_itemId ev) (e_field ev) (e_value ev)))
  end.

(** The item, field and value are those of one of the edits. *)
Definition fromEdit (evs : list Edit) (i : string) (f : Field) (v : string)
    : Prop :=
  exists ev, ev ∈ evs /\ e_itemId ev = i /\ e_field ev = f /\ e_value ev = v.

(** Every waiting timer and every write comes from an edit, and there
    are no more of them than edits. *)
Definition Origin (evs : list Edit) (p : Page) : Prop :=
  (forall tm, tm ∈ timers p -> fromEdit evs (itemId tm) (field tm) (value tm))
  /\ (forall w, w ∈ writes p -> fromEdit evs (w_itemId w) (w_field w) (w_value w))
  /\ (length (timers p) + length (writes p) <= length evs)%nat.

End DebounceStates.

(** ** [generateDynamicTemplate] of [src/lib/types.ts] *)

Module Templates.

Inductive InspectionType := Routine | FireSafety | CheckIn | CheckOut.

#[global] Instance InspectionType_eq_dec : EqDecision InspectionType.
Proof. solve_decision. Defined.

Inductive QuestionType := QText | QBoolean | QSelect.

(** [interface InspectionTemplate] *)
Record Question := mkQuestion {
  question : string;
  q_type : QuestionType;
  options : option (list string);
  required : option bool;
}.

Record Section := mkSection {
  title : string;
  questions : list Question;
}.













(** [for (let i = 1; i <= rooms; i++) roomSections.push(...)], for a
    whole number of rooms. *)
Definition roomSections (section : nat -> Section) (rooms : Z) : list Section :=
  map section (seq 1 (Z.to_nat rooms)).



End Templates.

(** ** Calls of [set] that overlap

    [set] reaches the store in up to three transactions, each after an
    [await]: the [getAll] of [getTotalSize], the cursor of [cleanOldest]
    when the check fires, and the [put]. A transaction is atomic;
    between two of them the transactions of other calls can run. The
    repository starts calls of [set] together ([Promise.all] in
    [batchFetchPhotoData] and [useBatchUploadPhotos], one [usePhotoData]
    per photo on the page). *)

Module Overlap.
Import PhotoCache.

(** A call [set(inspectionId, photoId, dataUrl)], the clock reading of
    its [Date.now()] and the medium as it sees it. *)
Record SetCall := mkSetCall {
  sc_medium : Medium;
  sc_now : Z;
  sc_inspectionId : string;
  sc_photoId : string;
  sc_dataUrl : string;
}.

(** Where a call of [set] stands: before the transaction of
    [getTotalSize], before the one of [cleanOldest], before the [put],
    or settled. *)
Inductive Stage :=
| ToRead
| ToClean
| ToPut
| Over (outcome : Settled unit).

(** The next transaction of a call. A rejection of [this.init()], of
    [getTotalSize] or of [cleanOldest] is awaited inside the [try] and
    ends the call in its [catch]; the promise of the [put] is returned
    without [await]. *)
Definition advanceSet (c : SetCall) (stage : Stage) (st : Store)
    : Stage * Store :=
  let key := cacheKey (sc_inspectionId c) (sc_photoId c) in
  let sizeBytes := blobSize (sc_dataUrl c) in
  match stage with
  | ToRead =>
      match init (sc_medium c) with
      | Rejected _ => (Over (Fulfilled tt), st)
      | Fulfilled _ =>
          match getTotalSize (sc_medium c) st with
          | (Rejected _, st') => (Over (Fulfilled tt), st')
          | (Fulfilled currentSize, st') =>
              (if (maxSizeBytes <? currentSize + sizeBytes)%N
               then ToClean else ToPut, st')
          end
      end
  | ToClean =>
      match cleanOldest (sc_medium c) sizeBytes st with
      | (Rejected _, st') => (Over (Fulfilled tt), st')
      | (Fulfilled _, st') => (ToPut, st')
      end
  | ToPut =>
      let cached := mkCached key (sc_dataUrl c) (sc_now c) sizeBytes in
      let '(outcome, st') :=
        request (sc_medium c) (ReqPut key) st
          (Fulfilled tt, <[key := cached]> st) in
      (Over outcome, st')
  | Over outcome => (Over outcome, st)
  end.

(** The calls in flight, and a schedule: at each step the call of the
    given index runs its next transaction. *)
Definition Pool : Type := list (SetCall * Stage).

Definition stepAt (k : nat) (ps : Pool * Store) : Pool * Store :=
  match ps.1 !! k with
  | Some (c, stage) =>
      let '(stage', st') := advanceSet c stage ps.2 in
      (<[k := (c, stage')]> ps.1, st')
  | None => ps
  end.

Definition runSchedule (schedule : list nat) (ps : Pool * Store)
    : Pool * Store :=
  foldl (fun ps k => stepAt k ps) ps schedule.

(** A store of 90 MiB and two payloads of 8 MiB, for the example. *)
Definition payload90 : string := filler 94371840.
Definition payload8 : string := filler 8388608.

Definition ninety : Store := (set healthy 1 "i" "a" payload90 ∅).2.

End Overlap.

(** ** The bursts of edits of one field *)

Module DebounceBursts.
Import Debounce.

(** The edit is an edit of the field [field] of the item [itemId]. *)
Definition editOf (itemId : string) (field : Field) (ev : Edit) : Prop :=
  e_itemId ev = itemId /\ e_field ev = field.

#[global] Instance editOf_dec itemId field ev : Decision (editOf itemId field ev).
Proof. unfold editOf. apply _. Defined.

(** The write that carries the value of an edit. *)
Definition writeOf (ev : Edit) : Write :=
  mkWrite (e_itemId ev) (e_field ev) (e_value ev).

(** The writes issued for the field of the item, latest first, and the
    timers of the field that wait. *)
Definition writesOf (itemId : string) (field : Field) (p : Page) : list Write :=
  filter (fun w => w_itemId w = itemId /\ w_field w = field) (writes p).

Definition timersOf (itemId : string) (field : Field) (p : Page) : list Timer :=
  filter (fun tm => Debounce.itemId tm = itemId /\ Debounce.field tm = field)
    (timers p).

(** The edits of one field in the order of time fall into bursts: a
    burst goes on as long as each edit comes less than 500 ms after the
    one before. [burstLasts prev own] lists the last edit of each
    burst, [prev] being the edit before [own], if any. *)
Fixpoint burstLasts (prev : option Edit) (own : list Edit) : list Edit :=
  match own with
  | [] => match prev with Some l => [l] | None => [] end
  | ev :: rest =>
      match prev with
      | Some l =>
          if time l + 500 <=? time ev
          then l :: burstLasts (Some ev) rest
          else burstLasts (Some ev) rest
      | None => burstLasts (Some ev) rest
      end
  end.

(** Each edit comes less than 500 ms after the one before: one burst. *)
Fixpoint oneBurst (prev : option Edit) (own : list Edit) : Prop :=
  match own with
  | [] => True
  | ev :: rest =>
      match prev with Some l => time ev < time l + 500 | None => True end
      /\ oneBurst (Some ev) rest
  end.

(** The edits come in the order of time. *)
Definition inOrder (evs : list Edit) : Prop :=
  StronglySorted (fun a b => time a <= time b) evs.

(** The example: two bursts on the notes of [item1], 900 ms apart, with
    an edit of the answer of the same item and an edit of the notes of
    another item between the edits of the first. *)
Definition twoBursts : list Edit :=
  [mkEdit 0 "item1" Notes "a";
   mkEdit 50 "item1" AnswerText "x";
   mkEdit 100 "item1" Notes "ab";
   mkEdit 150 "item2" Notes "y";
   mkEdit 1000 "item1" Notes "abc";
   mkEdit 1200 "item1" Notes "abcd"].

End DebounceBursts.

(** ** Deletes of photos that overlap

    The [mutationFn] of [useDeletePhoto] awaits the read of the index
    and then starts its three writes. Between the read and the writes
    of one delete, another delete can read the same index. *)

Module DeleteOverlap.
Import PhotoCache KvStore BatchFetch PhotoStore.

(** [await kvStore.get(KEYS.photoIndex(photo.inspection_id))] *)
Definition deletePhoto_read (net : Network) (photo : Photo) (w : World)
    : Settled (option KvValue) * World :=
  onRemote (kvGet net (photoIndex (inspection_id photo))) w.

(** What follows the read: the filter of the list that was read, the
    three writes and [return photo]. *)
Definition deletePhoto_write (m : Medium) (net : Network) (photo : Photo)
    (v : option KvValue) (w : World) : Completion Photo * World :=
  match indexOf v with
  | None => (Throw (TypeError "existingIndex.filter is not a function"), w)
  | Some existingIndex =>
      let updatedIndex :=
        filter (fun p => id p <> id photo) existingIndex in
      let '(p1, w1) :=
        onRemote (kvSet net (photoIndex (inspection_id photo))
                    (VPhotos updatedIndex)) w in
      let '(p2, w2) :=
        onRemote (kvDelete net
                    (photoData (inspection_id photo) (id photo))) w1 in
      let '(p3, w3) :=
        onCache (PhotoCache.delete m (inspection_id photo) (id photo)) w2 in
      await (promiseAll3 p1 p2 p3, w3) (fun _ w => (Return photo, w))
  end.

(** Two deletes started together: both reads are answered before the
    writes of either arrive. *)
Definition overlappedDeletes (m : Medium) (net : Network) (a b : Photo)
    (w : World) : (Settled Photo * Settled Photo) * World :=
  let '(v1, w1) := deletePhoto_read net a w in
  let '(v2, w2) := deletePhoto_read net b w1 in
  let '(r1, w3) := async (await (v1, w2) (deletePhoto_write m net a)) in
  let '(r2, w4) := async (await (v2, w3) (deletePhoto_write m net b)) in
  ((r1, r2), w4).

(** The network on which every [/kv/set] fails and every other request
    is answered. *)
Definition setFails : Network :=
  fun c => match c with CallSet _ _ => true | _ => false end.

(** The entries of [a] and [b] in the index of [twoStored]. *)
Definition entryA : Photo := mkPhoto "a" "i" EmptyString None 0.
Definition entryB : Photo := mkPhoto "b" "i" EmptyString None 1.

End DeleteOverlap.

(** * Properties *)

(** ** Facts about the cache *)

Module PhotoCacheFacts.
Import PhotoCache.

(** Unfolds the promise plumbing of the operations of the cache. *)
Ltac unfold_async :=
  unfold tryCatch, await, init, request, returnPromise.

Lemma foldl_sizes l acc :
  foldl (fun sum (p : string * CachedPhoto) => (sum + sizeBytes p.2)%N) acc l
  = (acc + sumSizes l)%N.
Proof.
  revert acc. induction l as [|p l IH]; intros acc; simpl.
  - lia.
  - rewrite IH. lia.
Qed.

Lemma totalSize_sum st : totalSize st = sumSizes (map_to_list st).
Proof. unfold totalSize. rewrite foldl_sizes. lia. Qed.

Lemma sumSizes_perm l1 l2 : l1 ≡ₚ l2 -> sumSizes l1 = sumSizes l2.
Proof.
  induction 1; simpl; try lia.
Qed.

Lemma totalSize_empty : totalSize ∅ = 0%N.
Proof. rewrite totalSize_sum, map_to_list_empty. reflexivity. Qed.

Lemma totalSize_insert_fresh (st : Store) k e :
  st !! k = None ->
  totalSize (<[k := e]> st) = (totalSize st + sizeBytes e)%N.
Proof.
  intros Hk. rewrite !totalSize_sum.
  rewrite (sumSizes_perm _ _ (map_to_list_insert st k e Hk)). simpl. lia.
Qed.

Lemma totalSize_delete (st : Store) k e :
  st !! k = Some e ->
  totalSize st = (totalSize (base.delete k st) + sizeBytes e)%N.
Proof.
  intros Hk. rewrite <- (insert_delete_id st k e Hk) at 1.
  apply totalSize_insert_fresh, lookup_delete_eq.
Qed.

Lemma totalSize_delete_le (st : Store) k :
  (totalSize (base.delete k st) <= totalSize st)%N.
Proof.
  destruct (st !! k) as [e|] eqn:Hk.
  - rewrite (totalSize_delete st k e Hk). lia.
  - rewrite delete_id by done. lia.
Qed.

Lemma totalSize_insert (st : Store) k e :
  totalSize (<[k := e]> st)
  = (totalSize (base.delete k st) + sizeBytes e)%N.
Proof.
  rewrite <- insert_delete_eq.
  apply totalSize_insert_fresh, lookup_delete_eq.
Qed.

Lemma sumSizes_submseteq l1 l2 : l1 ⊆+ l2 -> (sumSizes l1 <= sumSizes l2)%N.
Proof. induction 1; simpl; lia. Qed.

Lemma totalSize_mono (st1 st2 : Store) :
  st1 ⊆ st2 -> (totalSize st1 <= totalSize st2)%N.
Proof.
  intros H. rewrite !totalSize_sum.
  apply sumSizes_submseteq, map_to_list_submseteq, H.
Qed.



(** *** The eviction pass *)

Lemma evict_deleteAll needed cursor freed (st : Store) :
  evict needed cursor freed st = deleteAll (evicted needed cursor freed) st.
Proof.
  revert freed st. induction cursor as [|[k e] rest IH]; intros freed st; simpl.
  - reflexivity.
  - destruct (freed <? needed)%N; simpl; [apply IH | reflexivity].
Qed.




Lemma evict_total needed cursor freed (st : Store) :
  cursor ≡ₚ map_to_list st ->
  (totalSize (evict needed cursor freed st)
     + sumSizes (evicted needed cursor freed) = totalSize st)%N
  /\ (evict needed cursor freed st = ∅
      \/ (needed <= freed + sumSizes (evicted needed cursor freed))%N).
Proof.
  revert freed st. induction cursor as [|[k e] rest IH]; intros freed st Hp; simpl.
  - split; [lia |]. left. apply map_to_list_empty_iff.
    by apply Permutation_nil in Hp.
  - destruct (freed <? needed)%N eqn:Hlt.
    + assert (Hk : st !! k = Some e).
      { apply elem_of_map_to_list. rewrite <- Hp. left. }
      assert (Hrest : rest ≡ₚ map_to_list (base.delete k st)).
      { apply (Permutation_cons_inv (a := (k, e))).
        rewrite Hp. symmetry. by apply map_to_list_delete. }
      destruct (IH (freed + sizeBytes e)%N _ Hrest) as [Htot Hstop].
      split.
      * rewrite (totalSize_delete st k e Hk). simpl. lia.
      * destruct Hstop as [?|?]; [by left | right; simpl; lia].
    + apply N.ltb_ge in Hlt. split; [simpl; lia | right; simpl; lia].
Qed.

Lemma deleteAll_subseteq l (st : Store) : deleteAll l st ⊆ st.
Proof.
  revert st. induction l as [|p l IH]; intros st; simpl; [done |].
  etrans; [apply IH | apply delete_subseteq].
Qed.

Lemma evict_subseteq needed cursor freed (st : Store) :
  evict needed cursor freed st ⊆ st.
Proof. rewrite evict_deleteAll. apply deleteAll_subseteq. Qed.

Lemma indexCursor_perm (st : Store) : indexCursor st ≡ₚ map_to_list st.
Proof. apply merge_sort_Permutation. Qed.

Lemma lexLeb_total a b : lexLeb a b = true \/ lexLeb b a = true.
Proof.
  revert b. induction a as [|x a IH]; intros [|y b]; simpl; auto.
  destruct (x <? y)%N eqn:Hxy; [by left |].
  destruct (y <? x)%N eqn:Hyx; [by right |]. apply IH.
Qed.

(** Keys are compared by their UTF-16 code units: U+10000, whose code
    units are the surrogates D800 and DC00, comes before U+E000,
    although its UTF-8 bytes come after; on ASCII keys the order is the
    order of the bytes. *)
Example keyLeb_code_units :
  keyLeb (String (ascii_of_N 240) (String (ascii_of_N 144)
            (String (ascii_of_N 128) (String (ascii_of_N 128) EmptyString))))
         (String (ascii_of_N 238) (String (ascii_of_N 128)
            (String (ascii_of_N 128) EmptyString))) = true
  /\ keyLeb (String (ascii_of_N 238) (String (ascii_of_N 128)
               (String (ascii_of_N 128) EmptyString)))
            (String (ascii_of_N 240) (String (ascii_of_N 144)
               (String (ascii_of_N 128) (String (ascii_of_N 128) EmptyString))))
     = false
  /\ keyLeb "i:a" "i:ab" = true
  /\ keyLeb "i:b" "i:ab" = false.
Proof. vm_compute. by repeat split. Qed.

#[local] Instance indexLe_total : Total indexLe.
Proof.
  intros [k1 e1] [k2 e2]. unfold indexLe. simpl.
  destruct (Z.lt_trichotomy (timestamp e1) (timestamp e2)) as [?|[?|?]];
    [by left; left | | by right; left].
  destruct (lexLeb_total (codeUnits 0 0 k1) (codeUnits 0 0 k2));
    [left | right]; right; split; done.
Qed.

#[local] Instance olderEq_trans : Transitive olderEq.
Proof. unfold olderEq. intros a b c. lia. Qed.



(** *** [set], case by case *)

Lemma set_healthy m now i p v (st : Store) :
  Healthy m ->
  set m now i p v st
  = (Fulfilled tt,
     <[cacheKey i p := mkCached (cacheKey i p) v now (blobSize v)]>
       (cleaned (blobSize v) st)).
Proof.
  intros [Hopen Hfail].
  unfold set, getTotalSize, cleanOldest, cleaned. unfold_async.
  rewrite Hopen, !Hfail. simpl.
  destruct (maxSizeBytes <? totalSize st + blobSize v)%N; simpl;
    rewrite ?Hfail; reflexivity.
Qed.

Lemma set_cases m now i p v (st : Store) :
  (set m now i p v st).2 = st
  \/ (set m now i p v st).2 = cleaned (blobSize v) st
  \/ (set m now i p v st).2
     = <[cacheKey i p := mkCached (cacheKey i p) v now (blobSize v)]>
         (cleaned (blobSize v) st).
Proof.
  unfold set, getTotalSize, cleanOldest, cleaned. unfold_async.
  destruct (dbOpens m); simpl; [| by left].
  destruct (fails m ReqGetAll); simpl; [by left |].
  destruct (maxSizeBytes <? totalSize st + blobSize v)%N; simpl.
  - destruct (fails m ReqIndexCursor); simpl; [by left |].
    destruct (fails m (ReqPut _)); simpl; auto.
  - destruct (fails m (ReqPut _)); simpl; auto.
Qed.

Lemma cleaned_subseteq s (st : Store) : cleaned s st ⊆ st.
Proof.
  unfold cleaned. destruct (_ <? _)%N; [apply evict_subseteq | done].
Qed.

Lemma delete_state_subseteq m i p (st : Store) : (delete m i p st).2 ⊆ st.
Proof.
  unfold delete. unfold_async.
  destruct (dbOpens m); simpl; [| done].
  destruct (fails m _); simpl; [done | apply delete_subseteq].
Qed.

(** Every call either only removes records, or is a [set] that writes
    its record into the cleaned store. *)
Lemma step_shrinks_or_puts (st : Store) c :
  step st c ⊆ st
  \/ exists i p v, callOp c = OpSet i p v
      /\ step st c
         = <[cacheKey i p := mkCached (cacheKey i p) v (callNow c) (blobSize v)]>
             (cleaned (blobSize v) st).
Proof.
  destruct c as [m now op]. unfold step. simpl.
  destruct op as [i p|i p v|i p|i| | |i ps].
  - left. unfold get. unfold_async.
    destruct (dbOpens m); simpl; [| done].
    destruct (fails m _); simpl; [done |].
    destruct (st !! cacheKey i p) as [e|]; simpl; [| done].
    destruct (expired now e); simpl; [apply delete_state_subseteq | done].
  - destruct (set_cases m now i p v st) as [->|[->| ->]].
    + by left.
    + left. apply cleaned_subseteq.
    + right. by exists i, p, v.
  - left. apply delete_state_subseteq.
  - left. unfold deleteInspection. unfold_async.
    destruct (dbOpens m); simpl; [| done].
    destruct (fails m _); simpl; [done | apply map_filter_subseteq].
  - left. unfold clear. unfold_async.
    destruct (dbOpens m); simpl; [| done].
    destruct (fails m _); simpl; [done | apply map_empty_subseteq].
  - left. unfold getStats. unfold_async.
    destruct (dbOpens m); simpl; [| done].
    by destruct (fails m _).
  - left. unfold batchGet, tryCatch, await, init, returnPromise.
    by destruct (dbOpens m).
Qed.

(** *** The byte budget *)

(** What the eviction pass of [set] leaves: when the check fires, either
    nothing, or a store from which at least the needed bytes are gone. *)
Lemma cleaned_total s (st : Store) :
  ((totalSize st + s <= maxSizeBytes)%N /\ cleaned s st = st)
  \/ ((maxSizeBytes < totalSize st + s)%N
      /\ (cleaned s st = ∅ \/ (totalSize (cleaned s st) + s <= totalSize st)%N)).
Proof.
  unfold cleaned. destruct (_ <? _)%N eqn:Hc.
  - right. apply N.ltb_lt in Hc. split; [done |].
    destruct (evict_total s (indexCursor st) 0 st (indexCursor_perm st))
      as [Htot [?|?]]; [by left | right; lia].
  - left. apply N.ltb_ge in Hc. done.
Qed.

Lemma totalSize_put_le (st : Store) k e :
  (totalSize (<[k := e]> st) <= totalSize st + sizeBytes e)%N.
Proof.
  rewrite totalSize_insert. pose proof (totalSize_delete_le st k). lia.
Qed.

Lemma totalSize_singleton k (e : CachedPhoto) :
  totalSize (<[k := e]> (∅ : Store)) = sizeBytes e.
Proof.
  rewrite totalSize_insert_fresh by apply lookup_empty.
  rewrite totalSize_empty. lia.
Qed.

(** The total stays within the budget as long as no payload larger
    than the budget is written, whatever the medium does. *)
Lemma step_within_capacity (st : Store) c :
  withinCapacity c ->
  (totalSize st <= maxSizeBytes)%N ->
  (totalSize (step st c) <= maxSizeBytes)%N.
Proof.
  intros Hc Hst.
  destruct (step_shrinks_or_puts st c) as [Hsub|(i & p & v & Hop & ->)].
  - pose proof (totalSize_mono _ _ Hsub). lia.
  - unfold withinCapacity in Hc. rewrite Hop in Hc.
    set (new := mkCached _ _ _ _).
    destruct (cleaned_total (blobSize v) st) as [[Hle ->]|[Hgt [-> |Hfreed]]].
    + pose proof (totalSize_put_le st (cacheKey i p) new). simpl in *. lia.
    + rewrite totalSize_singleton. simpl. lia.
    + pose proof (totalSize_put_le (cleaned (blobSize v) st) (cacheKey i p) new).
      simpl in *. lia.
Qed.

Lemma run_within_capacity calls (st : Store) :
  Forall withinCapacity calls ->
  (totalSize st <= maxSizeBytes)%N ->
  (totalSize (run calls st) <= maxSizeBytes)%N.
Proof.
  intros Hall. revert st. unfold run.
  induction Hall as [|c calls Hc _ IH]; intros st Hst; simpl; [done |].
  apply IH. by apply step_within_capacity.
Qed.








Lemma blobSize_filler n : blobSize (filler n) = n.
Proof.
  unfold filler. induction n as [|n IH] using N.peano_ind.
  - reflexivity.
  - rewrite N.iter_succ. simpl. by rewrite IH.
Qed.

Lemma healthy_Healthy : Healthy healthy.
Proof. by split. Qed.

Lemma cleaned_empty s : cleaned s (∅ : Store) = ∅.
Proof.
  pose proof (cleaned_subseteq s (∅ : Store)) as H.
  apply map_eq. intros k. rewrite lookup_empty.
  eapply lookup_weaken_None; [apply lookup_empty | exact H].
Qed.




(** *** The eviction bound *)



(** *** Expiry *)

(** On a healthy medium a [get] on a stored key is decided by the age
    of the record alone. *)
Lemma get_healthy m now i p (st : Store) cached :
  Healthy m ->
  st !! cacheKey i p = Some cached ->
  get m now i p st
  = if 7 * (24 * 60 * 60 * 1000) <? now - timestamp cached
    then (Fulfilled None, base.delete (cacheKey i p) st)
    else (Fulfilled (Some (dataUrl cached)), st).
Proof.
  intros [Hopen Hfail] Hk.
  unfold get, delete. unfold_async.
  rewrite Hopen, !Hfail, Hk. simpl. unfold expired.
  change (CACHE_EXPIRY_DAYS * msPerDay) with (7 * (24 * 60 * 60 * 1000)).
  by destruct (_ <? _).
Qed.

(** C7: on a healthy medium, a [get] on a key whose record is older
    than seven days ([now - timestamp] above [7 * 24 * 60 * 60 * 1000]
    ms) returns [null] and leaves the store without the record; a
    record that is not older than that is returned as a hit and the
    store is unchanged. *)
Theorem get_expired_miss_unexpired_hit m now i p (st : Store) cached :
  Healthy m ->
  st !! cacheKey i p = Some cached ->
  (7 * (24 * 60 * 60 * 1000) < now - timestamp cached ->
     get m now i p st = (Fulfilled None, base.delete (cacheKey i p) st)
     /\ (get m now i p st).2 !! cacheKey i p = None)
  /\ (now - timestamp cached <= 7 * (24 * 60 * 60 * 1000) ->
       get m now i p st = (Fulfilled (Some (dataUrl cached)), st)).
Proof.
  intros Hm Hk. rewrite (get_healthy m now i p st cached Hm Hk).
  split; intros Hage.
  - apply Z.ltb_lt in Hage. rewrite Hage. simpl.
    split; [done | apply lookup_delete_eq].
  - apply Z.ltb_ge in Hage. by rewrite Hage.
Qed.

Lemma get_expired_witness :
  Healthy healthy
  /\ (set healthy 0 "i" "a" "AAAA" ∅).2 !! cacheKey "i" "a"
     = Some (mkCached "i:a" "AAAA" 0 4)
  /\ get healthy (8 * msPerDay) "i" "a" (set healthy 0 "i" "a" "AAAA" ∅).2
     = (Fulfilled None,
        base.delete (cacheKey "i" "a") (set healthy 0 "i" "a" "AAAA" ∅).2)
  /\ get healthy (7 * msPerDay) "i" "a" (set healthy 0 "i" "a" "AAAA" ∅).2
     = (Fulfilled (Some "AAAA"), (set healthy 0 "i" "a" "AAAA" ∅).2).
Proof.
  assert (Hk : (set healthy 0 "i" "a" "AAAA" ∅).2 !! cacheKey "i" "a"
               = Some (mkCached "i:a" "AAAA" 0 4)) by (vm_compute; reflexivity).
  split; [apply healthy_Healthy |]. split; [exact Hk |].
  split.
  - apply (get_expired_miss_unexpired_hit healthy (8 * msPerDay) "i" "a" _ _
             healthy_Healthy Hk).
    vm_compute; reflexivity.
  - apply (get_expired_miss_unexpired_hit healthy (7 * msPerDay) "i" "a" _ _
             healthy_Healthy Hk).
    vm_compute; discriminate.
Defined.

(** *** Round trip *)

(** C9: on a healthy medium, [set(k, v)] followed at once by [get(k)],
    with at most seven days between the two clock readings, returns
    [v], whatever the payload and whatever the store held before. *)
Theorem set_then_get_returns_payload m1 m2 t1 t2 i p v (st : Store) :
  Healthy m1 ->
  Healthy m2 ->
  t2 - t1 <= 7 * (24 * 60 * 60 * 1000) ->
  (set m1 t1 i p v st).1 = Fulfilled tt
  /\ get m2 t2 i p (set m1 t1 i p v st).2
     = (Fulfilled (Some v), (set m1 t1 i p v st).2).
Proof.
  intros H1 H2 Hage. rewrite (set_healthy m1) by done. simpl.
  split; [done |].
  set (new := mkCached (cacheKey i p) v t1 (blobSize v)).
  assert (Hk : <[cacheKey i p := new]> (cleaned (blobSize v) st) !! cacheKey i p
               = Some new) by apply lookup_insert_eq.
  rewrite (get_healthy m2 t2 i p _ new H2 Hk). simpl.
  apply Z.ltb_ge in Hage. by rewrite Hage.
Qed.

Lemma set_then_get_witness :
  Healthy healthy
  /\ 5 - 1 <= 7 * (24 * 60 * 60 * 1000)
  /\ get healthy 5 "i" "a" (set healthy 1 "i" "a" "data:AAAA" ∅).2
     = (Fulfilled (Some "data:AAAA"), (set healthy 1 "i" "a" "data:AAAA" ∅).2).
Proof.
  split; [apply healthy_Healthy |]. split; [lia |].
  apply (set_then_get_returns_payload healthy healthy 1 5 "i" "a" "data:AAAA" ∅
           healthy_Healthy healthy_Healthy).
  lia.
Defined.

(** *** Overwriting a key *)

(** C10: when key [k] is already stored with a record [old], a [set]
    on [k] with payload [v'] tests [totalSize st + blobSize v' >
    maxSizeBytes], the size of [old] included. So with the store within
    the budget and the overwrite alone fitting
    ([totalSize st - sizeBytes old + blobSize v' <= maxSizeBytes]), the
    eviction pass still runs when that test fires, and the oldest
    record, when it is a record of another key, is gone afterwards. *)
Theorem overwrite_counts_existing_entry m now i p v' (st : Store) old k0 e0 rest :
  Healthy m ->
  st !! cacheKey i p = Some old ->
  (totalSize st <= maxSizeBytes)%N ->
  (totalSize st - sizeBytes old + blobSize v' <= maxSizeBytes)%N ->
  (maxSizeBytes < totalSize st + blobSize v')%N ->
  indexCursor st = (k0, e0) :: rest ->
  k0 <> cacheKey i p ->
  let k := cacheKey i p in
  let new := mkCached k v' now (blobSize v') in
  let after := (set m now i p v' st).2 in
  after = <[k := new]> (evict (blobSize v') (indexCursor st) 0 st)
  /\ st !! k0 = Some e0
  /\ after !! k0 = None
  /\ after !! k = Some new.
Proof.
  intros Hm Hold HT Hfit Hfire Hcur Hne k new after.
  assert (Hafter : after = <[k := new]> (evict (blobSize v') (indexCursor st) 0 st)).
  { subst after. rewrite set_healthy by done. simpl. unfold cleaned.
    apply N.ltb_lt in Hfire. by rewrite Hfire. }
  split; [exact Hafter |]. split; [| split].
  - apply elem_of_map_to_list. rewrite <- indexCursor_perm, Hcur. left.
  - rewrite Hafter, lookup_insert_ne by done.
    rewrite Hcur. simpl.
    assert (Hpos : (0 <? blobSize v')%N = true) by (apply N.ltb_lt; lia).
    rewrite Hpos, evict_deleteAll.
    eapply lookup_weaken_None; [apply lookup_delete_eq | apply deleteAll_subseteq].
  - rewrite Hafter. apply lookup_insert_eq.
Qed.

Lemma cleaned_fits s (st : Store) :
  (totalSize st + s <= maxSizeBytes)%N -> cleaned s st = st.
Proof.
  intros H. unfold cleaned. apply N.ltb_ge in H. by rewrite H.
Qed.

Lemma two_sets_state a b :
  blobSize a = 41943040%N ->
  blobSize b = 31457280%N ->
  let st := run [mkCall healthy 1 (OpSet "i" "a" a);
                 mkCall healthy 2 (OpSet "i" "b" b)] ∅ in
  st = <["i:b" := mkCached "i:b" b 2 31457280]>
         (<["i:a" := mkCached "i:a" a 1 41943040]> ∅)
  /\ indexCursor st
     = [("i:a", mkCached "i:a" a 1 41943040);
        ("i:b", mkCached "i:b" b 2 31457280)]
  /\ totalSize st = 73400320%N.
Proof.
  intros Ha Hb st.
  assert (Hst : st = <["i:b" := mkCached "i:b" b 2 31457280]>
                       (<["i:a" := mkCached "i:a" a 1 41943040]> ∅)).
  { subst st. unfold run, step. simpl.
    rewrite !(set_healthy healthy) by apply healthy_Healthy. simpl.
    rewrite Ha, Hb, cleaned_empty.
    rewrite cleaned_fits; [reflexivity |].
    rewrite totalSize_singleton. simpl. vm_compute. discriminate. }
  split; [exact Hst |]. rewrite Hst. split; vm_compute; reflexivity.
Qed.



Lemma overwrite_witness :
  twoPhotos !! cacheKey "i" "b" = Some (mkCached "i:b" payload30 2 31457280)
  /\ (totalSize twoPhotos <= maxSizeBytes)%N
  /\ (totalSize twoPhotos - 31457280 + blobSize payload35 <= maxSizeBytes)%N
  /\ (maxSizeBytes < totalSize twoPhotos + blobSize payload35)%N
  /\ twoPhotos !! "i:a" = Some (mkCached "i:a" payload40 1 41943040)
  /\ (set healthy 3 "i" "b" payload35 twoPhotos).2 !! "i:a" = None.
Proof.
  destruct (two_sets_state payload40 payload30
              (blobSize_filler _) (blobSize_filler _)) as (Hst & Hcur & Htot).
  fold twoPhotos in Hst, Hcur, Htot.
  assert (Hv : blobSize payload35 = 36700160%N) by apply blobSize_filler.
  assert (Hold : twoPhotos !! cacheKey "i" "b"
                 = Some (mkCached "i:b" payload30 2 31457280)).
  { rewrite Hst. apply lookup_insert_eq. }
  assert (HT : (totalSize twoPhotos <= maxSizeBytes)%N).
  { rewrite Htot. vm_compute. discriminate. }
  assert (Hfit : (totalSize twoPhotos - sizeBytes (mkCached "i:b" payload30 2 31457280)
                  + blobSize payload35 <= maxSizeBytes)%N).
  { rewrite Htot, Hv. vm_compute. discriminate. }
  assert (Hfire : (maxSizeBytes < totalSize twoPhotos + blobSize payload35)%N).
  { rewrite Htot, Hv. vm_compute. reflexivity. }
  assert (Hne : "i:a" <> cacheKey "i" "b") by discriminate.
  destruct (overwrite_counts_existing_entry healthy 3 "i" "b" payload35
              twoPhotos _ "i:a" _ _ healthy_Healthy Hold HT Hfit Hfire Hcur Hne)
    as (_ & Hin & Hgone & _).
  exact (conj Hold (conj HT (conj Hfit (conj Hfire (conj Hin Hgone))))).
Defined.

(** *** The first scenario of the specification

    30 MB in the cache, then one entry of 80 MB: the 30 MB are evicted
    and the new entry is alone in the store. *)

Lemma thirty_then_eighty a b :
  blobSize a = 31457280%N ->
  blobSize b = 83886080%N ->
  (set healthy 2 "i" "b" b (set healthy 1 "i" "a" a ∅).2).2
  = <["i:b" := mkCached "i:b" b 2 83886080]> ∅.
Proof.
  intros Ha Hb. rewrite !(set_healthy healthy) by apply healthy_Healthy.
  cbn [snd]. rewrite Ha, Hb, cleaned_empty. vm_compute. reflexivity.
Qed.

Example scenario_evicts_the_oldest :
  (set healthy 2 "i" "b" payload80 (set healthy 1 "i" "a" payload30 ∅).2).2
  = <["i:b" := mkCached "i:b" payload80 2 83886080]> ∅.
Proof. apply thirty_then_eighty; apply blobSize_filler. Qed.

(** *** Failures of the medium *)

(** When the database cannot be opened, every operation is a no-op or a
    miss: [await this.init()] throws inside the [try] and the [catch]
    answers. *)
Lemma unavailable_medium_degrades m now i p v ids (st : Store) :
  dbOpens m = false ->
  get m now i p st = (Fulfilled None, st)
  /\ set m now i p v st = (Fulfilled tt, st)
  /\ delete m i p st = (Fulfilled tt, st)
  /\ deleteInspection m i st = (Fulfilled tt, st)
  /\ clear m st = (Fulfilled tt, st)
  /\ getStats m st = (Fulfilled (0%nat, 0%N), st)
  /\ batchGet m now i ids st = (Fulfilled ∅, st).
Proof.
  intros Hopen.
  unfold get, set, delete, deleteInspection, clear, getStats, batchGet,
    tryCatch, await, init.
  rewrite Hopen. by repeat split.
Qed.

(** [batchGet] absorbs the errors of its requests as well. *)
Lemma batchGet_never_rejects m now i ids (st : Store) :
  exists hits, batchGet m now i ids st = (Fulfilled hits, st).
Proof.
  unfold batchGet, tryCatch, await, init, returnPromise.
  destruct (dbOpens m); by eexists.
Qed.

(** C5, evaluated where the code departs from it: once the database is
    open, an error of the request of [get], [set] (its [put]), [delete],
    [deleteInspection], [clear] or [getStats] rejects the promise that
    the operation returns. The promise is returned from inside the
    [try] without [await], so the [catch] that would answer [null] or
    nothing never sees the rejection, and the caller does. *)
Theorem request_error_reaches_the_caller now i p v (st : Store) :
  get requestsFail now i p st
  = (Rejected (IdbRequestError (ReqGet (cacheKey i p))), st)
  /\ set putFails now i p v st
     = (Rejected (IdbRequestError (ReqPut (cacheKey i p))),
        cleaned (blobSize v) st)
  /\ delete requestsFail i p st
     = (Rejected (IdbRequestError (ReqDelete (cacheKey i p))), st)
  /\ deleteInspection requestsFail i st
     = (Rejected (IdbRequestError ReqOpenCursor), st)
  /\ clear requestsFail st = (Rejected (IdbRequestError ReqClear), st)
  /\ getStats requestsFail st = (Rejected (IdbRequestError ReqGetAll), st).
Proof.
  repeat split; try reflexivity.
  unfold set, getTotalSize, cleanOldest, cleaned. unfold_async. simpl.
  by destruct (maxSizeBytes <? totalSize st + blobSize v)%N.
Qed.

End PhotoCacheFacts.

(** ** Facts about the batch fetch *)

Module BatchFetchFacts.
Import PhotoCache KvStore BatchFetch.

Lemma batchGet_hits m now i ids (st : Store) :
  batchGet m now i ids st = (Fulfilled (cacheHits m now i ids st), st).
Proof.
  unfold batchGet, cacheHits, tryCatch, await, init, returnPromise.
  by destruct (dbOpens m).
Qed.

Lemma mget_calls net keys r :
  calls (mget net keys r).2
  = match keys with [] => calls r | _ => CallMget keys :: calls r end.
Proof.
  destruct keys as [|k keys]; [done |].
  unfold mget, apiCall. by destruct (net _).
Qed.

Lemma mget_values net keys r vs :
  (mget net keys r).1 = Fulfilled vs ->
  vs = map (fun key => table r !! key) keys.
Proof.
  destruct keys as [|k keys]; simpl; [by intros [= <-] |].
  unfold apiCall. destruct (net _); simpl; [done | by intros [= <-]].
Qed.

(** C3: whatever the cache, the network and the clock do,
    [batchFetchPhotoData] sends no request at all when every id is a
    cache hit (or the list is empty), and otherwise sends exactly one
    request, the [/kv/mget] over the keys of all the missing ids. *)
Theorem batch_fetch_one_remote_call m net now now' i ids w :
  let hits := cacheHits m now i ids (cache w) in
  let missing := filter (fun id => hits !! id = None) ids in
  calls (remote (batchFetchPhotoData m net now now' i ids w).2)
  = match missing with
    | [] => calls (remote w)
    | _ => CallMget (map (photoData i) missing) :: calls (remote w)
    end.
Proof.
  intros hits missing. destruct ids as [|id0 ids]; [done |].
  unfold batchFetchPhotoData, async, tryCatch, await, onCache, onRemote.
  rewrite batchGet_hits. fold hits. cbn [cache remote]. fold missing.
  destruct missing as [|x rest]; [done |].
  set (keys := map (photoData i) (x :: rest)).
  pose proof (mget_calls net keys (remote w)) as Hcalls.
  destruct (mget net keys (remote w)) as [[vs|e] r']; cbn [cache remote snd] in *.
  - destruct (storeFetched _ _ _ _ _ _) as [[[]|e] st']; cbn [remote]; exact Hcalls.
  - exact Hcalls.
Qed.

(** *** The merge *)

Lemma addCached_lookup hits id :
  addCached hits !! id = stub id <$> hits !! id.
Proof.
  unfold addCached. rewrite map_lookup_imap. by destruct (hits !! id).
Qed.

Lemma addServer_lookup (f : string -> option KvValue) ids acc id :
  addServer ids (map f ids) acc !! id
  = if decide (id ∈ ids)
    then match f id with Some v => Some v | None => acc !! id end
    else acc !! id.
Proof.
  revert acc. induction ids as [|x ids IH]; intros acc.
  - simpl. destruct (decide (id ∈ [])) as [H%not_elem_of_nil|]; done.
  - cbn [map addServer]. rewrite IH.
    destruct (decide (id ∈ ids)) as [Hin|Hnin].
    + rewrite decide_True by (by right).
      destruct (f id) eqn:Hf; [done |].
      destruct (f x) eqn:Hfx; [| done].
      rewrite lookup_insert_ne; [done |]. intros ->. congruence.
    + destruct (decide (id = x)) as [->|Hne].
      * rewrite decide_True by left.
        destruct (f x); [by rewrite lookup_insert_eq | done].
      * rewrite decide_False by (by intros [?|?]%elem_of_cons).
        destruct (f x); [by rewrite lookup_insert_ne | done].
Qed.

Lemma merged_lookup hits t i ids id :
  id ∈ ids ->
  addServer (filter (fun id => hits !! id = None) ids)
    (map (fun key => t !! key)
       (map (photoData i) (filter (fun id => hits !! id = None) ids)))
    (addCached hits) !! id
  = found hits t i id.
Proof.
  intros Hin. rewrite map_map.
  rewrite (addServer_lookup (fun id => t !! photoData i id)).
  rewrite addCached_lookup. unfold found.
  destruct (hits !! id) as [d|] eqn:Hh.
  - rewrite decide_False; [done |].
    intros [Hnone _]%list_elem_of_filter. congruence.
  - rewrite decide_True by (by apply list_elem_of_filter).
    by destruct (t !! photoData i id).
Qed.

Lemma omap_ext_in {A B} (f g : A -> option B) (l : list A) :
  (forall x, x ∈ l -> f x = g x) -> omap f l = omap g l.
Proof.
  induction l as [|x l IH]; intros H; [done |].
  assert (Hl : omap f l = omap g l).
  { apply IH. intros y Hy. apply H. by right. }
  cbn. rewrite (H x) by left. destruct (g x); [f_equal |]; exact Hl.
Qed.

Lemma all_hits_map hits t i (l : list string) :
  filter (fun id => hits !! id = None) l = [] ->
  map (fun photoId => stub photoId (default EmptyString (hits !! photoId))) l
  = omap (found hits t i) l.
Proof.
  induction l as [|y l IH]; [done |].
  rewrite filter_cons. destruct (decide (hits !! y = None)) as [|Hy]; [done |].
  intros Hnil. cbn. unfold found at 1.
  destruct (hits !! y) as [d|]; [| done]. simpl. f_equal. by apply IH.
Qed.

(** Whenever [batchFetchPhotoData] returns a result, the result is the
    list of what the two sources hold for the ids, in the order of the
    ids, with the ids that neither source holds left out. *)
Lemma batch_fetch_result m net now now' i ids w result :
  (batchFetchPhotoData m net now now' i ids w).1 = Fulfilled result ->
  result
  = omap (found (cacheHits m now i ids (cache w)) (table (remote w)) i) ids.
Proof.
  destruct ids as [|id0 ids]; [by intros [= <-] |].
  set (hits := cacheHits m now i (id0 :: ids) (cache w)).
  unfold batchFetchPhotoData, async, tryCatch, await, onCache, onRemote.
  rewrite batchGet_hits. fold hits. cbn [cache remote].
  destruct (filter (fun id => hits !! id = None) (id0 :: ids))
    as [|x rest] eqn:Hm.
  - cbn [fst]. intros [= <-].
    exact (all_hits_map hits (table (remote w)) i (id0 :: ids) Hm).
  - pose proof (mget_values net (map (photoData i) (x :: rest)) (remote w)) as Hvs.
    destruct (mget net _ (remote w)) as [[vs|e] r']; cbn [cache remote fst snd] in *;
      [| done].
    specialize (Hvs vs eq_refl). subst vs.
    destruct (storeFetched _ _ _ _ _ _) as [[[]|e] st']; cbn [fst]; [| done].
    intros [= <-].
    transitivity
      (omap (fun id =>
               addServer (x :: rest)
                 (map (fun key => table (remote w) !! key)
                    (map (photoData i) (x :: rest)))
                 (addCached hits) !! id) (id0 :: ids)); [reflexivity |].
    rewrite <- Hm. apply omap_ext_in.
    intros id Hid. by apply merged_lookup.
Qed.

Lemma storeFetched_healthy m now i ids vs (st : Store) :
  Healthy m -> (storeFetched m now i ids vs st).1 = Fulfilled tt.
Proof.
  intros Hm. revert ids st. induction vs as [|v vs IH]; intros ids st;
    [by destruct ids |].
  destruct ids as [|x ids]; [done |]. cbn [storeFetched].
  destruct (storageKeyOf v) as [d|].
  - rewrite (PhotoCacheFacts.set_healthy m) by done.
    specialize (IH ids
      (<[cacheKey i x := mkCached (cacheKey i x) d now (blobSize d)]>
         (cleaned (blobSize d) st))).
    destruct (storeFetched m now i ids vs _) as [p st2]. exact IH.
  - specialize (IH ids st).
    destruct (storeFetched m now i ids vs st) as [p st2]. exact IH.
Qed.

Lemma batch_fetch_fulfils m net now now' i ids w :
  Healthy m -> (forall c, net c = false) ->
  exists result, (batchFetchPhotoData m net now now' i ids w).1 = Fulfilled result.
Proof.
  intros Hm Hnet. destruct ids as [|id0 ids]; [by exists [] |].
  unfold batchFetchPhotoData, async, tryCatch, await, onCache, onRemote.
  rewrite batchGet_hits. cbn [cache remote].
  destruct (filter _ (id0 :: ids)) as [|x rest]; [by eexists |].
  unfold mget, apiCall. cbn [map]. rewrite Hnet. cbn [serve mapSettled cache remote].
  pose proof (storeFetched_healthy m now' i (x :: rest)
                (map (fun key => table (remote w) !! key)
                   (map (photoData i) (x :: rest))) (cache w) Hm) as Hs.
  cbn [map] in Hs.
  destruct (storeFetched _ _ _ _ _ _) as [p st']. cbn [fst] in Hs. subst p.
  by eexists.
Qed.

(** The third scenario of the specification: [a] and [b] in the cache, [c]
    only in the remote table: one request, for the key of [c], and the
    three photos in the order of the input. *)
Example scenario_one_call_for_the_missing :
  batchFetchPhotoData healthy online 3 4 "i" ["a"; "b"; "c"]
    (mkWorld (set healthy 2 "i" "b" "data:B" (set healthy 1 "i" "a" "data:A" ∅).2).2
       (mkRemote {[ photoData "i" "c" := VPhoto (mkPhoto "c" "i" "data:C" None 2) ]}
          []))
  = (Fulfilled [stub "a" "data:A"; stub "b" "data:B";
                VPhoto (mkPhoto "c" "i" "data:C" None 2)],
     mkWorld
       (set healthy 4 "i" "c" "data:C"
          (set healthy 2 "i" "b" "data:B" (set healthy 1 "i" "a" "data:A" ∅).2).2).2
       (mkRemote {[ photoData "i" "c" := VPhoto (mkPhoto "c" "i" "data:C" None 2) ]}
          [CallMget [photoData "i" "c"]])).
Proof. vm_compute. reflexivity. Qed.

(** C4, as the claim states it, fails: with [a] in the cache, [b] in
    the remote table and [c] in neither, the fetch of [a, b, c] returns
    two elements. *)
Lemma batch_fetch_three_counterexample :
  exists result,
    (batchFetchPhotoData healthy online 2 3 "i" ["a"; "b"; "c"] demoWorld).1
    = Fulfilled result
    /\ length result = 2%nat.
Proof.
  exists [stub "a" "data:A"; VPhoto photoB]. split; vm_compute; reflexivity.
Qed.

(** C4 (amended): on a healthy cache and a network that answers, for
    every list [a, b, c] the fetch returns, in the order of the input,
    the cache hit or else the remote value of each id, and leaves out
    the ids that neither source holds: the result has three elements
    exactly when each of the three ids is held by the cache or by the
    remote table, and fewer otherwise. *)
Theorem batch_fetch_in_input_order m net now now' i a b c w :
  Healthy m ->
  (forall call, net call = false) ->
  let f := found (cacheHits m now i [a; b; c] (cache w)) (table (remote w)) i in
  (batchFetchPhotoData m net now now' i [a; b; c] w).1
  = Fulfilled (omap f [a; b; c])
  /\ (length (omap f [a; b; c]) <= 3)%nat
  /\ (length (omap f [a; b; c]) = 3%nat
       <-> is_Some (f a) /\ is_Some (f b) /\ is_Some (f c)).
Proof.
  intros Hm Hnet f.
  destruct (batch_fetch_fulfils m net now now' i [a; b; c] w Hm Hnet)
    as [result Hres].
  rewrite Hres. rewrite (batch_fetch_result _ _ _ _ _ _ _ _ Hres). fold f.
  split; [done |]. cbn.
  destruct (f a), (f b), (f c); simpl; split; try lia;
    split; try (intros (? & ? & ?)); try done;
    repeat split; try done;
    match goal with H : is_Some None |- _ => by destruct H end.
Qed.

Lemma batch_fetch_in_input_order_witness :
  Healthy healthy
  /\ (forall call, online call = false)
  /\ (batchFetchPhotoData healthy online 2 3 "i" ["a"; "b"; "c"] demoWorld).1
     = Fulfilled [stub "a" "data:A"; VPhoto photoB].
Proof.
  split; [apply PhotoCacheFacts.healthy_Healthy |]. split; [done |].
  destruct (batch_fetch_in_input_order healthy online 2 3 "i" "a" "b" "c"
              demoWorld PhotoCacheFacts.healthy_Healthy (fun _ => eq_refl))
    as [Hres _].
  rewrite Hres. vm_compute. reflexivity.
Defined.

End BatchFetchFacts.

(** ** Facts about deleting a photo *)

Module PhotoStoreFacts.
Import PhotoCache KvStore BatchFetch PhotoStore.

#[local] Arguments String.append !_ _ / : simpl nomatch.

Lemma photoIndex_inj i i' : photoIndex i = photoIndex i' -> i = i'.
Proof. unfold photoIndex. simpl. by intros [= ->]. Qed.

Lemma photoIndex_photoData i i' p : photoIndex i <> photoData i' p.
Proof. unfold photoIndex, photoData. simpl. discriminate. Qed.

Lemma colon_split i i' p p' :
  hasColon i = false -> hasColon i' = false ->
  i +:+ ":" +:+ p = i' +:+ ":" +:+ p' -> i = i' /\ p = p'.
Proof.
  revert i'. induction i as [|c i IH]; intros [|c' i']; simpl.
  - by intros _ _ [= ->].
  - intros _ Hc [= <- _]. by rewrite Ascii.eqb_refl in Hc.
  - intros Hc _ [= -> _]. by rewrite Ascii.eqb_refl in Hc.
  - destruct (Ascii.eqb c ":") eqn:?; [done |].
    destruct (Ascii.eqb c' ":") eqn:?; [done |].
    intros Hi Hi' [= -> Heq]. destruct (IH i' Hi Hi' Heq) as [-> ->]. done.
Qed.

Lemma photoData_inj i i' p p' :
  hasColon i = false -> hasColon i' = false ->
  photoData i p = photoData i' p' -> i = i' /\ p = p'.
Proof.
  unfold photoData. simpl. intros Hi Hi' [= Heq]. by apply colon_split.
Qed.

Lemma append_inj_l s a b : s +:+ a = s +:+ b -> a = b.
Proof. induction s as [|c s IH]; simpl; [done | intros [= H]; auto]. Qed.

Lemma photoData_same_inspection i p p' : photoData i p = photoData i p' -> p = p'.
Proof.
  unfold photoData. intros H.
  apply append_inj_l, append_inj_l, append_inj_l in H. exact H.
Qed.

(** What a delete that completed has done to the table. *)
Lemma deletePhoto_completed m net photo w r w' :
  deletePhoto m net photo w = (Fulfilled r, w') ->
  exists existingIndex,
    indexOf (table (remote w) !! photoIndex (inspection_id photo))
    = Some existingIndex
    /\ table (remote w')
       = base.delete (photoData (inspection_id photo) (id photo))
           (<[photoIndex (inspection_id photo) :=
                VPhotos (filter (fun p => id p <> id photo) existingIndex)]>
              (table (remote w))).
Proof.
  unfold deletePhoto, async, tryCatch, await, onRemote, onCache, kvGet, kvSet,
    kvDelete, apiCall.
  destruct (net (CallGet _)); cbn [serve mapSettled remote cache table];
    [intros [=] |].
  destruct (indexOf (table (remote w) !! _)) as [existingIndex|] eqn:Hidx;
    [| intros [=]].
  destruct (net (CallSet _ _)); cbn [serve mapSettled remote cache table];
    destruct (net (CallDelete _)); cbn [serve mapSettled remote cache table];
    destruct (PhotoCache.delete _ _ _ _) as [[[]|e] st'];
    cbn [promiseAll3]; try (intros [=]; fail).
  intros [= <- <-]. exists existingIndex. by split.
Qed.

(** A delete of a photo that fulfilled, no other mutation of the
    inspection running beside it, has removed the full record
    of the photo and the entry of the photo from the index of its
    inspection, in the one [mutationFn]; an index of that inspection
    without dangling entries is still without dangling entries, and so
    is the index of every other inspection (the identifiers of
    inspections being free of colons, as UUIDs are, so that the keys of
    two inspections cannot coincide). *)
Theorem delete_photo_leaves_no_dangling_entry m net photo w r w' :
  deletePhoto m net photo w = (Fulfilled r, w') ->
  let i := inspection_id photo in
  let t := table (remote w) in
  let t' := table (remote w') in
  t' !! photoData i (id photo) = None
  /\ (exists ps', t' !! photoIndex i = Some (VPhotos ps')
                 /\ forall p, p ∈ ps' -> id p <> id photo)
  /\ (noDangling i t -> noDangling i t')
  /\ (forall j, hasColon i = false -> hasColon j = false ->
                noDangling j t -> noDangling j t').
Proof.
  intros Hdel i t t'.
  destruct (deletePhoto_completed _ _ _ _ _ _ Hdel) as (existing & Hidx & Ht').
  fold i t t' in Hidx, Ht'.
  set (updated := filter (fun p => id p <> id photo) existing) in *.
  assert (Hindex' : t' !! photoIndex i = Some (VPhotos updated)).
  { rewrite Ht', lookup_delete_ne by (symmetry; apply photoIndex_photoData).
    apply lookup_insert_eq. }
  assert (Hupd : forall p, p ∈ updated -> id p <> id photo /\ p ∈ existing).
  { intros p Hp. by apply list_elem_of_filter in Hp. }
  assert (Hkeep : forall j q, photoData j q <> photoData i (id photo) ->
            t' !! photoData j q = t !! photoData j q).
  { intros j q Hne. rewrite Ht', lookup_delete_ne by done.
    apply lookup_insert_ne, photoIndex_photoData. }
  assert (Hsame : noDangling i t -> noDangling i t').
  { intros Hnd ps p Hps Hin. rewrite Hindex' in Hps. injection Hps as <-.
    destruct (Hupd p Hin) as [Hne Hex].
    rewrite Hkeep by (intros Heq; by apply photoData_same_inspection in Heq).
    destruct (t !! photoIndex i) as [[q|ps0]|] eqn:Hti; simpl in Hidx.
    - done.
    - injection Hidx as ->. by apply (Hnd existing).
    - injection Hidx as <-. by apply not_elem_of_nil in Hex. }
  split; [rewrite Ht'; apply lookup_delete_eq |].
  split; [exists updated; split; [done | intros p Hp; by apply Hupd] |].
  split; [done |].
  intros j Hi Hj Hnd. destruct (decide (j = i)) as [->|Hji]; [by apply Hsame |].
  intros ps p Hps Hin.
  assert (Htj : t !! photoIndex j = Some (VPhotos ps)).
  { rewrite <- Hps, Ht', lookup_delete_ne by (symmetry; apply photoIndex_photoData).
    symmetry. apply lookup_insert_ne. intros Heq. by apply photoIndex_inj in Heq. }
  rewrite Hkeep; [by apply (Hnd ps) |].
  intros Heq. by apply photoData_inj in Heq as [? _].
Qed.

Lemma twoStored_noDangling : noDangling "i" (table (remote twoStored)).
Proof.
  intros ps p Hps Hin. vm_compute in Hps. injection Hps as <-.
  apply elem_of_cons in Hin as [->|Hin]; [by exists photoA |].
  apply elem_of_cons in Hin as [->|Hin]; [by exists photoB |].
  by apply not_elem_of_nil in Hin.
Qed.

Lemma delete_photo_witness :
  deletePhoto healthy online photoA twoStored
  = (Fulfilled photoA, (deletePhoto healthy online photoA twoStored).2)
  /\ table (remote (deletePhoto healthy online photoA twoStored).2)
       !! photoData "i" "a" = None
  /\ noDangling "i" (table (remote (deletePhoto healthy online photoA twoStored).2)).
Proof.
  assert (Hdel : deletePhoto healthy online photoA twoStored
                 = (Fulfilled photoA, (deletePhoto healthy online photoA twoStored).2))
    by (vm_compute; reflexivity).
  destruct (delete_photo_leaves_no_dangling_entry _ _ _ _ _ _ Hdel)
    as (Hgone & _ & Hnd & _).
  split; [exact Hdel |]. split; [exact Hgone |].
  apply Hnd, twoStored_noDangling.
Defined.

End PhotoStoreFacts.

(** ** Facts about the optimistic mutations *)

Module MutationFacts.
Import KvStore QueryClient Mutations.

Section QueryFacts.
Context {A : Type}.
Implicit Types (qs : gmap string (Query A)) (key : string).

Lemma getQueryData_set_eq qs key updater :
  getQueryData (setQueryData qs key updater) key
  = match updater (getQueryData qs key) with
    | Some d => Some d
    | None => getQueryData qs key
    end.
Proof.
  unfold setQueryData. destruct (updater _) as [d|]; [| done].
  unfold getQueryData. by rewrite lookup_insert_eq.
Qed.

Lemma getQueryData_set_ne qs key key' updater :
  key <> key' ->
  getQueryData (setQueryData qs key updater) key' = getQueryData qs key'.
Proof.
  intros Hne. unfold setQueryData. destruct (updater _) as [d|]; [| done].
  unfold getQueryData. by rewrite lookup_insert_ne.
Qed.

Lemma getQueryData_cancelQuery qs key key' :
  getQueryData (cancelQuery qs key) key' = getQueryData qs key'.
Proof.
  unfold getQueryData, cancelQuery.
  destruct (decide (key = key')) as [->|Hne].
  - rewrite lookup_alter_eq. by destruct (qs !! key').
  - by rewrite lookup_alter_ne.
Qed.

Lemma getQueryData_cancelQueries qs key :
  getQueryData (cancelQueries qs) key = getQueryData qs key.
Proof.
  unfold getQueryData, cancelQueries. rewrite lookup_fmap.
  by destruct (qs !! key).
Qed.

(** A pass of [setQueryData] over a list of distinct keys: each key of
    the list gets the data that its updater computes from the data it
    had, every other key keeps its data. *)
Lemma foldl_setQueryData_notin {X} (g : string * X -> option A -> option A)
    (l : list (string * X)) qs key :
  key ∉ l.*1 ->
  getQueryData (foldl (fun qs kx => setQueryData qs kx.1 (g kx)) qs l) key
  = getQueryData qs key.
Proof.
  revert qs. induction l as [|[k x] l IH]; intros qs Hk; [done |].
  cbn [foldl fst]. rewrite fmap_cons in Hk. apply not_elem_of_cons in Hk as [Hne Hk].
  rewrite IH by done. apply getQueryData_set_ne. simpl in Hne. congruence.
Qed.

Lemma foldl_setQueryData_in {X} (g : string * X -> option A -> option A)
    (l : list (string * X)) qs key x :
  NoDup l.*1 -> (key, x) ∈ l ->
  getQueryData (foldl (fun qs kx => setQueryData qs kx.1 (g kx)) qs l) key
  = match g (key, x) (getQueryData qs key) with
    | Some d => Some d
    | None => getQueryData qs key
    end.
Proof.
  revert qs. induction l as [|[k y] l IH]; intros qs Hnd Hin.
  - by apply not_elem_of_nil in Hin.
  - rewrite fmap_cons in Hnd. apply NoDup_cons in Hnd as [Hk Hnd].
    cbn [foldl fst]. apply elem_of_cons in Hin as [[= <- <-]|Hin].
    + rewrite foldl_setQueryData_notin by done. apply getQueryData_set_eq.
    + assert (Hne : k <> key).
      { intros ->. apply Hk. apply list_elem_of_fmap. by exists (key, x). }
      rewrite IH by done. by rewrite getQueryData_set_ne.
Qed.

Lemma getQueriesData_keys qs : (getQueriesData qs).*1 = (map_to_list qs).*1.
Proof.
  unfold getQueriesData. rewrite <- list_fmap_compose. by apply list_fmap_ext.
Qed.

Lemma setQueriesData_data qs updater key :
  getQueryData (setQueriesData qs updater) key
  = match qs !! key with
    | Some q =>
        match updater (data q) with Some d => Some d | None => data q end
    | None => None
    end.
Proof.
  unfold setQueriesData.
  destruct (qs !! key) as [q|] eqn:Hq.
  - rewrite (foldl_setQueryData_in (fun _ => updater) _ _ key q);
      [| apply NoDup_fst_map_to_list | by apply elem_of_map_to_list].
    unfold getQueryData. by rewrite Hq.
  - rewrite foldl_setQueryData_notin.
    + unfold getQueryData. by rewrite Hq.
    + intros Hin. apply list_elem_of_fmap in Hin as ([k q] & -> & Hin).
      apply elem_of_map_to_list in Hin. simpl in Hq. congruence.
Qed.

End QueryFacts.

(** *** Where the rollback is exact *)

(** X1: a failed item update puts every [['inspection', id]] query back
    to the data it had when the mutation started (a query without data
    is without data again), and rejects with the error of the remote
    write. *)
Lemma updateItem_rollback_exact v e qc key :
  let r := mutateAsync updateItem_onMutate updateItem_onError
             updateItem_onSuccess v (Rejected e) qc in
  r.1 = Rejected e
  /\ getQueryData (inspections r.2) key = getQueryData (inspections qc) key.
Proof.
  cbn. split; [done |].
  set (qs := cancelQueries (inspections qc)).
  rewrite <- (getQueryData_cancelQueries (inspections qc)). fold qs.
  destruct (qs !! key) as [q|] eqn:Hq.
  - rewrite (foldl_setQueryData_in (fun kd _ => kd.2) _ _ key (data q)).
    + simpl. rewrite setQueriesData_data, Hq.
      unfold getQueryData. rewrite Hq. simpl.
      by destruct (data q) as [d|] eqn:Hd.
    + rewrite getQueriesData_keys. apply NoDup_fst_map_to_list.
    + unfold getQueriesData. apply list_elem_of_fmap. exists (key, q).
      split; [done | by apply elem_of_map_to_list].
  - rewrite foldl_setQueryData_notin.
    + rewrite setQueriesData_data, Hq. unfold getQueryData. by rewrite Hq.
    + rewrite getQueriesData_keys.
      intros Hin. apply list_elem_of_fmap in Hin as ([k q] & -> & Hin).
      apply elem_of_map_to_list in Hin. simpl in Hq. congruence.
Qed.

(** The item update stops the fetches of the inspection queries before
    it takes the snapshot, and the snapshot is the data before the
    transform. *)
Lemma updateItem_onMutate_snapshot v qc key q :
  inspections qc !! key = Some q ->
  (key, data q) ∈ (updateItem_onMutate v qc).1
  /\ cancelQueries (inspections qc) !! key = Some (mkQuery (data q) false).
Proof.
  intros Hq.
  assert (Hc : cancelQueries (inspections qc) !! key = Some (mkQuery (data q) false)).
  { unfold cancelQueries. by rewrite lookup_fmap, Hq. }
  split; [| done]. cbn. unfold getQueriesData.
  apply list_elem_of_fmap. exists (key, mkQuery (data q) false).
  split; [done | by apply elem_of_map_to_list].
Qed.

(** A failed photo mutation whose query had data when it started puts
    that data back. *)
Lemma photos_rollback_with_data i transform e qc previous :
  getQueryData (photos qc) i = Some previous ->
  let r := mutateAsync (fun _ : unit => photos_onMutate i transform)
             (fun _ => photos_onError i) (noSuccess (R := unit)) tt
             (Rejected e) qc in
  r.1 = Rejected e
  /\ getQueryData (photos r.2) i = Some previous
  /\ inspections r.2 = inspections qc.
Proof.
  intros Hprev. unfold mutateAsync, photos_onMutate, photos_onError.
  rewrite getQueryData_cancelQuery, Hprev. cbn [fst snd photos inspections].
  split; [done |]. split; [| done]. by rewrite getQueryData_set_eq.
Qed.

(** *** Where it is not *)

(** C2, evaluated where the code departs from it: when the
    [['inspection-photos', id]] query has no data at the start of the
    mutation (it was never fetched, or its first fetch is the one that
    the mutation cancels), the snapshot is [undefined], the transform
    stores a list all the same, and on the failure of the remote write
    [onError] skips the restore: after a failed upload the query holds
    the optimistic photo, after a failed delete or caption update it
    holds the empty list; the snapshot is not restored. The error itself
    reaches the caller. *)
Theorem failed_photo_mutation_without_data qc e (newPhoto photo : Photo)
    (v : CaptionVars) :
  getQueryData (photos qc) (inspection_id newPhoto) = None ->
  getQueryData (photos qc) (inspection_id photo) = None ->
  getQueryData (photos qc) (cv_inspection_id v) = None ->
  let up := mutateAsync upload_onMutate upload_onError upload_onSuccess
              newPhoto (Rejected e) qc in
  let del := mutateAsync delete_onMutate delete_onError (noSuccess (R := Photo))
               photo (Rejected e) qc in
  let cap := mutateAsync caption_onMutate caption_onError (noSuccess (R := Photo))
               v (Rejected e) qc in
  (up.1 = Rejected e
   /\ getQueryData (photos up.2) (inspection_id newPhoto) = Some [newPhoto])
  /\ (del.1 = Rejected e
      /\ getQueryData (photos del.2) (inspection_id photo) = Some [])
  /\ (cap.1 = Rejected e
      /\ getQueryData (photos cap.2) (cv_inspection_id v) = Some []).
Proof.
  intros Hup Hdel Hcap.
  unfold mutateAsync, upload_onMutate, delete_onMutate, caption_onMutate,
    upload_onError, delete_onError, caption_onError, photos_onMutate,
    photos_onError.
  rewrite !getQueryData_cancelQuery, Hup, Hdel, Hcap.
  cbn [fst snd photos inspections].
  rewrite !getQueryData_set_eq, !getQueryData_cancelQuery, Hup, Hdel, Hcap.
  done.
Qed.

Lemma failed_photo_mutation_witness :
  getQueryData (photos freshClient) "i" = None
  /\ (mutateAsync upload_onMutate upload_onError upload_onSuccess
        (mkPhoto "tmp" "i" "data:A" None 0) (Rejected (ApiError "/kv/set"))
        freshClient).1
     = Rejected (ApiError "/kv/set")
  /\ getQueryData
       (photos (mutateAsync upload_onMutate upload_onError upload_onSuccess
                  (mkPhoto "tmp" "i" "data:A" None 0)
                  (Rejected (ApiError "/kv/set")) freshClient).2) "i"
     = Some [mkPhoto "tmp" "i" "data:A" None 0].
Proof.
  split; [reflexivity |].
  destruct (failed_photo_mutation_without_data freshClient (ApiError "/kv/set")
              (mkPhoto "tmp" "i" "data:A" None 0)
              (mkPhoto "tmp" "i" "data:A" None 0)
              (mkCaptionVars "tmp" "c" "i") eq_refl eq_refl eq_refl)
    as [[H1 H2] _].
  split; [exact H1 | exact H2].
Defined.

End MutationFacts.

(** ** Facts about the debounce *)

Module DebounceFacts.
Import Debounce.

Lemma enqueue_perm tm queue : enqueue tm queue ≡ₚ tm :: queue.
Proof.
  induction queue as [|x rest IH]; simpl; [done |].
  destruct (deadline tm <? deadline x); [done |].
  rewrite IH. apply Permutation_swap.
Qed.

Lemma filter_enqueue_other (P : Timer -> Prop) `{!forall x, Decision (P x)} tm queue :
  ~ P tm -> filter P (enqueue tm queue) = filter P queue.
Proof.
  intros Hn. induction queue as [|x rest IH]; simpl.
  - by rewrite filter_cons_False.
  - destruct (deadline tm <? deadline x).
    + by rewrite (filter_cons_False _ tm).
    + rewrite !filter_cons. by rewrite IH.
Qed.

Lemma filter_enqueue_only (P : Timer -> Prop) `{!forall x, Decision (P x)} tm queue :
  P tm -> filter P queue = [] -> filter P (enqueue tm queue) = [tm].
Proof.
  intros Hp. induction queue as [|x rest IH]; simpl; intros Hnil.
  - by rewrite filter_cons_True.
  - rewrite filter_cons in Hnil. destruct (decide (P x)) as [|Hx]; [done |].
    destruct (deadline tm <? deadline x).
    + rewrite filter_cons_True, filter_cons_False by done. by rewrite Hnil.
    + rewrite filter_cons_False by done. by apply IH.
Qed.

Lemma filter_filter_comm {A} (P Q : A -> Prop)
    `{!forall x, Decision (P x)} `{!forall x, Decision (Q x)} (l : list A) :
  filter P (filter Q l) = filter Q (filter P l).
Proof.
  induction l as [|x l IH]; [done |].
  rewrite !filter_cons.
  destruct (decide (Q x)), (decide (P x));
    rewrite ?filter_cons_True, ?filter_cons_False by done; by rewrite ?IH.
Qed.

(** *** The timers that run *)

Lemma foldl_fire_timers p l : timers (foldl fire p l) = timers p.
Proof. revert p. induction l as [|x l IH]; intros p; simpl; [done | by rewrite IH]. Qed.

Lemma foldl_fire_nextHandle p l : nextHandle (foldl fire p l) = nextHandle p.
Proof. revert p. induction l as [|x l IH]; intros p; simpl; [done | by rewrite IH]. Qed.

Lemma writesFor_fire K p tm :
  writesFor K (fire p tm)
  = if decide (timerKey tm = K) then toWrite tm :: writesFor K p
    else writesFor K p.
Proof.
  unfold writesFor. cbn [fire writes]. rewrite filter_cons.
  change (writeKey (mkWrite (itemId tm) (field tm) (value tm))) with (timerKey tm).
  by destruct (decide (timerKey tm = K)).
Qed.

Lemma foldl_fire_writesFor K p l :
  writesFor K (foldl fire p l)
  = reverse (toWrite <$> filter (fun tm => timerKey tm = K) l) ++ writesFor K p.
Proof.
  revert p. induction l as [|x l IH]; intros p; [done |].
  cbn [foldl]. rewrite IH, writesFor_fire, filter_cons.
  destruct (decide (timerKey x = K)); [| done].
  rewrite fmap_cons, reverse_cons, <- app_assoc. done.
Qed.

Lemma foldl_fire_registry p l key :
  debounceTimers (foldl fire p l) !! key
  = if decide (key ∈ timerKey <$> l) then None else debounceTimers p !! key.
Proof.
  revert p. induction l as [|x l IH]; intros p.
  - done.
  - cbn [foldl]. rewrite IH, fmap_cons. cbn [fire debounceTimers].
    destruct (decide (key ∈ timerKey <$> l)) as [Hin|Hnin].
    + by rewrite decide_True by (by right).
    + destruct (decide (key = timerKey x)) as [->|Hne].
      * rewrite decide_True by left. apply lookup_delete_eq.
      * rewrite decide_False by (by intros [?|?]%elem_of_cons).
        by apply lookup_delete_ne.
Qed.

Lemma advance_timers now p :
  timers (advance now p) = filter (fun tm => now < deadline tm) (timers p).
Proof. unfold advance. by rewrite foldl_fire_timers. Qed.

Lemma advance_nextHandle now p : nextHandle (advance now p) = nextHandle p.
Proof. unfold advance. by rewrite foldl_fire_nextHandle. Qed.

Lemma advance_pendingFor K now p :
  pendingFor K (advance now p)
  = filter (fun tm => now < deadline tm) (pendingFor K p).
Proof.
  unfold pendingFor. rewrite advance_timers. apply filter_filter_comm.
Qed.

Lemma advance_writesFor K now p :
  writesFor K (advance now p)
  = reverse (toWrite <$> filter (fun tm => deadline tm <= now) (pendingFor K p))
    ++ writesFor K p.
Proof.
  unfold advance. rewrite foldl_fire_writesFor. unfold pendingFor.
  by rewrite filter_filter_comm.
Qed.

(** *** The invariant *)

Lemma same_handle (l : list Timer) tm tm' :
  NoDup (handle <$> l) -> tm ∈ l -> tm' ∈ l -> handle tm = handle tm' -> tm = tm'.
Proof.
  induction l as [|x l IH]; [by intros _ ?%not_elem_of_nil |].
  rewrite fmap_cons. intros [Hx Hnd]%NoDup_cons Hin Hin' Heq.
  apply elem_of_cons in Hin as [->|Hin]; apply elem_of_cons in Hin' as [->|Hin'].
  - done.
  - exfalso. apply Hx. rewrite Heq. by apply list_elem_of_fmap_2.
  - exfalso. apply Hx. rewrite <- Heq. by apply list_elem_of_fmap_2.
  - by apply IH.
Qed.

Lemma NoDup_fmap_filter {A B} (f : A -> B) (P : A -> Prop)
    `{!forall x, Decision (P x)} (l : list A) :
  NoDup (f <$> l) -> NoDup (f <$> filter P l).
Proof.
  induction l as [|x l IH]; [done |].
  rewrite fmap_cons, filter_cons. intros [Hx Hnd]%NoDup_cons.
  destruct (decide (P x)); [| by apply IH].
  rewrite fmap_cons. apply NoDup_cons. split; [| by apply IH].
  intros Hin. apply Hx. apply list_elem_of_fmap in Hin as (y & -> & Hy).
  apply list_elem_of_filter in Hy as [_ Hy]. by apply list_elem_of_fmap_2.
Qed.

Lemma initialPage_Inv : Inv initialPage.
Proof.
  split; simpl.
  - apply NoDup_nil_2.
  - by intros tm ?%not_elem_of_nil.
  - by intros tm ?%not_elem_of_nil.
  - intros key h. by rewrite lookup_empty.
Qed.

Lemma advance_Inv now p : Inv p -> Inv (advance now p).
Proof.
  intros [Hnd Hfresh Hreg Hlive].
  assert (Hsplit : forall tm tm', tm ∈ timers p -> tm' ∈ timers p ->
            now < deadline tm -> deadline tm' <= now -> timerKey tm' <> timerKey tm).
  { intros tm tm' Hin Hin' Hw Hd Hkey.
    assert (tm = tm') as ->; [| lia].
    apply (same_handle (timers p)); try done.
    pose proof (Hreg tm Hin) as H1. pose proof (Hreg tm' Hin') as H2.
    rewrite Hkey in H2. congruence. }
  split.
  - rewrite advance_timers. by apply NoDup_fmap_filter.
  - intros tm. rewrite advance_timers, advance_nextHandle.
    intros [_ Hin]%list_elem_of_filter. by apply Hfresh.
  - intros tm. rewrite advance_timers. intros [Hw Hin]%list_elem_of_filter.
    unfold advance. rewrite foldl_fire_registry. cbn [debounceTimers].
    rewrite decide_False; [by apply Hreg |].
    intros Hk. apply list_elem_of_fmap in Hk as (tm' & Hkey & Hin').
    apply list_elem_of_filter in Hin' as [Hd Hin'].
    by apply (Hsplit tm tm').
  - intros key h. unfold advance at 1. rewrite foldl_fire_registry.
    cbn [debounceTimers]. case_decide as Hk; [done |]. intros Hlook.
    destruct (Hlive key h Hlook) as (tm & Hin & Hh & Hkey).
    exists tm. split; [| done]. rewrite advance_timers.
    apply list_elem_of_filter. split; [| done].
    destruct (decide (now < deadline tm)) as [|Hd]; [done |]. exfalso.
    apply Hk. rewrite <- Hkey. apply list_elem_of_fmap_2.
    apply list_elem_of_filter. split; [lia | done].
Qed.

Lemma handleTextUpdate_Inv now i f v p :
  Inv p -> Inv (handleTextUpdate now i f v p).
Proof.
  intros [Hnd Hfresh Hreg Hlive]. unfold handleTextUpdate.
  set (key := fieldKey i f).
  set (p1 := match debounceTimers p !! key with
             | Some h => clearTimeout h p
             | None => p
             end).
  assert (Hp1 : nextHandle p1 = nextHandle p /\ debounceTimers p1 = debounceTimers p
                /\ writes p1 = writes p
                /\ (forall tm, tm ∈ timers p1 <->
                       tm ∈ timers p /\ debounceTimers p !! key <> Some (handle tm))
                /\ NoDup (handle <$> timers p1)).
  { subst p1. destruct (debounceTimers p !! key) as [h|] eqn:Hk.
    - do 3 (split; [done |]). split; [intros tm; split |].
      + intros [Hne Hin]%list_elem_of_filter. split; [done | congruence].
      + intros [Hin Hne]. apply list_elem_of_filter. split; [congruence | done].
      + by apply NoDup_fmap_filter.
    - do 3 (split; [done |]). split; [intros tm; split |]; [| by intros [] |]; done. }
  destruct Hp1 as (Hnext & Hregy & _ & Hmem & Hnd1).
  set (new := mkTimer (nextHandle p1) (now + 500) i f v).
  assert (Hnotkey : forall tm, tm ∈ timers p1 -> timerKey tm <> key).
  { intros tm [Hin Hne]%Hmem Hkey. apply Hne. rewrite <- Hkey. by apply Hreg. }
  split; cbn [timers nextHandle debounceTimers].
  - rewrite (enqueue_perm new), fmap_cons. apply NoDup_cons. split; [| done].
    intros Hin. apply list_elem_of_fmap in Hin as (tm & Hh & Hin).
    apply Hmem in Hin as [Hin _]. apply Hfresh in Hin. simpl in Hh. lia.
  - intros tm. rewrite (enqueue_perm new). intros [->|Hin]%elem_of_cons.
    + simpl. lia.
    + apply Hmem in Hin as [Hin _]. apply Hfresh in Hin. lia.
  - intros tm. rewrite (enqueue_perm new). intros [->|Hin]%elem_of_cons.
    + apply lookup_insert_eq.
    + rewrite lookup_insert_ne by (symmetry; by apply Hnotkey).
      rewrite Hregy. apply Hreg. by apply Hmem in Hin as [Hin _].
  - intros key' h. destruct (decide (key = key')) as [<-|Hne].
    + rewrite lookup_insert_eq. intros [= <-]. exists new.
      split; [rewrite (enqueue_perm new); left | done].
    + rewrite lookup_insert_ne, Hregy by done. intros Hlook.
      destruct (Hlive key' h Hlook) as (tm & Hin & Hh & Hkey).
      exists tm. split; [| done]. rewrite (enqueue_perm new). right.
      apply Hmem. split; [done |]. intros Hk.
      destruct (Hlive key (handle tm) Hk) as (tm0 & Hin0 & Hh0 & Hkey0).
      assert (tm0 = tm) by (by apply (same_handle (timers p))). congruence.
Qed.

Lemma step_Inv p ev : Inv p -> Inv (step p ev).
Proof. intros H. by apply handleTextUpdate_Inv, advance_Inv. Qed.

(** *** One field key *)

Lemma filter_none {A} (P : A -> Prop) `{!forall x, Decision (P x)} (l : list A) :
  (forall x, x ∈ l -> ~ P x) -> filter P l = [].
Proof.
  induction l as [|x l IH]; intros Hall; [done |].
  rewrite filter_cons_False by (apply Hall; left). apply IH.
  intros y Hy. apply Hall. by right.
Qed.

Lemma filter_filter_implied {A} (P Q : A -> Prop)
    `{!forall x, Decision (P x)} `{!forall x, Decision (Q x)} (l : list A) :
  (forall x, x ∈ l -> P x -> Q x) -> filter P (filter Q l) = filter P l.
Proof.
  induction l as [|x l IH]; intros Hall; [done |].
  assert (IH' : filter P (filter Q l) = filter P l).
  { apply IH. intros y Hy. apply Hall. by right. }
  rewrite (filter_cons Q). destruct (decide (Q x)) as [Hq|Hq].
  - rewrite !filter_cons. by rewrite IH'.
  - rewrite IH'. rewrite (filter_cons_False P); [done |].
    intros Hp. apply Hq, Hall; [left | done].
Qed.

Lemma handleTextUpdate_writes now i f v p :
  writes (handleTextUpdate now i f v p) = writes p.
Proof.
  unfold handleTextUpdate. cbn [writes].
  by destruct (debounceTimers p !! fieldKey i f).
Qed.

(** An edit leaves exactly its own timer waiting under its key, and
    leaves the timers of every other key as they were. *)
Lemma handleTextUpdate_pendingFor K now i f v p :
  Inv p ->
  pendingFor K (handleTextUpdate now i f v p)
  = if decide (fieldKey i f = K)
    then [mkTimer (nextHandle p) (now + 500) i f v]
    else pendingFor K p.
Proof.
  intros [Hnd Hfresh Hreg Hlive]. unfold handleTextUpdate, pendingFor.
  set (key := fieldKey i f). cbn [timers].
  assert (Hnext : nextHandle
                    match debounceTimers p !! key with
                    | Some h => clearTimeout h p
                    | None => p
                    end = nextHandle p)
    by (by destruct (debounceTimers p !! key)).
  rewrite Hnext. clear Hnext.
  destruct (decide (key = K)) as [HK|HK].
  - apply filter_enqueue_only; [exact HK |]. apply filter_none.
    intros tm Hin Hkey. rewrite <- HK in Hkey.
    destruct (debounceTimers p !! key) as [h|] eqn:Hk.
    + apply list_elem_of_filter in Hin as [Hne Hin].
      pose proof (Hreg tm Hin) as Hr. rewrite Hkey, Hk in Hr. congruence.
    + pose proof (Hreg tm Hin) as Hr. rewrite Hkey, Hk in Hr. congruence.
  - rewrite filter_enqueue_other by exact HK.
    destruct (debounceTimers p !! key) as [h|] eqn:Hk; [| done].
    cbn [clearTimeout timers]. apply filter_filter_implied.
    intros tm Hin Hkey Hh.
    destruct (Hlive key h Hk) as (tm0 & Hin0 & Hh0 & Hkey0).
    assert (tm0 = tm) by (apply (same_handle (timers p)); congruence).
    congruence.
Qed.

Lemma step_KState K last p ev :
  Inv p -> KState K last p ->
  match last with Some l => time ev < time l + 500 | None => True end ->
  KState K (if decide (editKey ev = K) then Some ev else last) (step p ev).
Proof.
  intros Hinv [Hw Hpend] Hwin. unfold step.
  assert (Hadv : writesFor K (advance (time ev) p) = []
                 /\ pendingFor K (advance (time ev) p) = pendingFor K p).
  { rewrite advance_writesFor, advance_pendingFor, Hw.
    destruct last as [l|].
    - destruct Hpend as [h ->].
      rewrite filter_cons_False, filter_cons_True by (simpl; lia). done.
    - by rewrite Hpend. }
  destruct Hadv as [Hw' Hpend'].
  split.
  - unfold writesFor. rewrite handleTextUpdate_writes. exact Hw'.
  - rewrite handleTextUpdate_pendingFor by (by apply advance_Inv).
    fold (editKey ev). rewrite Hpend'.
    destruct (decide (editKey ev = K)); [by eexists | exact Hpend].
Qed.

Lemma run_KState K evs : forall p prev last,
  Inv p -> KState K last p -> burst K prev last evs ->
  Inv (run evs p) /\ KState K (latest K last evs) (run evs p).
Proof.
  induction evs as [|ev evs IH]; intros p prev last Hinv Hk Hb; [done |].
  destruct Hb as (_ & Hwin & Hb). unfold run, latest. cbn [foldl].
  apply (IH _ (time ev)); [by apply step_Inv | by apply step_KState | exact Hb].
Qed.

Lemma initialPage_KState K : KState K None initialPage.
Proof. by split. Qed.

(** The first burst on a field key [K] (edits in the order of time, each
    less than 500 ms after the latest edit of [K], edits of other keys
    mixed in at will), started on the page just loaded: nothing is
    written for [K] during the burst; one timer waits for [K], that of
    the latest edit of [K] (the earlier ones were cancelled, not
    stacked); once the clock is 500 ms past that edit, exactly one write
    has been issued for [K], with the value of that edit, and no timer
    of [K] is left. An edit of another key leaves the timers and the
    writes of [K] as they are. *)
Theorem debounce_one_write_per_burst K evs t0 ev T :
  burst K t0 None evs ->
  latest K None evs = Some ev ->
  time ev + 500 <= T ->
  let p := run evs initialPage in
  writesFor K p = []
  /\ (exists h, pendingFor K p
                = [mkTimer h (time ev + 500) (e_itemId ev) (e_field ev)
                     (e_value ev)])
  /\ writesFor K (advance T p)
     = [mkWrite (e_itemId ev) (e_field ev) (e_value ev)]
  /\ pendingFor K (advance T p) = []
  /\ (forall q now i f v, Inv q -> fieldKey i f <> K ->
        pendingFor K (handleTextUpdate now i f v q) = pendingFor K q
        /\ writesFor K (handleTextUpdate now i f v q) = writesFor K q).
Proof.
  intros Hb Hlast HT p.
  destruct (run_KState K evs initialPage t0 None initialPage_Inv
              (initialPage_KState K) Hb) as [Hinv [Hw Hpend]].
  fold p in Hinv, Hw, Hpend. rewrite Hlast in Hpend. destruct Hpend as [h Hpend].
  split; [exact Hw |]. split; [by exists h |].
  split; [| split].
  - rewrite advance_writesFor, Hw, Hpend.
    rewrite filter_cons_True by (simpl; lia). done.
  - rewrite advance_pendingFor, Hpend.
    rewrite filter_cons_False by (simpl; lia). done.
  - intros q now i f v Hq Hne. split.
    + rewrite handleTextUpdate_pendingFor by done. by rewrite decide_False.
    + unfold writesFor. by rewrite handleTextUpdate_writes.
Qed.

Lemma debounce_witness :
  burst (fieldKey "item1" Notes) 0 None demoEdits
  /\ latest (fieldKey "item1" Notes) None demoEdits
     = Some (mkEdit 100 "item1" Notes "ab")
  /\ 100 + 500 <= 600
  /\ writesFor (fieldKey "item1" Notes) (advance 600 (run demoEdits initialPage))
     = [mkWrite "item1" Notes "ab"].
Proof.
  assert (Hb : burst (fieldKey "item1" Notes) 0 None demoEdits).
  { vm_compute. repeat split; discriminate. }
  assert (Hl : latest (fieldKey "item1" Notes) None demoEdits
               = Some (mkEdit 100 "item1" Notes "ab")) by (vm_compute; reflexivity).
  assert (HT : time (mkEdit 100 "item1" Notes "ab") + 500 <= 600) by (simpl; lia).
  destruct (debounce_one_write_per_burst _ _ _ _ _ Hb Hl HT) as (_ & _ & Hw & _).
  split; [exact Hb |]. split; [exact Hl |]. split; [lia | exact Hw].
Defined.

(** *** The field key names the item and the field *)

#[local] Arguments String.append !_ _ / : simpl nomatch.

Lemma length_append s t :
  String.length (s +:+ t) = (String.length s + String.length t)%nat.
Proof. induction s as [|c s IH]; simpl; [done | by rewrite IH]. Qed.

Lemma append_eq_len a a' t t' :
  String.length a = String.length a' -> a +:+ t = a' +:+ t' -> a = a' /\ t = t'.
Proof.
  revert a'. induction a as [|c a IH]; intros [|c' a']; simpl; try done.
  intros [= Hlen] [= -> Heq]. destruct (IH a' Hlen Heq) as [-> ->]. done.
Qed.

Lemma append_assoc a b c : (a +:+ b) +:+ c = a +:+ (b +:+ c).
Proof. induction a as [|x a IH]; simpl; [done | by rewrite IH]. Qed.

Lemma fieldKey_inj i f i' f' : fieldKey i f = fieldKey i' f' -> i = i' /\ f = f'.
Proof.
  unfold fieldKey. intros Heq.
  pose proof (f_equal String.length Heq) as Hlen. rewrite !length_append in Hlen.
  destruct f, f'; simpl in Hlen.
  - apply append_eq_len in Heq as [-> _]; [done | lia].
  - exfalso. change ("-" +:+ fieldName AnswerText)
      with ("-answe" +:+ "r_text") in Heq.
    rewrite <- append_assoc in Heq.
    apply append_eq_len in Heq as [_ Heq]; [done |].
    rewrite length_append. simpl. lia.
  - exfalso. symmetry in Heq. change ("-" +:+ fieldName AnswerText)
      with ("-answe" +:+ "r_text") in Heq.
    rewrite <- append_assoc in Heq.
    apply append_eq_len in Heq as [_ Heq]; [done |].
    rewrite length_append. simpl. lia.
  - apply append_eq_len in Heq as [-> _]; [done | lia].
Qed.

End DebounceFacts.

(** ** More facts about the cache: the other operations *)

Module CacheOperations.
Import PhotoCache PhotoCacheFacts.

#[local] Arguments String.append !_ _ / : simpl nomatch.

(** X2: from the empty cache and for calls made one after the other
    (each has settled before the next starts; calls started together
    are not covered, see [Overlap]), as long as no payload larger than
    the budget is written, the total of the sizes is within the budget
    after every call of every operation, whatever the medium does
    during the calls (requests that error, a database that does not
    open). *)
Theorem cache_within_budget_after_every_call calls n :
  Forall withinCapacity calls ->
  (totalSize (run (take n calls) ∅) <= maxSizeBytes)%N.
Proof.
  intros Hall. apply run_within_capacity.
  - by apply Forall_take.
  - rewrite totalSize_empty. apply N.le_0_l.
Qed.

Lemma cache_within_budget_witness :
  Forall withinCapacity
    [mkCall healthy 1 (OpSet "i" "a" payload40);
     mkCall healthy 2 (OpSet "i" "b" payload30);
     mkCall healthy 3 (OpSet "i" "c" payload35);
     mkCall requestsFail 4 (OpGet "i" "b");
     mkCall healthy 5 (OpDeleteInspection "i")]
  /\ (maxSizeBytes < totalSize twoPhotos + blobSize payload35)%N
  /\ (totalSize
        (run (take 3 [mkCall healthy 1 (OpSet "i" "a" payload40);
                      mkCall healthy 2 (OpSet "i" "b" payload30);
                      mkCall healthy 3 (OpSet "i" "c" payload35);
                      mkCall requestsFail 4 (OpGet "i" "b");
                      mkCall healthy 5 (OpDeleteInspection "i")]) ∅)
      <= maxSizeBytes)%N.
Proof.
  assert (H40 : withinCapacity (mkCall healthy 1 (OpSet "i" "a" payload40))).
  { unfold withinCapacity. cbn [callOp]. unfold payload40.
    rewrite blobSize_filler. vm_compute. discriminate. }
  assert (H30 : withinCapacity (mkCall healthy 2 (OpSet "i" "b" payload30))).
  { unfold withinCapacity. cbn [callOp]. unfold payload30.
    rewrite blobSize_filler. vm_compute. discriminate. }
  assert (H35 : withinCapacity (mkCall healthy 3 (OpSet "i" "c" payload35))).
  { unfold withinCapacity. cbn [callOp]. unfold payload35.
    rewrite blobSize_filler. vm_compute. discriminate. }
  assert (H : Forall withinCapacity
                [mkCall healthy 1 (OpSet "i" "a" payload40);
                 mkCall healthy 2 (OpSet "i" "b" payload30);
                 mkCall healthy 3 (OpSet "i" "c" payload35);
                 mkCall requestsFail 4 (OpGet "i" "b");
                 mkCall healthy 5 (OpDeleteInspection "i")]).
  { constructor; [exact H40 |]. constructor; [exact H30 |].
    constructor; [exact H35 |]. constructor; [exact I |].
    constructor; [exact I | constructor]. }
  assert (Hfire : (maxSizeBytes < totalSize twoPhotos + blobSize payload35)%N).
  { destruct (two_sets_state payload40 payload30
                (blobSize_filler _) (blobSize_filler _)) as (_ & _ & Htot).
    fold twoPhotos in Htot. unfold payload35.
    rewrite Htot, blobSize_filler. vm_compute. reflexivity. }
  exact (conj H (conj Hfire (cache_within_budget_after_every_call _ 3 H))).
Defined.

(** X3: on a healthy medium [delete] removes the record of its key and
    no other: the total drops by the size of that record, every other
    key keeps its record, and a key that is not stored is deleted
    without an error and without a change. *)
Theorem delete_removes_its_key_only m i p (st : Store) :
  Healthy m ->
  (delete m i p st).1 = Fulfilled tt
  /\ (delete m i p st).2 !! cacheKey i p = None
  /\ (forall k, k <> cacheKey i p -> (delete m i p st).2 !! k = st !! k)
  /\ (forall e, st !! cacheKey i p = Some e ->
        (totalSize (delete m i p st).2 + sizeBytes e)%N = totalSize st)
  /\ (st !! cacheKey i p = None -> (delete m i p st).2 = st).
Proof.
  intros [Hopen Hfail]. unfold delete. unfold_async.
  rewrite Hopen, Hfail. cbn [fst snd].
  split; [done |]. split; [apply lookup_delete_eq |].
  split; [intros k Hk; by apply lookup_delete_ne |].
  split; [intros e He; symmetry; by apply totalSize_delete |].
  intros Hnone. by apply delete_id.
Qed.

Lemma delete_removes_its_key_witness :
  Healthy healthy
  /\ (delete healthy "i" "zzz" (set healthy 1 "i" "a" "data:A" ∅).2).2
     = (set healthy 1 "i" "a" "data:A" ∅).2
  /\ (delete healthy "i" "a" (set healthy 1 "i" "a" "data:A" ∅).2).2
       !! cacheKey "i" "a" = None.
Proof.
  split; [apply healthy_Healthy |].
  destruct (delete_removes_its_key_only healthy "i" "zzz"
              (set healthy 1 "i" "a" "data:A" ∅).2 healthy_Healthy)
    as (_ & _ & _ & _ & Hsame).
  destruct (delete_removes_its_key_only healthy "i" "a"
              (set healthy 1 "i" "a" "data:A" ∅).2 healthy_Healthy)
    as (_ & Hgone & _).
  split; [apply Hsame; vm_compute; reflexivity | exact Hgone].
Defined.

(** *** Keys and prefixes *)

#[local] Arguments Ascii.ascii_dec : simpl never.

Lemma prefix_append s t : String.prefix s (s +:+ t) = true.
Proof.
  induction s as [|c s IH]; simpl; [by destruct t |].
  by destruct (Ascii.ascii_dec c c).
Qed.

Lemma prefix_append_append s t u :
  String.prefix (s +:+ t) (s +:+ t +:+ u) = true.
Proof.
  induction s as [|c s IH]; simpl; [apply prefix_append |].
  by destruct (Ascii.ascii_dec c c).
Qed.

Lemma prefix_colon i j p :
  PhotoStore.hasColon i = false -> PhotoStore.hasColon j = false ->
  String.prefix (i +:+ ":") (j +:+ ":" +:+ p) = true -> i = j.
Proof.
  revert j. induction i as [|c i IH]; intros [|c' j]; simpl.
  - done.
  - intros _ Hc. destruct (Ascii.ascii_dec ":" c') as [<-|]; intros Hp.
    + by rewrite Ascii.eqb_refl in Hc.
    + done.
  - intros Hc _. destruct (Ascii.ascii_dec c ":") as [->|]; intros Hp.
    + by rewrite Ascii.eqb_refl in Hc.
    + done.
  - destruct (Ascii.eqb c ":") eqn:?; [done |].
    destruct (Ascii.eqb c' ":") eqn:?; [done |].
    intros Hi Hj. destruct (Ascii.ascii_dec c c') as [->|]; [| done].
    intros Hp. by rewrite (IH j Hi Hj Hp).
Qed.

(** X4: the keys of the cache do not collide as long as the inspection
    identifiers contain no colon (UUIDs contain none): the key fixes
    both identifiers. With a colon in an inspection identifier two
    different photos share a key. *)
Theorem cacheKey_injective_without_colon :
  (forall i p i' p',
     PhotoStore.hasColon i = false -> PhotoStore.hasColon i' = false ->
     cacheKey i p = cacheKey i' p' -> i = i' /\ p = p')
  /\ cacheKey "a" "b:c" = cacheKey "a:b" "c".
Proof.
  split; [| reflexivity].
  intros i p i' p' Hi Hi' Hk. by apply PhotoStoreFacts.colon_split.
Qed.

(** X5: on a healthy medium [deleteInspection] fulfils, leaves no
    record of the inspection, never increases the total, and, when the
    inspection identifiers contain no colon, keeps every record of every
    other inspection. *)
Theorem deleteInspection_removes_exactly_its_photos m i (st : Store) :
  Healthy m ->
  (deleteInspection m i st).1 = Fulfilled tt
  /\ (forall p, (deleteInspection m i st).2 !! cacheKey i p = None)
  /\ (forall j p, PhotoStore.hasColon i = false ->
        PhotoStore.hasColon j = false -> j <> i ->
        (deleteInspection m i st).2 !! cacheKey j p = st !! cacheKey j p)
  /\ (totalSize (deleteInspection m i st).2 <= totalSize st)%N.
Proof.
  intros [Hopen Hfail]. unfold deleteInspection. unfold_async.
  rewrite Hopen, Hfail. cbn [fst snd].
  split; [done |]. split; [| split].
  - intros p. apply map_lookup_filter_None. right. intros e _.
    cbn [fst]. unfold cacheKey. by rewrite prefix_append_append.
  - intros j p Hi Hj Hne.
    destruct (st !! cacheKey j p) as [e|] eqn:He.
    + apply map_lookup_filter_Some. split; [done |]. cbn [fst].
      destruct (String.prefix _ _) eqn:Hp; [| done].
      apply prefix_colon in Hp; [| done..]. by subst.
    + apply map_lookup_filter_None. by left.
  - apply totalSize_mono, map_filter_subseteq.
Qed.

Lemma deleteInspection_witness :
  Healthy healthy
  /\ (deleteInspection healthy "i"
        (set healthy 2 "j" "a" "data:B"
           (set healthy 1 "i" "a" "data:A" ∅).2).2).2 !! cacheKey "i" "a"
     = None.
Proof.
  split; [apply healthy_Healthy |].
  exact (proj1 (proj2 (deleteInspection_removes_exactly_its_photos healthy "i"
     (set healthy 2 "j" "a" "data:B" (set healthy 1 "i" "a" "data:A" ∅).2).2
     healthy_Healthy)) "a").
Defined.

(** X6: whatever the medium does, a [get] changes the store at most by
    removing the record of its own key, and only when that record has
    expired: every record of another key, and every record that has not
    expired, is still there after the call. *)
Theorem get_removes_only_its_expired_record m now i p (st : Store) k e :
  st !! k = Some e ->
  k <> cacheKey i p \/ expired now e = false ->
  (get m now i p st).2 !! k = Some e.
Proof.
  intros Hk Hor. unfold get, delete. unfold_async.
  destruct (dbOpens m); cbn [fst snd]; [| done].
  destruct (fails m (ReqGet _)); cbn [fst snd]; [done |].
  destruct (st !! cacheKey i p) as [c|] eqn:Hc; cbn [fst snd]; [| done].
  destruct (expired now c) eqn:Hexp; cbn [fst snd]; [| done].
  destruct (fails m (ReqDelete _)); cbn [fst snd]; [done |].
  destruct (decide (k = cacheKey i p)) as [->|Hne].
  - destruct Hor as [|Hfresh]; [done |]. congruence.
  - by rewrite lookup_delete_ne.
Qed.

Lemma get_removes_only_witness :
  (set healthy 2 "i" "b" "data:B"
     (set healthy 1 "i" "a" "data:A" ∅).2).2 !! cacheKey "i" "b"
  = Some (mkCached (cacheKey "i" "b") "data:B" 2 6)
  /\ (get healthy 604800002 "i" "a"
        (set healthy 2 "i" "b" "data:B"
           (set healthy 1 "i" "a" "data:A" ∅).2).2).2 !! cacheKey "i" "b"
     = Some (mkCached (cacheKey "i" "b") "data:B" 2 6).
Proof.
  assert (H : (set healthy 2 "i" "b" "data:B"
                 (set healthy 1 "i" "a" "data:A" ∅).2).2 !! cacheKey "i" "b"
              = Some (mkCached (cacheKey "i" "b") "data:B" 2 6))
    by (vm_compute; reflexivity).
  split; [exact H |].
  apply (get_removes_only_its_expired_record healthy 604800002 "i" "a" _ _ _ H).
  left. vm_compute. discriminate.
Defined.

(** *** [batchGet] *)

Lemma batchGetOne_sound m now i (st : Store) ids acc p d :
  foldl (batchGetOne m now i st) acc ids !! p = Some d ->
  acc !! p = Some d
  \/ (p ∈ ids /\ fails m (ReqGet (cacheKey i p)) = false
      /\ exists c, st !! cacheKey i p = Some c /\ dataUrl c = d
                   /\ expired now c = false).
Proof.
  revert acc. induction ids as [|x ids IH]; intros acc; simpl; [by left |].
  intros H. destruct (IH _ H) as [Hacc | (Hin & Hrest)].
  - unfold batchGetOne in Hacc.
    destruct (fails m (ReqGet (cacheKey i x))) eqn:Hf; [by left |].
    destruct (st !! cacheKey i x) as [c|] eqn:Hc; [| by left].
    destruct (expired now c) eqn:He; [by left |].
    destruct (decide (p = x)) as [->|Hne].
    + rewrite lookup_insert_eq in Hacc. injection Hacc as <-.
      right. split; [left |]. split; [done |]. by exists c.
    + rewrite lookup_insert_ne in Hacc by done. by left.
  - right. split; [by right | done].
Qed.

Lemma batchGetOne_complete m now i (st : Store) ids acc p c :
  p ∈ ids -> fails m (ReqGet (cacheKey i p)) = false ->
  st !! cacheKey i p = Some c -> expired now c = false ->
  foldl (batchGetOne m now i st) acc ids !! p = Some (dataUrl c).
Proof.
  intros Hin Hf Hc He. revert acc.
  induction ids as [|x ids IH]; intros acc; [by apply elem_of_nil in Hin |].
  simpl. destruct (decide (p ∈ ids)) as [Hp|Hp]; [by apply IH |].
  apply elem_of_cons in Hin as [->|]; [| done].
  assert (Hone : batchGetOne m now i st acc x !! x = Some (dataUrl c)).
  { unfold batchGetOne. rewrite Hf, Hc, He. apply lookup_insert_eq. }
  clear IH. revert Hone. generalize (batchGetOne m now i st acc x).
  induction ids as [|y ids IH]; intros acc' Hone; [done |].
  simpl. apply IH.
  - intros Hx. apply Hp. by right.
  - apply not_elem_of_cons in Hp as [Hxy _]. unfold batchGetOne.
    destruct (fails m (ReqGet (cacheKey i y))); [done |].
    destruct (st !! cacheKey i y) as [cy|]; [| done].
    destruct (expired now cy); [done |]. by rewrite lookup_insert_ne.
Qed.


(** X8: on a healthy medium [batchGet] answers, for each requested
    identifier, what [get] answers for it at the same clock reading: the
    payload for a stored record that has not expired, nothing for an
    absent or expired one. *)
Theorem batchGet_agrees_with_get m now i ids (st : Store) :
  Healthy m ->
  exists hits,
    batchGet m now i ids st = (Fulfilled hits, st)
    /\ forall p, p ∈ ids -> (get m now i p st).1 = Fulfilled (hits !! p).
Proof.
  intros Hm. pose proof Hm as [Hopen Hfail].
  unfold batchGet. unfold_async. rewrite Hopen. cbn [fst snd].
  eexists. split; [reflexivity |]. intros p Hin.
  destruct (st !! cacheKey i p) as [c|] eqn:Hc.
  - rewrite (get_healthy m now i p st c Hm Hc).
    change (7 * (24 * 60 * 60 * 1000) <? now - timestamp c)
      with (expired now c).
    destruct (expired now c) eqn:He; cbn [fst].
    + destruct (foldl _ _ _ !! p) as [d|] eqn:Hd; [| done].
      apply batchGetOne_sound in Hd as [Hd | (_ & _ & c' & Hc' & _ & He')].
      * by rewrite lookup_empty in Hd.
      * congruence.
    + by rewrite (batchGetOne_complete m now i st ids ∅ p c).
  - destruct (foldl _ _ _ !! p) as [d|] eqn:Hd.
    + apply batchGetOne_sound in Hd as [Hd | (_ & _ & c' & Hc' & _)].
      * by rewrite lookup_empty in Hd.
      * congruence.
    + unfold get. unfold_async. by rewrite Hopen, Hfail, Hc.
Qed.

Lemma batchGet_agrees_witness :
  Healthy healthy
  /\ exists hits,
       batchGet healthy 5 "i" ["a"; "b"]
         (set healthy 1 "i" "a" "data:A" ∅).2
       = (Fulfilled hits, (set healthy 1 "i" "a" "data:A" ∅).2)
       /\ forall p, p ∈ ["a"; "b"] ->
            (get healthy 5 "i" p (set healthy 1 "i" "a" "data:A" ∅).2).1
            = Fulfilled (hits !! p).
Proof.
  split; [apply healthy_Healthy |].
  exact (batchGet_agrees_with_get healthy 5 "i" ["a"; "b"]
           (set healthy 1 "i" "a" "data:A" ∅).2 healthy_Healthy).
Defined.

(** *** [set] followed by [getStats] *)

(** X9: on a healthy medium, a [set] whose payload fits beside what is
    stored evicts nothing: every other key keeps its record, and
    [getStats] afterwards reports one record more for a new key, the
    same number for a key written again, and the old total with the
    size of the replaced record given back and the new size added. *)
Theorem set_that_fits_updates_stats m m' now i p v (st : Store) :
  Healthy m -> Healthy m' ->
  (totalSize st + blobSize v <= maxSizeBytes)%N ->
  (forall k, k <> cacheKey i p -> (set m now i p v st).2 !! k = st !! k)
  /\ (getStats m' (set m now i p v st).2).1
     = Fulfilled
         (match st !! cacheKey i p with
          | Some _ => length (map_to_list st)
          | None => S (length (map_to_list st))
          end,
          (totalSize st
           - match st !! cacheKey i p with
             | Some old => sizeBytes old
             | None => 0
             end
           + blobSize v)%N).
Proof.
  intros Hm [Hopen' Hfail'] Hfits.
  rewrite (set_healthy m) by done. rewrite cleaned_fits by done.
  cbn [fst snd]. split; [intros k Hk; by apply lookup_insert_ne |].
  unfold getStats. unfold_async. rewrite Hopen', Hfail'. cbn [fst snd].
  f_equal. f_equal.
  - rewrite !length_map_to_list, map_size_insert.
    by destruct (st !! cacheKey i p).
  - rewrite totalSize_insert. cbn [sizeBytes].
    destruct (st !! cacheKey i p) as [old|] eqn:Hold.
    + rewrite (totalSize_delete st _ old Hold). lia.
    + rewrite delete_id by done. lia.
Qed.

Lemma set_that_fits_witness :
  Healthy healthy
  /\ (getStats healthy
        (set healthy 2 "i" "a" "data:AB"
           (set healthy 1 "i" "a" "data:A" ∅).2).2).1
     = Fulfilled (1%nat, 7%N).
Proof.
  split; [apply healthy_Healthy |].
  assert (Hfits : (totalSize (set healthy 1 "i" "a" "data:A" ∅).2
                   + blobSize "data:AB" <= maxSizeBytes)%N)
    by (vm_compute; discriminate).
  exact (proj2 (set_that_fits_updates_stats healthy healthy 2 "i" "a" "data:AB"
                  (set healthy 1 "i" "a" "data:A" ∅).2
                  healthy_Healthy healthy_Healthy Hfits)).
Defined.

End CacheOperations.

(** ** Facts about the photo queries *)

Module PhotoQueryFacts.
Import PhotoCache KvStore BatchFetch PhotoQueries PhotoCacheFacts.

Lemma truthy_nonempty d : d <> EmptyString -> truthy (Some d) = Some d.
Proof. by destruct d. Qed.

Lemma storageKeyOf_photo ph :
  storage_key ph <> EmptyString ->
  storageKeyOf (Some (VPhoto ph)) = Some (storage_key ph).
Proof. intros H. unfold storageKeyOf. by destruct (decide _). Qed.

Ltac unfold_query :=
  unfold usePhotoData, async, tryCatch, await, onCache, onRemote, kvGet,
    apiCall.

(** X10: a photo whose record is in the cache, not expired and not
    empty, is served by [usePhotoData] from the cache: the result is the
    cached payload, and neither the remote store (no request is sent)
    nor the cache changes. *)
Theorem usePhotoData_hit_sends_no_request m net now now' i p w c :
  Healthy m ->
  cache w !! cacheKey i p = Some c ->
  now - timestamp c <= 7 * 86400000 ->
  dataUrl c <> EmptyString ->
  usePhotoData m net now now' i p w = (Fulfilled (FromCache (dataUrl c)), w).
Proof.
  intros Hm Hc Hage Hd. unfold_query.
  rewrite (get_healthy m now i p (cache w) c Hm Hc).
  apply Z.ltb_ge in Hage.
  change (7 * (24 * 60 * 60 * 1000)) with (7 * 86400000). rewrite Hage.
  rewrite (truthy_nonempty _ Hd). by destruct w.
Qed.

Lemma usePhotoData_hit_witness :
  Healthy healthy
  /\ usePhotoData healthy online 5 6 "i" "a" demoWorld
     = (Fulfilled (FromCache "data:A"), demoWorld).
Proof.
  split; [apply healthy_Healthy |].
  apply (usePhotoData_hit_sends_no_request healthy online 5 6 "i" "a" demoWorld
           (mkCached (cacheKey "i" "a") "data:A" 1 6)).
  - apply healthy_Healthy.
  - vm_compute. reflexivity.
  - vm_compute. discriminate.
  - discriminate.
Defined.

(** X11: a photo that misses the cache (absent or expired) and is
    stored remotely with a payload is fetched with exactly one
    [/kv/get], returned as stored, and written through to the cache, so
    that a later [usePhotoData] of the same photo within the expiry
    period answers from the cache and sends no request, whatever the
    network does then. *)
Theorem usePhotoData_miss_fetches_once_then_hits
    m net net2 now now' now2 now2' i p w ph :
  Healthy m ->
  (get m now i p (cache w)).1 = Fulfilled None ->
  net (CallGet (photoData i p)) = false ->
  table (remote w) !! photoData i p = Some (VPhoto ph) ->
  storage_key ph <> EmptyString ->
  now2 - now' <= 7 * 86400000 ->
  let r := usePhotoData m net now now' i p w in
  r.1 = Fulfilled (FromServer (Some (VPhoto ph)))
  /\ table (remote r.2) = table (remote w)
  /\ calls (remote r.2) = CallGet (photoData i p) :: calls (remote w)
  /\ usePhotoData m net2 now2 now2' i p r.2
     = (Fulfilled (FromCache (storage_key ph)), r.2).
Proof.
  intros Hm Hmiss Hnet Hph Hsk Hage r. subst r. unfold_query.
  destruct (get m now i p (cache w)) as [g st1]. cbn [fst] in Hmiss.
  subst g. cbn [truthy remote cache]. rewrite Hnet.
  cbn [serve mapSettled remote cache table]. rewrite Hph.
  rewrite (storageKeyOf_photo _ Hsk). cbn [cache remote].
  rewrite (set_healthy m) by done. cbn [fst snd remote cache table calls].
  split; [done |]. split; [done |]. split; [done |].
  set (c := mkCached (cacheKey i p) (storage_key ph) now'
              (blobSize (storage_key ph))).
  rewrite (get_healthy m now2 i p _ c Hm) by apply lookup_insert_eq.
  apply Z.ltb_ge in Hage.
  change (7 * (24 * 60 * 60 * 1000)) with (7 * 86400000).
  cbn [timestamp c]. rewrite Hage. cbn [dataUrl c].
  by rewrite (truthy_nonempty _ Hsk).
Qed.

Lemma usePhotoData_miss_witness :
  Healthy healthy
  /\ (usePhotoData healthy online 5 6 "i" "b" demoWorld).1
     = Fulfilled (FromServer (Some (VPhoto photoB)))
  /\ calls (remote (usePhotoData healthy online 5 6 "i" "b" demoWorld).2)
     = [CallGet (photoData "i" "b")].
Proof.
  split; [apply healthy_Healthy |].
  destruct (usePhotoData_miss_fetches_once_then_hits healthy online
              (fun _ => true) 5 6 7 8 "i" "b" demoWorld photoB)
    as (H1 & _ & H3 & _).
  - apply healthy_Healthy.
  - vm_compute. reflexivity.
  - reflexivity.
  - vm_compute. reflexivity.
  - discriminate.
  - vm_compute. discriminate.
  - split; [exact H1 | exact H3].
Defined.

(** X12: whatever the cache medium and the network do, [usePhotoData]
    never writes to the remote table and sends at most one request, the
    [/kv/get] of the key of the photo. *)
Theorem usePhotoData_reads_the_remote_at_most_once m net now now' i p w :
  table (remote (usePhotoData m net now now' i p w).2) = table (remote w)
  /\ (calls (remote (usePhotoData m net now now' i p w).2) = calls (remote w)
      \/ calls (remote (usePhotoData m net now now' i p w).2)
         = CallGet (photoData i p) :: calls (remote w)).
Proof.
  unfold_query.
  destruct (get m now i p (cache w)) as [[g|e] st1]; cbn [fst snd remote];
    [| by split; [| left]].
  destruct (truthy g) as [d|]; cbn [fst snd remote]; [by split; [| left] |].
  destruct (net (CallGet _)); cbn [serve mapSettled fst snd remote table calls];
    [by split; [| right] |].
  destruct (storageKeyOf _) as [sk|]; cbn [fst snd remote cache table calls].
  - destruct (set m now' i p sk st1) as [[[]|e] st2];
      cbn [fst snd remote table calls]; by split; [| right].
  - by split; [| right].
Qed.

(** X13: without a usable cache (the database does not open)
    [usePhotoData] answers from the remote store: the stored value of
    the key of the photo, or the error of [/kv/get] when the request
    fails; the cache is left as it was. *)
Theorem usePhotoData_without_cache_reads_the_server m net now now' i p w :
  dbOpens m = false ->
  (usePhotoData m net now now' i p w).1
  = (if net (CallGet (photoData i p)) then Rejected (ApiError "/kv/get")
     else Fulfilled (FromServer (table (remote w) !! photoData i p)))
  /\ cache (usePhotoData m net now now' i p w).2 = cache w.
Proof.
  intros Hopen. unfold_query.
  destruct (unavailable_medium_degrades m now i p EmptyString [] (cache w) Hopen)
    as (Hget & _).
  rewrite Hget. cbn [truthy remote cache].
  destruct (net (CallGet _)); cbn [serve mapSettled fst snd remote cache table];
    [done |].
  destruct (storageKeyOf _) as [sk|]; cbn [fst snd remote cache]; [| done].
  destruct (unavailable_medium_degrades m now' i p sk [] (cache w) Hopen)
    as (_ & Hset & _).
  by rewrite Hset.
Qed.

Lemma usePhotoData_without_cache_witness :
  (usePhotoData (mkMedium false (fun _ => false)) online 5 6 "i" "b"
     demoWorld).1
  = Fulfilled (FromServer (Some (VPhoto photoB))).
Proof.
  exact (proj1 (usePhotoData_without_cache_reads_the_server
                  (mkMedium false (fun _ => false)) online 5 6 "i" "b"
                  demoWorld eq_refl)).
Defined.

(** *** The listing of the photos of an inspection *)

Lemma insertByOrder_perm p l : insertByOrder p l ≡ₚ p :: l.
Proof.
  induction l as [|q l IH]; simpl; [done |].
  destruct (order_index p <=? order_index q); [done |].
  rewrite IH. apply Permutation_swap.
Qed.

Lemma insertByOrder_sorted p l :
  Sorted (fun a b => order_index a <= order_index b) l ->
  Sorted (fun a b => order_index a <= order_index b) (insertByOrder p l).
Proof.
  induction l as [|q l IH]; simpl; intros Hs.
  - by repeat constructor.
  - destruct (order_index p <=? order_index q) eqn:Hle.
    + constructor; [done |]. constructor. by apply Z.leb_le.
    + apply Z.leb_gt in Hle. apply Sorted_inv in Hs as [Hs Hhd].
      constructor; [by apply IH |].
      destruct l as [|q' l]; simpl.
      * constructor. lia.
      * destruct (order_index p <=? order_index q'); constructor; [lia |].
        by apply HdRel_inv in Hhd.
Qed.

Lemma insertByOrder_stable z p l :
  filter (fun q => order_index q = z) (insertByOrder p l)
  = filter (fun q => order_index q = z) (p :: l).
Proof.
  induction l as [|q l IH]; simpl; [done |].
  destruct (order_index p <=? order_index q) eqn:Hle; [done |].
  apply Z.leb_gt in Hle.
  rewrite (filter_cons _ q), IH, !filter_cons.
  destruct (decide (order_index q = z)), (decide (order_index p = z));
    try done; lia.
Qed.

(** X14: when the request succeeds, [useInspectionPhotos] returns the
    stored index of the inspection in ascending [order_index], photos
    of one [order_index] in their stored order, nothing lost and nothing
    added; the remote table is not changed. *)
Theorem useInspectionPhotos_sorts_the_index net i r ps :
  net (CallGet (photoIndex i)) = false ->
  table r !! photoIndex i = Some (VPhotos ps) ->
  exists l,
    (useInspectionPhotos net i r).1 = Fulfilled l
    /\ Sorted (fun a b => order_index a <= order_index b) l
    /\ (forall z, filter (fun q => order_index q = z) l
                  = filter (fun q => order_index q = z) ps)
    /\ l ≡ₚ ps
    /\ table (useInspectionPhotos net i r).2 = table r.
Proof.
  intros Hnet Hps. unfold useInspectionPhotos, kvGet, apiCall.
  rewrite Hnet. cbn [serve mapSettled fst snd table]. rewrite Hps.
  exists (sortByOrder ps). split; [done |]. unfold sortByOrder.
  split; [| split; [| split; [| done]]].
  - clear Hps. induction ps as [|p ps IH]; simpl; [constructor |].
    by apply insertByOrder_sorted.
  - intros z. clear Hps. induction ps as [|p ps IH]; simpl; [done |].
    by rewrite insertByOrder_stable, !filter_cons, IH.
  - clear Hps. induction ps as [|p ps IH]; simpl; [done |].
    by rewrite insertByOrder_perm, IH.
Qed.

Lemma useInspectionPhotos_witness :
  exists l,
    (useInspectionPhotos online "i"
       (mkRemote {[ photoIndex "i" :=
                      VPhotos [mkPhoto "b" "i" EmptyString None 1;
                               mkPhoto "a" "i" EmptyString None 0] ]} [])).1
    = Fulfilled l
    /\ Sorted (fun a b => order_index a <= order_index b) l.
Proof.
  destruct (useInspectionPhotos_sorts_the_index online "i"
              (mkRemote {[ photoIndex "i" :=
                             VPhotos [mkPhoto "b" "i" EmptyString None 1;
                                      mkPhoto "a" "i" EmptyString None 0] ]} [])
              [mkPhoto "b" "i" EmptyString None 1;
               mkPhoto "a" "i" EmptyString None 0] eq_refl)
    as (l & Hl & Hs & _).
  - vm_compute. reflexivity.
  - exists l. by split.
Defined.

End PhotoQueryFacts.

(** ** Facts about the batch upload *)

Module BatchUploadFacts.
Import PhotoCache KvStore BatchFetch PhotoStore BatchUpload.

#[local] Arguments String.append !_ _ / : simpl nomatch.

Lemma writePhotos_completed m net now i photos w u :
  (writePhotos m net now i photos w).1 = Fulfilled u ->
  table (remote (writePhotos m net now i photos w).2)
  = stored i photos (table (remote w)).
Proof.
  revert w. induction photos as [|photo rest IH]; intros w; [done |].
  cbn [writePhotos stored foldl]. unfold onRemote, onCache, kvSet, apiCall.
  destruct (net (CallSet _ _));
    cbn [serve mapSettled remote cache table fst snd].
  - destruct (set m now i (id photo) (storage_key photo) (cache w)) as [p2 st].
    destruct (writePhotos m net now i rest _) as [ps w3].
    unfold promiseAll2. cbn [fst]. intros [=].
  - destruct (set m now i (id photo) (storage_key photo) (cache w)) as [p2 st].
    specialize (IH (mkWorld st
                      (mkRemote (<[photoData i (id photo) := VPhoto photo]>
                                   (table (remote w)))
                         (CallSet (photoData i (id photo)) (VPhoto photo)
                          :: calls (remote w))))).
    destruct (writePhotos m net now i rest _) as [ps w3].
    unfold promiseAll2. cbn [fst snd remote table] in *.
    destruct p2 as [[]|e]; [| intros [=]]. destruct ps as [[]|e]; [| intros [=]].
    intros _. destruct u. by apply IH.
Qed.

Lemma stored_other i photos t k :
  (forall photo, photo ∈ photos -> k <> photoData i (id photo)) ->
  stored i photos t !! k = t !! k.
Proof.
  revert t. induction photos as [|photo rest IH]; intros t Hk; [done |].
  cbn [stored foldl]. change (foldl _ ?t0 rest) with (stored i rest t0).
  rewrite IH by (intros q Hq; apply Hk; by right).
  apply lookup_insert_ne. intros Heq. by apply (Hk photo); [left |].
Qed.

Lemma stored_record i photos t photo :
  photo ∈ photos ->
  exists q, stored i photos t !! photoData i (id photo) = Some (VPhoto q)
            /\ id q = id photo /\ q ∈ photos.
Proof.
  revert t photo. induction photos as [|x rest IH]; intros t photo Hin;
    [by apply elem_of_nil in Hin |].
  cbn [stored foldl]. change (foldl _ ?t0 rest) with (stored i rest t0).
  destruct (decide (photo ∈ rest)) as [Hr|Hr].
  - destruct (IH (<[photoData i (id x) := VPhoto x]> t) photo Hr)
      as (q & Hq & Hid & Hqin).
    exists q. split; [done |]. split; [done | by right].
  - apply elem_of_cons in Hin as [->|]; [| done].
    destruct (decide (Exists (fun q => id q = id x) rest)) as [Hex|Hex].
    + apply Exists_exists in Hex as (q0 & Hq0 & Hid0).
      destruct (IH (<[photoData i (id x) := VPhoto x]> t) q0 Hq0)
        as (q & Hq & Hid & Hqin).
      exists q. rewrite <- Hid0 in *. split; [done |]. split; [done | by right].
    + exists x. split; [| split; [done | by left]].
      rewrite stored_other; [apply lookup_insert_eq |].
      intros q Hq Heq. apply Hex, Exists_exists. exists q. split; [done |].
      unfold photoData in Heq. simpl in Heq. injection Heq as Heq.
      by apply PhotoStoreFacts.append_inj_l in Heq as [= ->].
Qed.

Lemma stored_keeps_records i photos t k q :
  t !! k = Some (VPhoto q) -> exists q', stored i photos t !! k = Some (VPhoto q').
Proof.
  revert t q. induction photos as [|x rest IH]; intros t q Hk; [by exists q |].
  cbn [stored foldl]. change (foldl _ ?t0 rest) with (stored i rest t0).
  destruct (decide (k = photoData i (id x))) as [->|Hne].
  - apply (IH _ x), lookup_insert_eq.
  - apply (IH _ q). by rewrite lookup_insert_ne.
Qed.

(** What an upload that completed has done to the table. *)
Lemma batchUpload_completed m net now uuid i items w r w' :
  batchUploadPhotos m net now uuid i items w = (Fulfilled r, w') ->
  exists existingIndex,
    indexOf (table (remote w) !! photoIndex i) = Some existingIndex
    /\ r = map metadata (newPhotos uuid i items)
    /\ table (remote w')
       = stored i (newPhotos uuid i items)
           (<[photoIndex i := VPhotos (existingIndex ++ r)]> (table (remote w))).
Proof.
  unfold batchUploadPhotos, async, tryCatch, await, onRemote, kvGet, kvSet,
    apiCall.
  destruct (net (CallGet _)); cbn [serve mapSettled remote cache table];
    [intros [=] |].
  destruct (indexOf (table (remote w) !! _)) as [existingIndex|] eqn:Hidx;
    [| intros [=]].
  destruct (net (CallSet _ _)); cbn [serve mapSettled remote cache table].
  - destruct (writePhotos _ _ _ _ _ _) as [ps w1]. unfold promiseAll2.
    intros [=].
  - match goal with
    | |- context [writePhotos ?a ?b ?c ?d ?e ?f] =>
        pose proof (writePhotos_completed a b c d e f tt) as Hw;
        destruct (writePhotos a b c d e f) as [[[]|e0] w1]
    end; unfold promiseAll2; [| intros [=]].
    intros [= <- <-]. exists existingIndex. split; [done |]. split; [done |].
    exact (Hw eq_refl).
Qed.

Lemma newPhotos_metadata_empty photos :
  Forall (fun p => storage_key p = EmptyString) (map metadata photos).
Proof. apply Forall_fmap. by apply Forall_true. Qed.

(** X15: a batch upload that completed returns the metadata of the new
    photos, none of which carries a payload; the stored index of the
    inspection is the index before (empty when there was none) followed
    by that metadata, in the order of the input; and every new photo
    has a full record under its own key. *)
Theorem batch_upload_extends_index_and_stores_records
    m net now uuid i items w r w' :
  batchUploadPhotos m net now uuid i items w = (Fulfilled r, w') ->
  r = map metadata (newPhotos uuid i items)
  /\ Forall (fun p => storage_key p = EmptyString) r
  /\ (exists existingIndex,
        indexOf (table (remote w) !! photoIndex i) = Some existingIndex
        /\ table (remote w') !! photoIndex i
           = Some (VPhotos (existingIndex ++ r)))
  /\ (forall photo, photo ∈ newPhotos uuid i items ->
        exists q, table (remote w') !! photoData i (id photo) = Some (VPhoto q)
                  /\ id q = id photo /\ q ∈ newPhotos uuid i items).
Proof.
  intros Hup.
  destruct (batchUpload_completed _ _ _ _ _ _ _ _ _ Hup)
    as (existing & Hidx & -> & Ht').
  split; [done |]. split; [apply newPhotos_metadata_empty |]. split.
  - exists existing. split; [done |]. rewrite Ht', stored_other.
    + apply lookup_insert_eq.
    + intros photo _. apply PhotoStoreFacts.photoIndex_photoData.
  - intros photo Hin. rewrite Ht'. by apply stored_record.
Qed.

Lemma batch_upload_witness :
  exists r w',
    batchUploadPhotos healthy online 1 (fun _ => "n") "i"
      [mkUpload "data:N" (Some EmptyString) 2] twoStored
    = (Fulfilled r, w')
    /\ r = [mkPhoto "n" "i" EmptyString None 2].
Proof.
  eexists _, _. split; [vm_compute; reflexivity |].
  exact (proj1 (batch_upload_extends_index_and_stores_records
                  healthy online 1 (fun _ => "n") "i"
                  [mkUpload "data:N" (Some EmptyString) 2] twoStored _ _
                  eq_refl)).
Defined.

(** X16: a batch upload that completed keeps the index of its
    inspection free of entries without a full record, and, when the
    inspection identifiers contain no colon, changes neither the index
    nor any record of another inspection. *)
Theorem batch_upload_leaves_no_dangling_entry m net now uuid i items w r w' :
  batchUploadPhotos m net now uuid i items w = (Fulfilled r, w') ->
  (noDangling i (table (remote w)) -> noDangling i (table (remote w')))
  /\ (forall j, hasColon i = false -> hasColon j = false -> j <> i ->
        table (remote w') !! photoIndex j = table (remote w) !! photoIndex j
        /\ forall p, table (remote w') !! photoData j p
                     = table (remote w) !! photoData j p).
Proof.
  intros Hup.
  destruct (batchUpload_completed _ _ _ _ _ _ _ _ _ Hup)
    as (existing & Hidx & -> & Ht').
  split.
  - intros Hnd ps p Hps Hin. rewrite Ht' in Hps |- *.
    rewrite stored_other in Hps
      by (intros photo _; apply PhotoStoreFacts.photoIndex_photoData).
    rewrite lookup_insert_eq in Hps. injection Hps as <-.
    apply elem_of_app in Hin as [Hin|Hin].
    + destruct (table (remote w) !! photoIndex i) as [[q|ps0]|] eqn:Hti;
        simpl in Hidx.
      * done.
      * injection Hidx as ->. destruct (Hnd existing p Hti Hin) as [q Hq].
        apply (stored_keeps_records _ _ _ _ q).
        rewrite lookup_insert_ne
          by apply PhotoStoreFacts.photoIndex_photoData.
        done.
      * injection Hidx as <-. by apply not_elem_of_nil in Hin.
    + apply list_elem_of_fmap in Hin as (photo & -> & Hin).
      destruct (stored_record i _
                  (<[photoIndex i :=
                       VPhotos (existing ++ map metadata (newPhotos uuid i items))]>
                     (table (remote w))) photo Hin) as (q & Hq & _).
      by exists q.
  - intros j Hi Hj Hne. rewrite Ht'. split.
    + rewrite stored_other
        by (intros photo _; apply PhotoStoreFacts.photoIndex_photoData).
      apply lookup_insert_ne. intros Heq.
      by apply PhotoStoreFacts.photoIndex_inj in Heq.
    + intros p. rewrite stored_other.
      * apply lookup_insert_ne, PhotoStoreFacts.photoIndex_photoData.
      * intros photo _ Heq.
        by apply PhotoStoreFacts.photoData_inj in Heq as [? _].
Qed.

Lemma batch_upload_no_dangling_witness :
  noDangling "i"
    (table (remote (batchUploadPhotos healthy online 1 (fun _ => "n") "i"
                      [mkUpload "data:N" None 2] twoStored).2)).
Proof.
  apply (batch_upload_leaves_no_dangling_entry healthy online 1
           (fun _ => "n") "i" [mkUpload "data:N" None 2] twoStored
           [mkPhoto "n" "i" EmptyString None 2] _).
  - vm_compute. reflexivity.
  - apply PhotoStoreFacts.twoStored_noDangling.
Defined.

(** X17: uploading one photo and then deleting it gives back the
    index there was: when the identifier drawn for the photo is not one
    of the index, after both mutations have completed the index of the
    inspection is the list before the upload, the record of the photo
    is gone, and every other key of the table holds what it held. *)
Theorem upload_then_delete_restores_index
    m net now uuid i item w r w1 m' net' r' w2 existingIndex :
  batchUploadPhotos m net now uuid i [item] w = (Fulfilled r, w1) ->
  indexOf (table (remote w) !! photoIndex i) = Some existingIndex ->
  (forall p, p ∈ existingIndex -> id p <> uuid 0%nat) ->
  (forall photo, photo ∈ r ->
     deletePhoto m' net' photo w1 = (Fulfilled r', w2)) ->
  table (remote w2)
  = base.delete (photoData i (uuid 0%nat))
      (<[photoIndex i := VPhotos existingIndex]> (table (remote w))).
Proof.
  intros Hup Hidx Hfresh Hdel.
  destruct (batchUpload_completed _ _ _ _ _ _ _ _ _ Hup)
    as (existing & Hidx' & -> & Ht1).
  rewrite Hidx in Hidx'. injection Hidx' as <-.
  cbn [newPhotos imap map stored foldl metadata id inspection_id caption
       order_index] in Ht1, Hdel.
  set (photo := mkPhoto (uuid 0%nat) i EmptyString
                  (captionOrNull (up_caption item)) (up_order_index item))
    in *.
  specialize (Hdel photo (list_elem_of_here _ _)).
  destruct (PhotoStoreFacts.deletePhoto_completed _ _ _ _ _ _ Hdel)
    as (existing1 & Hidx1 & Ht2).
  cbn [inspection_id id photo] in Hidx1, Ht2.
  rewrite Ht1 in Hidx1.
  rewrite lookup_insert_ne in Hidx1
    by (symmetry; apply PhotoStoreFacts.photoIndex_photoData).
  rewrite lookup_insert_eq in Hidx1. cbn [indexOf] in Hidx1.
  injection Hidx1 as <-.
  rewrite Ht2, Ht1. rewrite filter_app, filter_cons, filter_nil.
  cbn [id]. rewrite decide_False by (intros H; by apply H).
  rewrite app_nil_r.
  assert (Hsame : filter (fun p => id p <> uuid 0%nat) existingIndex
                  = existingIndex).
  { clear -Hfresh. induction existingIndex as [|p l IH]; [done |].
    rewrite filter_cons, decide_True by (apply Hfresh; left).
    f_equal. apply IH. intros q Hq. apply Hfresh. by right. }
  rewrite Hsame. apply map_eq. intros k.
  destruct (decide (k = photoData i (uuid 0%nat))) as [->|Hk].
  - by rewrite !lookup_delete_eq.
  - rewrite !lookup_delete_ne by done.
    destruct (decide (k = photoIndex i)) as [->|Hk'].
    + by rewrite !lookup_insert_eq.
    + by rewrite !lookup_insert_ne.
Qed.

Lemma upload_then_delete_witness :
  table (remote
           (deletePhoto healthy online (mkPhoto "n" "i" EmptyString None 2)
              (batchUploadPhotos healthy online 1 (fun _ => "n") "i"
                 [mkUpload "data:N" None 2] twoStored).2).2)
  = base.delete (photoData "i" "n")
      (<[photoIndex "i" :=
           VPhotos [mkPhoto "a" "i" EmptyString None 0;
                    mkPhoto "b" "i" EmptyString None 1]]>
         (table (remote twoStored))).
Proof.
  apply (upload_then_delete_restores_index healthy online 1 (fun _ => "n") "i"
           (mkUpload "data:N" None 2) twoStored
           [mkPhoto "n" "i" EmptyString None 2]
           (batchUploadPhotos healthy online 1 (fun _ => "n") "i"
              [mkUpload "data:N" None 2] twoStored).2
           healthy online
           (mkPhoto "n" "i" EmptyString None 2)
           (deletePhoto healthy online (mkPhoto "n" "i" EmptyString None 2)
              (batchUploadPhotos healthy online 1 (fun _ => "n") "i"
                 [mkUpload "data:N" None 2] twoStored).2).2).
  - vm_compute. reflexivity.
  - vm_compute. reflexivity.
  - intros p Hp.
    apply elem_of_cons in Hp as [->|Hp]; [discriminate |].
    apply elem_of_cons in Hp as [->|Hp]; [discriminate |].
    by apply not_elem_of_nil in Hp.
  - intros photo Hp. apply elem_of_cons in Hp as [->|Hp].
    + vm_compute. reflexivity.
    + by apply not_elem_of_nil in Hp.
Defined.





End BatchUploadFacts.

(** ** More facts about the optimistic mutations *)

Module MutationHookFacts.
Import KvStore QueryClient Mutations BatchUpload MutationFacts.

Lemma filter_keeps_all {A} (P : A -> Prop) `{forall x, Decision (P x)} (l : list A) :
  (forall x, x ∈ l -> P x) -> filter P l = l.
Proof.
  induction l as [|x l IH]; intros Hall; [done |].
  rewrite filter_cons, decide_True by (apply Hall; left).
  f_equal. apply IH. intros y Hy. apply Hall. by right.
Qed.

Lemma filter_drops_all {A} (P : A -> Prop) `{forall x, Decision (P x)} (l : list A) :
  (forall x, x ∈ l -> ~ P x) -> filter P l = [].
Proof.
  induction l as [|x l IH]; intros Hall; [done |].
  rewrite filter_cons, decide_False by (apply Hall; left).
  apply IH. intros y Hy. apply Hall. by right.
Qed.

Lemma map_replace_none (f : Photo -> Photo) (P : Photo -> Prop)
    `{forall x, Decision (P x)} (l : list Photo) :
  (forall x, x ∈ l -> ~ P x) ->
  map (fun p => if decide (P p) then f p else p) l = l.
Proof.
  induction l as [|x l IH]; intros Hall; [done |].
  cbn [map]. rewrite decide_False by (apply Hall; left).
  f_equal. apply IH. intros y Hy. apply Hall. by right.
Qed.

(** X19: a successful upload ends with the server record in the place
    of the optimistic photo. When no listed photo has the identifier
    drawn for the optimistic photo, the list of the inspection after
    [useUploadPhoto] has fulfilled is the list before the mutation
    (empty when the query had no data) followed by the returned record;
    the inspection queries are not touched. *)
Theorem upload_success_appends_server_record qc (newPhoto data : Photo) :
  (forall p,
     p ∈ default [] (getQueryData (photos qc) (inspection_id newPhoto)) ->
     id p <> id newPhoto) ->
  let r := mutateAsync upload_onMutate upload_onError upload_onSuccess
             newPhoto (Fulfilled data) qc in
  r.1 = Fulfilled data
  /\ getQueryData (photos r.2) (inspection_id newPhoto)
     = Some (default [] (getQueryData (photos qc) (inspection_id newPhoto))
             ++ [data])
  /\ inspections r.2 = inspections qc.
Proof.
  intros Hfresh.
  unfold mutateAsync, upload_onMutate, upload_onSuccess, photos_onMutate.
  cbn [fst snd photos inspections]. split; [done |]. split; [| done].
  rewrite !getQueryData_set_eq, !getQueryData_cancelQuery.
  cbn [from_option Datatypes.id]. f_equal. rewrite map_app. cbn [map].
  rewrite decide_True by done. f_equal.
  apply (map_replace_none (fun _ => data) (fun p => id p = id newPhoto)).
  exact Hfresh.
Qed.

Lemma upload_success_witness :
  getQueryData
    (photos (mutateAsync upload_onMutate upload_onError upload_onSuccess
               (mkPhoto "tmp" "i" "data:A" None 0)
               (Fulfilled (mkPhoto "srv" "i" EmptyString None 0))
               freshClient).2) "i"
  = Some [mkPhoto "srv" "i" EmptyString None 0].
Proof.
  refine (proj1 (proj2 (upload_success_appends_server_record freshClient
                          (mkPhoto "tmp" "i" "data:A" None 0)
                          (mkPhoto "srv" "i" EmptyString None 0) _))).
  intros p Hp. vm_compute in Hp. by apply not_elem_of_nil in Hp.
Defined.

(** X20: a successful batch upload ends with the server records in the
    place of the optimistic photos. When no listed photo has one of the
    identifiers drawn for the optimistic photos, the list of the
    inspection after [useBatchUploadPhotos] has fulfilled is the list
    before the mutation followed by the returned records; after a
    failure the list is the one before, when the query had data. *)
Theorem batch_upload_hook_outcomes qc i (optimistic data : list Photo) e
    previous :
  getQueryData (photos qc) i = Some previous ->
  (forall p, p ∈ previous -> id p ∉ map id optimistic) ->
  let ok := mutateAsync (batch_onMutate i) (fun _ => batch_onError i)
              (fun data _ => batch_onSuccess i data) optimistic
              (Fulfilled data) qc in
  let ko := mutateAsync (batch_onMutate i) (fun _ => batch_onError i)
              (fun data _ => batch_onSuccess i data) optimistic
              (Rejected e) qc in
  (ok.1 = Fulfilled data
   /\ getQueryData (photos ok.2) i = Some (previous ++ data))
  /\ (ko.1 = Rejected e /\ getQueryData (photos ko.2) i = Some previous).
Proof.
  intros Hprev Hfresh.
  unfold mutateAsync, batch_onMutate, batch_onSuccess, batch_onError,
    photos_onMutate, photos_onError.
  cbn [fst snd photos inspections fmap option_fmap option_map].
  rewrite !getQueryData_set_eq, !getQueryData_cancelQuery, Hprev.
  cbn [from_option Datatypes.id fst snd photos]. rewrite !getQueryData_set_eq.
  split; [| done]. split; [done |]. f_equal. f_equal.
  rewrite filter_app.
  rewrite (filter_keeps_all (fun p => id p ∉ map id optimistic)) by done.
  rewrite (filter_drops_all (fun p => id p ∉ map id optimistic)).
  - apply app_nil_r.
  - intros p Hp Hnot. apply Hnot. apply list_elem_of_fmap. by exists p.
Qed.

Lemma batch_upload_hook_witness :
  getQueryData
    (photos (mutateAsync (batch_onMutate "i") (fun _ => batch_onError "i")
               (fun data _ => batch_onSuccess "i" data)
               [mkPhoto "tmp" "i" "data:A" None 0]
               (Fulfilled [mkPhoto "srv" "i" EmptyString None 0])
               (mkClient ∅ {[ "i" := mkQuery (Some []) true ]})).2) "i"
  = Some [mkPhoto "srv" "i" EmptyString None 0].
Proof.
  refine (proj2 (proj1 (batch_upload_hook_outcomes
                          (mkClient ∅ {[ "i" := mkQuery (Some []) true ]}) "i"
                          [mkPhoto "tmp" "i" "data:A" None 0]
                          [mkPhoto "srv" "i" EmptyString None 0]
                          IdbOpenError [] _ _))).
  - vm_compute. reflexivity.
  - intros p Hp. by apply not_elem_of_nil in Hp.
Defined.

Lemma setQueryData_lookup_ne {A} (qs : gmap string (Query A)) key key' updater :
  key <> key' -> setQueryData qs key updater !! key' = qs !! key'.
Proof.
  intros Hne. unfold setQueryData. destruct (updater _); [| done].
  by apply lookup_insert_ne.
Qed.

Lemma photos_onMutate_other i transform qc j :
  i <> j ->
  photos (photos_onMutate i transform qc).2 !! j = photos qc !! j
  /\ inspections (photos_onMutate i transform qc).2 = inspections qc.
Proof.
  intros Hne. unfold photos_onMutate. cbn [snd photos inspections].
  split; [| done]. rewrite setQueryData_lookup_ne by done.
  unfold cancelQuery. by apply lookup_alter_ne.
Qed.

Lemma photos_onError_other i context qc j :
  i <> j ->
  photos (photos_onError i context qc) !! j = photos qc !! j
  /\ inspections (photos_onError i context qc) = inspections qc.
Proof.
  intros Hne. unfold photos_onError.
  destruct context as [[previous|]|]; cbn [photos inspections]; [| done..].
  split; [| done]. by apply setQueryData_lookup_ne.
Qed.

(** X21: a photo mutation touches the photo list of its own inspection
    only. Whether the remote write fulfils or rejects, after
    [useUploadPhoto], [useDeletePhoto], [useUpdatePhotoCaption] or
    [useBatchUploadPhotos] the query of every other inspection is what
    it was, data and fetch in flight, and the inspection queries are
    unchanged. *)
Theorem photo_mutations_touch_their_inspection_only qc j
    (newPhoto photo : Photo) (v : CaptionVars) i (optimistic : list Photo)
    (outcome : Settled Photo) (outcomes : Settled (list Photo)) :
  let up := mutateAsync upload_onMutate upload_onError upload_onSuccess
              newPhoto outcome qc in
  let del := mutateAsync delete_onMutate delete_onError (noSuccess (R := Photo))
               photo outcome qc in
  let cap := mutateAsync caption_onMutate caption_onError (noSuccess (R := Photo))
               v outcome qc in
  let bat := mutateAsync (batch_onMutate i) (fun _ => batch_onError i)
               (fun data _ => batch_onSuccess i data) optimistic outcomes qc in
  (inspection_id newPhoto <> j ->
   photos up.2 !! j = photos qc !! j /\ inspections up.2 = inspections qc)
  /\ (inspection_id photo <> j ->
      photos del.2 !! j = photos qc !! j /\ inspections del.2 = inspections qc)
  /\ (cv_inspection_id v <> j ->
      photos cap.2 !! j = photos qc !! j /\ inspections cap.2 = inspections qc)
  /\ (i <> j ->
      photos bat.2 !! j = photos qc !! j /\ inspections bat.2 = inspections qc).
Proof.
  cbn zeta. unfold mutateAsync, upload_onMutate, delete_onMutate,
    caption_onMutate, batch_onMutate, upload_onError, delete_onError,
    caption_onError, batch_onError, upload_onSuccess, batch_onSuccess,
    noSuccess.
  split; [| split; [| split]]; intros Hne.
  - destruct (photos_onMutate_other (inspection_id newPhoto)
                (fun old => Some (default [] old ++ [newPhoto])) qc j Hne)
      as [Hp Hi].
    destruct (photos_onMutate _ _ qc) as [c qc1]. cbn [snd] in Hp, Hi.
    destruct outcome as [d|e]; cbn [snd photos inspections].
    + by rewrite setQueryData_lookup_ne.
    + destruct (photos_onError_other (inspection_id newPhoto) (Some c) qc1 j Hne)
        as [Hp' Hi']. by rewrite Hp', Hi'.
  - destruct (photos_onMutate_other (inspection_id photo)
                (fun old => Some (filter (fun p => id p <> id photo)
                                    (default [] old))) qc j Hne)
      as [Hp Hi].
    destruct (photos_onMutate _ _ qc) as [c qc1]. cbn [snd] in Hp, Hi.
    destruct outcome as [d|e]; cbn [snd photos inspections]; [done |].
    destruct (photos_onError_other (inspection_id photo) (Some c) qc1 j Hne)
      as [Hp' Hi']. by rewrite Hp', Hi'.
  - destruct (photos_onMutate_other (cv_inspection_id v)
                (fun old =>
                   Some (map (fun p => if decide (id p = cv_id v)
                                       then withCaption (cv_caption v) p else p)
                           (default [] old))) qc j Hne)
      as [Hp Hi].
    destruct (photos_onMutate _ _ qc) as [c qc1]. cbn [snd] in Hp, Hi.
    destruct outcome as [d|e]; cbn [snd photos inspections]; [done |].
    destruct (photos_onError_other (cv_inspection_id v) (Some c) qc1 j Hne)
      as [Hp' Hi']. by rewrite Hp', Hi'.
  - destruct (photos_onMutate_other i
                (fun old => Some (default [] old ++ optimistic)) qc j Hne)
      as [Hp Hi].
    destruct (photos_onMutate _ _ qc) as [c qc1]. cbn [snd] in Hp, Hi.
    destruct outcomes as [d|e];
      cbn [fst snd photos inspections fmap option_fmap option_map].
    + by rewrite setQueryData_lookup_ne.
    + destruct (photos_onError_other i (Some c) qc1 j Hne) as [Hp' Hi'].
      by rewrite Hp', Hi'.
Qed.

(** X22: a failed photo mutation whose list had data when it started
    puts that list back. After [useUploadPhoto], [useDeletePhoto] or
    [useUpdatePhotoCaption] has rejected, the list of the inspection is
    the list before the mutation, and the error is the one of the
    remote write. *)
Theorem failed_photo_mutation_restores_data qc e (newPhoto photo : Photo)
    (v : CaptionVars) l1 l2 l3 :
  getQueryData (photos qc) (inspection_id newPhoto) = Some l1 ->
  getQueryData (photos qc) (inspection_id photo) = Some l2 ->
  getQueryData (photos qc) (cv_inspection_id v) = Some l3 ->
  let up := mutateAsync upload_onMutate upload_onError upload_onSuccess
              newPhoto (Rejected e) qc in
  let del := mutateAsync delete_onMutate delete_onError (noSuccess (R := Photo))
               photo (Rejected e) qc in
  let cap := mutateAsync caption_onMutate caption_onError (noSuccess (R := Photo))
               v (Rejected e) qc in
  (up.1 = Rejected e
   /\ getQueryData (photos up.2) (inspection_id newPhoto) = Some l1)
  /\ (del.1 = Rejected e
      /\ getQueryData (photos del.2) (inspection_id photo) = Some l2)
  /\ (cap.1 = Rejected e
      /\ getQueryData (photos cap.2) (cv_inspection_id v) = Some l3).
Proof.
  intros Hup Hdel Hcap.
  unfold mutateAsync, upload_onMutate, delete_onMutate, caption_onMutate,
    upload_onError, delete_onError, caption_onError, photos_onMutate,
    photos_onError.
  rewrite !getQueryData_cancelQuery, Hup, Hdel, Hcap.
  cbn [fst snd photos inspections].
  by rewrite !getQueryData_set_eq.
Qed.

Lemma failed_photo_mutation_restores_witness :
  getQueryData
    (photos (mutateAsync delete_onMutate delete_onError (noSuccess (R := Photo))
               (mkPhoto "a" "i" EmptyString None 0)
               (Rejected (ApiError "/kv/delete"))
               (mkClient ∅
                  {[ "i" := mkQuery (Some [mkPhoto "a" "i" EmptyString None 0])
                              false ]})).2) "i"
  = Some [mkPhoto "a" "i" EmptyString None 0].
Proof.
  refine (proj2 (proj1 (proj2 (failed_photo_mutation_restores_data
            (mkClient ∅
               {[ "i" := mkQuery (Some [mkPhoto "a" "i" EmptyString None 0])
                           false ]})
            (ApiError "/kv/delete")
            (mkPhoto "tmp" "i" "data:A" None 0)
            (mkPhoto "a" "i" EmptyString None 0)
            (mkCaptionVars "a" "c" "i") _ _ _ _ _ _)))).
  - vm_compute. reflexivity.
  - vm_compute. reflexivity.
  - vm_compute. reflexivity.
Defined.

Lemma photo_mutations_isolation_witness :
  photos (mutateAsync delete_onMutate delete_onError (noSuccess (R := Photo))
            (mkPhoto "a" "i" EmptyString None 0)
            (Rejected (ApiError "/kv/delete"))
            (mkClient ∅ {[ "j" := mkQuery (Some []) true ]})).2 !! "j"
  = Some (mkQuery (Some []) true).
Proof.
  refine (proj1 (proj1 (proj2 (photo_mutations_touch_their_inspection_only
            (mkClient ∅ {[ "j" := mkQuery (Some []) true ]}) "j"
            (mkPhoto "tmp" "i" "data:A" None 0)
            (mkPhoto "a" "i" EmptyString None 0)
            (mkCaptionVars "a" "c" "i") "i" []
            (Rejected (ApiError "/kv/delete"))
            (Rejected (ApiError "/kv/set")))) _)).
  discriminate.
Defined.

(** X23: the optimistic update of [useUpdateInspectionItem] changes, in
    every cached inspection that has its items, the items with the
    identifier of the mutation and no other: the list keeps its length
    and its order, an item with another identifier is what it was, an
    item with the identifier has the fields of the update and keeps the
    others. A query without data gets none, every fetch in flight of an
    inspection query is stopped, and the photo queries are not
    touched. *)
Theorem item_update_changes_that_item_only v x qc key :
  let r := mutateAsync updateItem_onMutate updateItem_onError
             updateItem_onSuccess v (Fulfilled x) qc in
  (forall d its,
     getQueryData (inspections qc) key = Some d -> items d = Some its ->
     exists its',
       getQueryData (inspections r.2) key
       = Some (mkInspection (summary d) (Some its'))
       /\ length its' = length its
       /\ forall n item, its !! n = Some item ->
            its' !! n
            = Some (if decide (item_id item = v.1)
                    then applyUpdates item v.2 else item))
  /\ (getQueryData (inspections qc) key = None ->
      getQueryData (inspections r.2) key = None)
  /\ (forall q, inspections r.2 !! key = Some q -> fetching q = false)
  /\ photos r.2 = photos qc.
Proof.
  cbn zeta. unfold mutateAsync, updateItem_onMutate, updateItem_onSuccess.
  cbn [fst snd inspections photos].
  assert (Hdata : getQueryData
                    (setQueriesData (cancelQueries (inspections qc))
                       (itemTransform v.1 v.2)) key
                  = itemTransform v.1 v.2 (getQueryData (inspections qc) key)).
  { rewrite setQueriesData_data. unfold cancelQueries, getQueryData.
    rewrite lookup_fmap. destruct (inspections qc !! key) as [q|]; [| done].
    cbn [fmap option_fmap option_map mbind option_bind data].
    destruct (data q) as [d|]; [| done]. cbn [itemTransform].
    by destruct (items d). }
  split; [| split; [| split; [| done]]].
  - intros d its Hd Hits. rewrite Hdata, Hd. cbn [itemTransform]. rewrite Hits.
    eexists. split; [reflexivity |]. split; [apply length_map |].
    intros n item Hn. rewrite list_lookup_fmap, Hn. done.
  - intros Hnone. by rewrite Hdata, Hnone.
  - intros q. unfold setQueriesData.
    assert (Hgen : forall (l : list (string * Query InspectionData))
                          (qs : gmap string (Query InspectionData)),
              (forall q0, qs !! key = Some q0 -> fetching q0 = false) ->
              forall q0,
                foldl (fun qs kq => setQueryData qs kq.1 (itemTransform v.1 v.2))
                  qs l !! key = Some q0 -> fetching q0 = false).
    { clear. induction l as [|[k y] l IH]; intros qs Hqs q0; [apply Hqs |].
      cbn [foldl fst]. apply IH. intros q1. unfold setQueryData.
      destruct (itemTransform _ _ _) as [d|]; [| apply Hqs].
      destruct (decide (k = key)) as [->|Hne].
      - rewrite lookup_insert_eq. intros [= <-]. cbn [fetching].
        destruct (qs !! key) as [q2|] eqn:Hq2; [by apply Hqs | done].
      - rewrite lookup_insert_ne by done. apply Hqs. }
    apply Hgen. intros q0. unfold cancelQueries. rewrite lookup_fmap.
    destruct (inspections qc !! key) as [q1|]; [| done].
    by intros [= <-].
Qed.

End MutationHookFacts.

(** ** More facts about the debounce *)

Module DebounceOrderFacts.
Import Debounce DebounceStates DebounceFacts.

Lemma run_snoc evs ev p : run (evs ++ [ev]) p = step (run evs p) ev.
Proof. unfold run. by rewrite foldl_app. Qed.

Lemma run_Inv evs : Inv (run evs initialPage).
Proof.
  induction evs as [|ev evs IH] using rev_ind; [apply initialPage_Inv |].
  rewrite run_snoc. by apply step_Inv.
Qed.

Lemma short_when_all_equal {A} (l : list A) :
  NoDup l -> (forall x y, x ∈ l -> y ∈ l -> x = y) -> (length l <= 1)%nat.
Proof.
  destruct l as [|x [|y l]]; simpl; [lia | lia |].
  intros Hnd Hall. exfalso.
  apply NoDup_cons in Hnd as [Hx _]. apply Hx.
  rewrite (Hall x y); [left | left | right; left].
Qed.

Lemma Inv_one_timer K p : Inv p -> (length (pendingFor K p) <= 1)%nat.
Proof.
  intros [Hnd Hfresh Hreg Hlive]. apply short_when_all_equal.
  - unfold pendingFor. apply NoDup_filter. by apply NoDup_fmap_1 in Hnd.
  - intros tm tm' [Hk Hin]%list_elem_of_filter [Hk' Hin']%list_elem_of_filter.
    apply (same_handle (timers p)); [done..|].
    pose proof (Hreg tm Hin) as H1. pose proof (Hreg tm' Hin') as H2.
    rewrite Hk in H1. rewrite Hk' in H2. congruence.
Qed.

(** X24: however the edits are timed, at most one debounce timer waits
    for a field at any moment: after any sequence of edits, and after
    any further passage of time, the waiting timers of a field key are
    none or one. *)
Theorem at_most_one_timer_per_field evs K T :
  (length (pendingFor K (run evs initialPage)) <= 1)%nat
  /\ (length (pendingFor K (advance T (run evs initialPage))) <= 1)%nat.
Proof.
  split; apply Inv_one_timer; [| apply advance_Inv]; apply run_Inv.
Qed.

Lemma advance_LastWins K last now p :
  LastWins K last p -> LastWins K last (advance now p).
Proof.
  unfold LastWins. rewrite advance_pendingFor, advance_writesFor.
  destruct last as [ev|].
  - intros [[h Hpend] | [Hpend Hw]].
    + rewrite Hpend.
      destruct (decide (now < time ev + 500)) as [Hlt|Hge].
      * left. exists h. by rewrite filter_cons_True, filter_nil.
      * right. rewrite filter_cons_False, filter_nil by done.
        split; [done |].
        rewrite filter_cons_True, filter_nil by (cbn [deadline]; lia).
        done.
    + right. by rewrite Hpend, !filter_nil.
  - intros [Hpend Hw]. by rewrite Hpend, Hw, !filter_nil.
Qed.

Lemma step_LastWins K last p ev :
  Inv p -> LastWins K last p ->
  LastWins K (if decide (editKey ev = K) then Some ev else last) (step p ev).
Proof.
  intros Hinv Hlw. unfold step.
  pose proof (advance_Inv (time ev) p Hinv) as Hinv'.
  pose proof (advance_LastWins K last (time ev) p Hlw) as Hlw'.
  set (q := advance (time ev) p) in *.
  unfold LastWins.
  rewrite handleTextUpdate_pendingFor by done.
  unfold writesFor. rewrite handleTextUpdate_writes. fold (writesFor K q).
  unfold editKey. destruct (decide (fieldKey (e_itemId ev) (e_field ev) = K)).
  - left. by eexists.
  - exact Hlw'.
Qed.

Lemma run_LastWins K evs :
  LastWins K (latest K None evs) (run evs initialPage).
Proof.
  induction evs as [|ev evs IH] using rev_ind; [by split |].
  rewrite run_snoc. unfold latest. rewrite foldl_app. cbn [foldl].
  apply step_LastWins; [apply run_Inv | exact IH].
Qed.

(** X25: the last value typed into a field is the one that stays
    written, however the edits are timed. Once 500 ms have passed since
    the latest edit of a field, no timer of the field waits and the
    most recent write of the field carries the value of that edit. *)
Theorem last_edit_is_written_last K evs ev T :
  latest K None evs = Some ev ->
  time ev + 500 <= T ->
  pendingFor K (advance T (run evs initialPage)) = []
  /\ head (writesFor K (advance T (run evs initialPage)))
     = Some (mkWrite (e_itemId ev) (e_field ev) (e_value ev)).
Proof.
  intros Hlast HT.
  pose proof (run_LastWins K evs) as Hlw. rewrite Hlast in Hlw.
  rewrite advance_pendingFor, advance_writesFor.
  destruct Hlw as [[h Hpend] | [Hpend Hw]]; rewrite Hpend.
  - rewrite filter_cons_False, filter_nil by (cbn [deadline]; lia).
    rewrite filter_cons_True, filter_nil by (cbn [deadline]; lia).
    done.
  - by rewrite !filter_nil.
Qed.

Lemma last_edit_witness :
  head (writesFor (fieldKey "item1" Notes)
          (advance 2000
             (run [mkEdit 0 "item1" Notes "a";
                   mkEdit 900 "item1" Notes "ab"] initialPage)))
  = Some (mkWrite "item1" Notes "ab").
Proof.
  refine (proj2 (last_edit_is_written_last (fieldKey "item1" Notes)
                   [mkEdit 0 "item1" Notes "a"; mkEdit 900 "item1" Notes "ab"]
                   (mkEdit 900 "item1" Notes "ab") 2000 _ _)).
  - vm_compute. reflexivity.
  - vm_compute. discriminate.
Defined.

Lemma foldl_fire_writes p l :
  writes (foldl fire p l) = reverse (toWrite <$> l) ++ writes p.
Proof.
  revert p. induction l as [|x l IH]; intros p; [done |].
  cbn [foldl]. rewrite IH. cbn [fire writes].
  rewrite fmap_cons, reverse_cons, <- app_assoc. done.
Qed.

Lemma filter_split_length {A} (P Q : A -> Prop) `{!forall x, Decision (P x)}
    `{!forall x, Decision (Q x)} (l : list A) :
  (forall x, P x <-> ~ Q x) ->
  (length (filter P l) + length (filter Q l) = length l)%nat.
Proof.
  intros HPQ. induction l as [|x l IH]; [done |].
  rewrite !filter_cons.
  destruct (decide (P x)) as [HP|HP], (decide (Q x)) as [HQ|HQ]; simpl.
  - by apply HPQ in HP.
  - lia.
  - lia.
  - exfalso. apply HP, HPQ, HQ.
Qed.

Lemma fromEdit_mono evs ev i f v : fromEdit evs i f v -> fromEdit (evs ++ [ev]) i f v.
Proof.
  intros (e0 & Hin & H). exists e0. split; [| done].
  apply elem_of_app. by left.
Qed.

Lemma advance_Origin evs now p : Origin evs p -> Origin evs (advance now p).
Proof.
  intros (Ht & Hw & Hlen). unfold Origin.
  rewrite advance_timers. unfold advance.
  rewrite foldl_fire_writes. cbn [writes].
  split; [| split].
  - intros tm [_ Hin]%list_elem_of_filter. by apply Ht.
  - intros w [Hin|Hin]%elem_of_app; [| by apply Hw].
    apply elem_of_reverse, list_elem_of_fmap in Hin as (tm & -> & Hin).
    apply list_elem_of_filter in Hin as [_ Hin]. by apply Ht.
  - rewrite length_app, length_reverse, length_fmap.
    pose proof (filter_split_length (fun tm => now < deadline tm)
                  (fun tm => deadline tm <= now) (timers p)) as Hsplit.
    rewrite <- Hsplit in Hlen by (intros x; lia). lia.
Qed.

Lemma step_Origin evs p ev : Origin evs p -> Origin (evs ++ [ev]) (step p ev).
Proof.
  intros Ho. apply (advance_Origin evs (time ev)) in Ho.
  unfold step. set (q := advance (time ev) p) in *.
  destruct Ho as (Ht & Hw & Hlen). unfold Origin.
  rewrite handleTextUpdate_writes.
  assert (Hsub : forall tm,
            tm ∈ timers match debounceTimers q !! fieldKey (e_itemId ev) (e_field ev) with
                        | Some h => clearTimeout h q
                        | None => q
                        end -> tm ∈ timers q).
  { intros tm. destruct (debounceTimers q !! _); [| done].
    cbn [clearTimeout timers]. by intros [_ Hin]%list_elem_of_filter. }
  assert (Hlen' : (length (timers match debounceTimers q
                                       !! fieldKey (e_itemId ev) (e_field ev) with
                                 | Some h => clearTimeout h q
                                 | None => q
                                 end) <= length (timers q))%nat).
  { destruct (debounceTimers q !! _); [| done].
    cbn [clearTimeout timers]. apply length_filter. }
  unfold handleTextUpdate. cbn [timers].
  split; [| split].
  - intros tm Hin. rewrite enqueue_perm in Hin.
    apply elem_of_cons in Hin as [->|Hin].
    + exists ev. split; [| done]. apply elem_of_app. right. left.
    + by apply fromEdit_mono, Ht, Hsub.
  - intros w Hin. by apply fromEdit_mono, Hw.
  - rewrite (Permutation_length (enqueue_perm _ _)), length_app. simpl. lia.
Qed.

Lemma run_Origin evs : Origin evs (run evs initialPage).
Proof.
  induction evs as [|ev evs IH] using rev_ind.
  - split; [| split]; [by intros tm ?%not_elem_of_nil
                      | by intros w ?%not_elem_of_nil | done].
  - rewrite run_snoc. by apply step_Origin.
Qed.

(** X26: the debounce writes nothing that was not typed, and no more
    often than was typed. At any time after any sequence of edits,
    every write issued carries the item, the field and the value of one
    of the edits, and the writes are no more than the edits. *)
Theorem writes_come_from_edits evs T :
  (forall w, w ∈ writes (advance T (run evs initialPage)) ->
     exists ev, ev ∈ evs
                /\ w = mkWrite (e_itemId ev) (e_field ev) (e_value ev))
  /\ (length (writes (advance T (run evs initialPage))) <= length evs)%nat.
Proof.
  destruct (advance_Origin evs T _ (run_Origin evs)) as (_ & Hw & Hlen).
  split; [| lia].
  intros w Hin. destruct (Hw w Hin) as (ev & Hev & Hi & Hf & Hv).
  exists ev. split; [done |]. destruct w. cbn in *. congruence.
Qed.

End DebounceOrderFacts.

(** ** More facts about the batch fetch *)

Module BatchFetchMoreFacts.
Import PhotoCache KvStore BatchFetch PhotoCacheFacts BatchFetchFacts.

Lemma mget_table net keys r : table (mget net keys r).2 = table r.
Proof.
  destruct keys as [|k keys]; [done |].
  unfold mget, apiCall. by destruct (net _).
Qed.

(** X27: [batchFetchPhotoData] only reads the remote store: whatever
    the cache, the network and the clock do, and whether it fulfils or
    rejects, the remote table after the call is the table before. *)
Theorem batch_fetch_never_writes_remote m net now now' i ids w :
  table (remote (batchFetchPhotoData m net now now' i ids w).2)
  = table (remote w).
Proof.
  destruct ids as [|id0 ids]; [done |].
  unfold batchFetchPhotoData, async, tryCatch, await, onCache, onRemote.
  rewrite batchGet_hits. cbn [cache remote].
  destruct (filter _ (id0 :: ids)) as [|x rest]; [done |].
  pose proof (mget_table net (map (photoData i) (x :: rest)) (remote w)) as Ht.
  destruct (mget net _ (remote w)) as [[vs|e] r']; cbn [cache remote fst snd] in *;
    [| done].
  destruct (storeFetched _ _ _ _ _ _) as [[[]|e] st']; by cbn [fst snd remote].
Qed.

(** X28: when some requested photo misses the cache and the batch
    request fails, [batchFetchPhotoData] rejects with the error of
    [/kv/mget]; nothing has been written to the cache, and the one
    request is all that the remote store has seen. *)
Theorem batch_fetch_request_failure m net now now' i ids w x rest :
  filter (fun id => cacheHits m now i ids (cache w) !! id = None) ids
  = x :: rest ->
  net (CallMget (map (photoData i) (x :: rest))) = true ->
  batchFetchPhotoData m net now now' i ids w
  = (Rejected (ApiError "/kv/mget"),
     mkWorld (cache w)
       (mkRemote (table (remote w))
          (CallMget (map (photoData i) (x :: rest)) :: calls (remote w)))).
Proof.
  intros Hmiss Hnet. destruct ids as [|id0 ids]; [done |].
  unfold batchFetchPhotoData, async, tryCatch, await, onCache, onRemote.
  rewrite batchGet_hits. cbn [cache remote]. rewrite Hmiss.
  unfold mget, apiCall. cbn [map] in *. by rewrite Hnet.
Qed.

Lemma batch_fetch_request_failure_witness :
  batchFetchPhotoData healthy (fun _ => true) 5 6 "i" ["a"; "b"] demoWorld
  = (Rejected (ApiError "/kv/mget"),
     mkWorld (cache demoWorld)
       (mkRemote (table (remote demoWorld))
          [CallMget [photoData "i" "b"]])).
Proof.
  apply (batch_fetch_request_failure healthy (fun _ => true) 5 6 "i"
           ["a"; "b"] demoWorld "b" []).
  - vm_compute. reflexivity.
  - reflexivity.
Defined.

(** X29: for a list of any length, on a healthy cache and an answering
    network, [batchFetchPhotoData] returns, in the order of the input,
    what the cache or else the remote store holds for each identifier
    and omits the identifiers that neither holds: the result is never
    longer than the input and is as long exactly when every identifier
    was found. *)
Theorem batch_fetch_omits_exactly_the_absent m net now now' i ids w :
  Healthy m ->
  (forall call, net call = false) ->
  let f := found (cacheHits m now i ids (cache w)) (table (remote w)) i in
  (batchFetchPhotoData m net now now' i ids w).1 = Fulfilled (omap f ids)
  /\ (length (omap f ids) <= length ids)%nat
  /\ (length (omap f ids) = length ids <-> forall id, id ∈ ids -> is_Some (f id)).
Proof.
  intros Hm Hnet f.
  destruct (batch_fetch_fulfils m net now now' i ids w Hm Hnet)
    as [result Hres].
  rewrite Hres. rewrite (batch_fetch_result _ _ _ _ _ _ _ _ Hres). fold f.
  split; [done |]. clearbody f. clear.
  induction ids as [|id ids (IHle & IHeq)].
  { split; [done |]. split; [| done]. by intros _ id ?%not_elem_of_nil. }
  cbn [omap list_omap]. destruct (f id) as [v|] eqn:Hf; cbn [length].
  - split; [lia |]. split.
    + intros Hlen id' [->|Hin]%elem_of_cons; [by rewrite Hf |].
      apply IHeq; [lia | done].
    + intros Hall. f_equal. apply IHeq. intros id' Hin. apply Hall. by right.
  - split; [lia |]. split; [lia |].
    intros Hall. specialize (Hall id (list_elem_of_here _ _)).
    rewrite Hf in Hall. by destruct Hall.
Qed.

Lemma batch_fetch_omits_witness :
  (batchFetchPhotoData healthy online 5 6 "i" ["a"; "b"; "c"; "a"] demoWorld).1
  = Fulfilled [stub "a" "data:A"; VPhoto photoB; stub "a" "data:A"].
Proof.
  exact (proj1 (batch_fetch_omits_exactly_the_absent healthy online 5 6 "i"
                  ["a"; "b"; "c"; "a"] demoWorld healthy_Healthy
                  (fun _ => eq_refl))).
Defined.

End BatchFetchMoreFacts.

(** ** Facts about the dynamic template *)

Module TemplateFacts.
Import Templates.













Lemma length_roomSections f rooms :
  length (roomSections f rooms) = Z.to_nat rooms.
Proof. unfold roomSections. by rewrite length_map, length_seq. Qed.




End TemplateFacts.

(** ** Facts about overlapping calls of [set] *)

Module OverlapFacts.
Import PhotoCache Overlap PhotoCacheFacts.

(** A call that runs its transactions with no other call between them
    is the [set] of the sequential model. *)
Lemma advanceSet_alone c (st : Store) :
  let '(s1, st1) := advanceSet c ToRead st in
  let '(s2, st2) := advanceSet c s1 st1 in
  let '(s3, st3) := advanceSet c s2 st2 in
  (s3, st3)
  = (Over (set (sc_medium c) (sc_now c) (sc_inspectionId c) (sc_photoId c)
             (sc_dataUrl c) st).1,
     (set (sc_medium c) (sc_now c) (sc_inspectionId c) (sc_photoId c)
        (sc_dataUrl c) st).2).
Proof.
  unfold advanceSet, set, getTotalSize, cleanOldest. unfold_async.
  destruct (dbOpens (sc_medium c)); cbn [fst snd]; [| done].
  destruct (fails (sc_medium c) ReqGetAll); cbn [fst snd]; [done |].
  destruct (maxSizeBytes <? _)%N; cbn [fst snd].
  - destruct (fails (sc_medium c) ReqIndexCursor); cbn [fst snd]; [done |].
    by destruct (fails (sc_medium c) (ReqPut _)).
  - by destruct (fails (sc_medium c) (ReqPut _)).
Qed.

Lemma advanceSet_read_fits c (st : Store) :
  Healthy (sc_medium c) ->
  (totalSize st + blobSize (sc_dataUrl c) <= maxSizeBytes)%N ->
  advanceSet c ToRead st = (ToPut, st).
Proof.
  intros [Hopen Hfail] Hfits. unfold advanceSet, getTotalSize. unfold_async.
  rewrite Hopen, Hfail. cbn [fst snd].
  apply N.ltb_ge in Hfits. by rewrite Hfits.
Qed.

Lemma advanceSet_put c (st : Store) :
  Healthy (sc_medium c) ->
  advanceSet c ToPut st
  = (Over (Fulfilled tt),
     <[cacheKey (sc_inspectionId c) (sc_photoId c) :=
         mkCached (cacheKey (sc_inspectionId c) (sc_photoId c)) (sc_dataUrl c)
           (sc_now c) (blobSize (sc_dataUrl c))]> st).
Proof.
  intros [Hopen Hfail]. unfold advanceSet, request. by rewrite Hfail.
Qed.

(** Beside C1, where the code misses the bound that it attempts: two
    calls of [set] that overlap. Each payload fits beside what is stored, so when both
    calls have read the total before either has written, neither check
    fires, no record is evicted, both calls fulfil, and the store holds
    both new records beside the old ones: the total is the old total
    plus both sizes, above [maxSizeBytes] whenever the two payloads do
    not fit together. The check that [set] makes is the attempt at the
    bound; it is made on a total that is stale by the time of the
    [put]. *)
Theorem overlapped_sets_exceed_budget c1 c2 (st : Store) :
  Healthy (sc_medium c1) -> Healthy (sc_medium c2) ->
  cacheKey (sc_inspectionId c1) (sc_photoId c1)
  <> cacheKey (sc_inspectionId c2) (sc_photoId c2) ->
  st !! cacheKey (sc_inspectionId c1) (sc_photoId c1) = None ->
  st !! cacheKey (sc_inspectionId c2) (sc_photoId c2) = None ->
  (totalSize st + blobSize (sc_dataUrl c1) <= maxSizeBytes)%N ->
  (totalSize st + blobSize (sc_dataUrl c2) <= maxSizeBytes)%N ->
  (maxSizeBytes
   < totalSize st + blobSize (sc_dataUrl c1) + blobSize (sc_dataUrl c2))%N ->
  let r := runSchedule [0; 1; 0; 1]%nat ([(c1, ToRead); (c2, ToRead)], st) in
  r.1 = [(c1, Over (Fulfilled tt)); (c2, Over (Fulfilled tt))]
  /\ (forall k e, st !! k = Some e -> r.2 !! k = Some e)
  /\ totalSize r.2
     = (totalSize st + blobSize (sc_dataUrl c1) + blobSize (sc_dataUrl c2))%N
  /\ (maxSizeBytes < totalSize r.2)%N.
Proof.
  intros H1 H2 Hne Hk1 Hk2 Hfit1 Hfit2 Hover r.
  set (k1 := cacheKey (sc_inspectionId c1) (sc_photoId c1)) in *.
  set (k2 := cacheKey (sc_inspectionId c2) (sc_photoId c2)) in *.
  set (e1 := mkCached k1 (sc_dataUrl c1) (sc_now c1) (blobSize (sc_dataUrl c1))).
  set (e2 := mkCached k2 (sc_dataUrl c2) (sc_now c2) (blobSize (sc_dataUrl c2))).
  assert (Hr : r = ([(c1, Over (Fulfilled tt)); (c2, Over (Fulfilled tt))],
                    <[k2 := e2]> (<[k1 := e1]> st))).
  { subst r. unfold runSchedule. cbn [foldl].
    unfold stepAt at 4. cbn [fst snd lookup list_lookup].
    rewrite (advanceSet_read_fits c1 st H1 Hfit1). cbn [insert list_insert].
    unfold stepAt at 3. cbn [fst snd lookup list_lookup].
    rewrite (advanceSet_read_fits c2 st H2 Hfit2). cbn [insert list_insert].
    unfold stepAt at 2. cbn [fst snd lookup list_lookup].
    rewrite (advanceSet_put c1 st H1). cbn [insert list_insert].
    unfold stepAt. cbn [fst snd lookup list_lookup].
    rewrite (advanceSet_put c2 _ H2). cbn [insert list_insert].
    reflexivity. }
  assert (Htot : totalSize r.2
                 = (totalSize st + blobSize (sc_dataUrl c1)
                    + blobSize (sc_dataUrl c2))%N).
  { rewrite Hr. cbn [snd].
    rewrite totalSize_insert_fresh by (by rewrite lookup_insert_ne).
    by rewrite totalSize_insert_fresh. }
  split; [by rewrite Hr |]. split; [| split; [exact Htot | by rewrite Htot]].
  intros k e Hk. rewrite Hr. cbn [snd].
  rewrite !lookup_insert_ne; [done | |]; intros <-; congruence.
Qed.

Lemma ninety_state :
  ninety = <["i:a" := mkCached "i:a" payload90 1 94371840]> ∅
  /\ totalSize ninety = 94371840%N.
Proof.
  assert (Hst : ninety = <["i:a" := mkCached "i:a" payload90 1 94371840]> ∅).
  { unfold ninety. rewrite (set_healthy healthy) by apply healthy_Healthy.
    cbn [snd]. rewrite cleaned_empty. unfold payload90.
    rewrite blobSize_filler. reflexivity. }
  split; [exact Hst |]. rewrite Hst. apply totalSize_singleton.
Qed.

Lemma sc_dataUrl_mk m now i p v : sc_dataUrl (mkSetCall m now i p v) = v.
Proof. reflexivity. Qed.

Lemma sc_key_mk m now i p v :
  cacheKey (sc_inspectionId (mkSetCall m now i p v))
    (sc_photoId (mkSetCall m now i p v))
  = cacheKey i p.
Proof. reflexivity. Qed.

Lemma sc_medium_mk m now i p v : sc_medium (mkSetCall m now i p v) = m.
Proof. reflexivity. Qed.

Lemma overlapped_sets_witness :
  (totalSize ninety <= maxSizeBytes)%N
  /\ (blobSize payload8 <= maxSizeBytes)%N
  /\ totalSize
       (runSchedule [0; 1; 0; 1]%nat
          ([(mkSetCall healthy 2 "i" "b" payload8, ToRead);
            (mkSetCall healthy 3 "i" "c" payload8, ToRead)], ninety)).2
     = 111149056%N
  /\ (maxSizeBytes
      < totalSize
          (runSchedule [0; 1; 0; 1]%nat
             ([(mkSetCall healthy 2 "i" "b" payload8, ToRead);
               (mkSetCall healthy 3 "i" "c" payload8, ToRead)], ninety)).2)%N.
Proof.
  destruct ninety_state as [Hst Htot].
  assert (Hv : blobSize payload8 = 8388608%N) by apply blobSize_filler.
  assert (Hmax : maxSizeBytes = 104857600%N) by reflexivity.
  assert (Hne : cacheKey "i" "b" <> cacheKey "i" "c")
    by (vm_compute; discriminate).
  assert (Hk1 : ninety !! cacheKey "i" "b" = None).
  { rewrite Hst. rewrite lookup_insert_ne by (vm_compute; discriminate).
    apply lookup_empty. }
  assert (Hk2 : ninety !! cacheKey "i" "c" = None).
  { rewrite Hst. rewrite lookup_insert_ne by (vm_compute; discriminate).
    apply lookup_empty. }
  assert (Hfit : (totalSize ninety + blobSize payload8 <= maxSizeBytes)%N)
    by (rewrite Htot, Hv, Hmax; lia).
  assert (Hover : (maxSizeBytes
                   < totalSize ninety + blobSize payload8 + blobSize payload8)%N)
    by (rewrite Htot, Hv, Hmax; lia).
  pose proof (overlapped_sets_exceed_budget
                (mkSetCall healthy 2 "i" "b" payload8)
                (mkSetCall healthy 3 "i" "c" payload8) ninety) as H.
  rewrite !sc_dataUrl_mk, !sc_key_mk, !sc_medium_mk in H.
  destruct (H healthy_Healthy healthy_Healthy Hne Hk1 Hk2 Hfit Hfit Hover)
    as (_ & _ & Hsum & Hgt).
  rewrite Htot, Hv in Hsum.
  assert (H90 : (totalSize ninety <= maxSizeBytes)%N)
    by (rewrite Htot, Hmax; lia).
  assert (H8 : (blobSize payload8 <= maxSizeBytes)%N)
    by (rewrite Hv, Hmax; lia).
  exact (conj H90 (conj H8 (conj Hsum Hgt))).
Defined.

End OverlapFacts.

(** ** The debounce, burst by burst *)

Module DebounceBurstFacts.
Import Debounce DebounceBursts DebounceFacts DebounceOrderFacts.

Lemma editKey_editOf i f ev : editKey ev = fieldKey i f <-> editOf i f ev.
Proof.
  unfold editKey, editOf. split.
  - by intros ?%fieldKey_inj.
  - by intros [-> ->].
Qed.

Lemma writesFor_writesOf i f p : writesFor (fieldKey i f) p = writesOf i f p.
Proof.
  unfold writesFor, writesOf. apply list_filter_iff. intros w.
  unfold writeKey. split.
  - by intros ?%fieldKey_inj.
  - by intros [-> ->].
Qed.

Lemma pendingFor_timersOf i f p : pendingFor (fieldKey i f) p = timersOf i f p.
Proof.
  unfold pendingFor, timersOf. apply list_filter_iff. intros tm.
  unfold timerKey. split.
  - by intros ?%fieldKey_inj.
  - by intros [-> ->].
Qed.

(** The state of a field after some of the edits: [prev] is its latest
    edit, [done] the burst ends written before it, [now] the time of
    the latest edit of any field. *)
Lemma bursts_from K i f T :
  K = fieldKey i f ->
  forall evs p prev done now,
    Inv p ->
    StronglySorted (fun a b => time a <= time b) evs ->
    Forall (fun ev => now <= time ev /\ time ev + 500 <= T) evs ->
    match prev with
    | None => pendingFor K p = [] /\ writesFor K p = reverse (writeOf <$> done)
    | Some l =>
        time l + 500 <= T
        /\ ((exists h, pendingFor K p
                       = [mkTimer h (time l + 500) (e_itemId l) (e_field l)
                            (e_value l)])
            /\ writesFor K p = reverse (writeOf <$> done)
            \/ pendingFor K p = []
               /\ writesFor K p = writeOf l :: reverse (writeOf <$> done)
               /\ time l + 500 <= now)
    end ->
    writesFor K (advance T (run evs p))
    = reverse (writeOf <$> (done ++ burstLasts prev (filter (editOf i f) evs)))
    /\ pendingFor K (advance T (run evs p)) = [].
Proof.
  intros HK. induction evs as [|ev evs IH]; intros p prev done now Hinv Hs Hall Hst.
  - cbn [run foldl filter list_filter burstLasts].
    rewrite advance_writesFor, advance_pendingFor.
    destruct prev as [l|].
    + destruct Hst as [HT [[[h Hp] Hw] | (Hp & Hw & _)]]; rewrite Hp, Hw.
      * rewrite filter_cons_True, filter_nil by (cbn [deadline]; lia).
        rewrite filter_cons_False, filter_nil by (cbn [deadline]; lia).
        split; [| done].
        rewrite fmap_app, reverse_app. reflexivity.
      * rewrite !filter_nil. split; [| done].
        rewrite fmap_app, reverse_app. reflexivity.
    + destruct Hst as [Hp Hw]. rewrite Hp, Hw, !filter_nil.
      split; [| done]. by rewrite app_nil_r.
  - apply StronglySorted_inv in Hs as [Hs Hhd].
    apply Forall_cons in Hall as [[Hnow HevT] Hall].
    change (run (ev :: evs) p) with (run evs (step p ev)).
    pose proof (advance_Inv (time ev) p Hinv) as Hinvq.
    assert (Hall' : Forall (fun e => time ev <= time e /\ time e + 500 <= T) evs).
    { apply Forall_forall. intros e He.
      rewrite Forall_forall in Hhd, Hall.
      split; [by apply Hhd | by apply Hall]. }
    assert (Hpend : pendingFor K (step p ev)
                    = if decide (editKey ev = K)
                      then [mkTimer (nextHandle (advance (time ev) p))
                              (time ev + 500) (e_itemId ev) (e_field ev)
                              (e_value ev)]
                      else pendingFor K (advance (time ev) p)).
    { unfold step. by rewrite handleTextUpdate_pendingFor. }
    assert (Hwr : writesFor K (step p ev) = writesFor K (advance (time ev) p)).
    { unfold step, writesFor. by rewrite handleTextUpdate_writes. }
    rewrite advance_pendingFor in Hpend. rewrite advance_writesFor in Hwr.
    rewrite filter_cons.
    destruct (decide (editOf i f ev)) as [Hown|Hother].
    + assert (Hkey : editKey ev = K) by (subst K; by apply editKey_editOf).
      rewrite decide_True in Hpend by done.
      destruct prev as [l|].
      * destruct Hst as [HT [[[h Hp] Hw] | (Hp & Hw & Hfired)]];
          rewrite Hp, Hw in Hwr; cbn [burstLasts].
        -- destruct (time l + 500 <=? time ev) eqn:Hgap.
           ++ apply Z.leb_le in Hgap.
              rewrite filter_cons_True, filter_nil in Hwr by (cbn [deadline]; lia).
              pose proof (IH (step p ev) (Some ev) (done ++ [l]) (time ev)
                            (step_Inv _ _ Hinv) Hs Hall') as Hgoal.
              rewrite <- app_assoc in Hgoal. apply Hgoal.
              split; [done |]. left. split; [by eexists |].
              rewrite Hwr, fmap_app, reverse_app. reflexivity.
           ++ apply Z.leb_gt in Hgap.
              rewrite filter_cons_False, filter_nil in Hwr by (cbn [deadline]; lia).
              apply (IH (step p ev) (Some ev) done (time ev));
                [by apply step_Inv | done | done |].
              split; [done |]. left. split; [by eexists | exact Hwr].
        -- assert (Hgap : (time l + 500 <=? time ev) = true)
             by (apply Z.leb_le; lia).
           rewrite Hgap. rewrite filter_nil in Hwr.
           pose proof (IH (step p ev) (Some ev) (done ++ [l]) (time ev)
                         (step_Inv _ _ Hinv) Hs Hall') as Hgoal.
           rewrite <- app_assoc in Hgoal. apply Hgoal.
           split; [done |]. left. split; [by eexists |].
           rewrite Hwr, fmap_app, reverse_app. reflexivity.
      * destruct Hst as [Hp Hw]. rewrite Hp, Hw, filter_nil in Hwr.
        cbn [burstLasts].
        apply (IH (step p ev) (Some ev) done (time ev));
          [by apply step_Inv | done | done |].
        split; [done |]. left. split; [by eexists | exact Hwr].
    + assert (Hkey : editKey ev <> K).
      { subst K. intros Heq. by apply Hother, editKey_editOf. }
      rewrite decide_False in Hpend by done.
      destruct prev as [l|].
      * destruct Hst as [HT [[[h Hp] Hw] | (Hp & Hw & Hfired)]];
          rewrite Hp in Hpend; rewrite Hp, Hw in Hwr.
        -- destruct (decide (time l + 500 <= time ev)) as [Hdue|Hwait].
           ++ rewrite filter_cons_False, filter_nil in Hpend
                by (cbn [deadline]; lia).
              rewrite filter_cons_True, filter_nil in Hwr
                by (cbn [deadline]; lia).
              apply (IH (step p ev) (Some l) done (time ev));
                [by apply step_Inv | done | done |].
              split; [done |]. right. by split.
           ++ rewrite filter_cons_True, filter_nil in Hpend
                by (cbn [deadline]; lia).
              rewrite filter_cons_False, filter_nil in Hwr
                by (cbn [deadline]; lia).
              apply (IH (step p ev) (Some l) done (time ev));
                [by apply step_Inv | done | done |].
              split; [done |]. left. split; [by exists h | exact Hwr].
        -- rewrite filter_nil in Hpend. rewrite filter_nil in Hwr.
           apply (IH (step p ev) (Some l) done (time ev));
             [by apply step_Inv | done | done |].
           split; [done |]. right. split; [done |]. split; [exact Hwr | lia].
      * destruct Hst as [Hp Hw].
        rewrite Hp, filter_nil in Hpend. rewrite Hp, Hw, filter_nil in Hwr.
        apply (IH (step p ev) None done (time ev));
          [by apply step_Inv | done | done |].
        by split.
Qed.

Lemma oneBurst_lasts prev own :
  oneBurst prev own ->
  burstLasts prev own
  = match last own with
    | Some l => [l]
    | None => match prev with Some l => [l] | None => [] end
    end.
Proof.
  revert prev. induction own as [|ev rest IH]; intros prev Hone; [done |].
  destruct Hone as [Hgap Hrest]. cbn [burstLasts].
  assert (Hnext : burstLasts (Some ev) rest
                  = match last (ev :: rest) with
                    | Some l => [l]
                    | None => match prev with Some l => [l] | None => [] end
                    end).
  { rewrite (IH (Some ev) Hrest). destruct rest as [|ev' rest]; [done |].
    rewrite last_cons_cons, last_cons. by destruct (last rest). }
  destruct prev as [l|]; [| exact Hnext].
  assert (Hlt : (time l + 500 <=? time ev) = false) by (apply Z.leb_gt; lia).
  by rewrite Hlt.
Qed.

(** C6: for the edits of the text fields in the order of time, any
    number of them and of any fields, the writes issued for the field
    [field] of the item [itemId] once 500 ms have passed since the last
    edit are exactly one write for each burst of edits of that field,
    carrying the value of the last edit of the burst, in the order of
    the bursts: a sequence of one or more edits of the field, each less
    than 500 ms after the one before, gives exactly one write, with the
    last value. No timer of the field is left waiting. At no moment does
    more than one timer of the field wait, after whichever of the edits:
    an edit of the field clears the timer that waits before it sets its
    own. The writes of the field are fixed by the edits of that (item,
    field) pair alone, and an edit of another pair changes neither the
    timers nor the writes of the field. *)
Theorem debounce_writes_once_per_burst evs i f T :
  inOrder evs ->
  Forall (fun ev => time ev + 500 <= T) evs ->
  let p := advance T (run evs initialPage) in
  writesOf i f p
  = reverse (writeOf <$> burstLasts None (filter (editOf i f) evs))
  /\ timersOf i f p = []
  /\ (forall own l,
        filter (editOf i f) evs = own ++ [l] -> oneBurst None (own ++ [l]) ->
        writesOf i f p = [writeOf l])
  /\ (forall n, (length (timersOf i f (run (take n evs) initialPage)) <= 1)%nat)
  /\ (forall q now i' f' v,
        Inv q -> ~ (i' = i /\ f' = f) ->
        timersOf i f (handleTextUpdate now i' f' v q) = timersOf i f q
        /\ writesOf i f (handleTextUpdate now i' f' v q) = writesOf i f q).
Proof.
  intros Hs HT p.
  assert (Hmain : writesFor (fieldKey i f) p
                  = reverse (writeOf <$> burstLasts None (filter (editOf i f) evs))
                  /\ pendingFor (fieldKey i f) p = []).
  { subst p.
    apply (bursts_from (fieldKey i f) i f T eq_refl evs initialPage None []
             (match evs with [] => 0 | ev :: _ => time ev end));
      [apply initialPage_Inv | exact Hs | | by split].
    destruct evs as [|ev evs]; [constructor |].
    apply StronglySorted_inv in Hs as [_ Hhd].
    apply Forall_cons in HT as [HevT HT].
    constructor; [split; [lia | done] |].
    apply Forall_forall. intros e He. rewrite Forall_forall in Hhd, HT.
    split; [by apply Hhd | by apply HT]. }
  destruct Hmain as [Hw Hp].
  rewrite writesFor_writesOf in Hw. rewrite pendingFor_timersOf in Hp.
  split; [exact Hw |]. split; [exact Hp |]. split; [| split].
  - intros own l Hown Hone. rewrite Hw, Hown.
    rewrite (oneBurst_lasts None _ Hone), last_snoc. reflexivity.
  - intros n. rewrite <- pendingFor_timersOf. apply Inv_one_timer, run_Inv.
  - intros q now i' f' v Hq Hne.
    assert (Hk : fieldKey i' f' <> fieldKey i f).
    { intros Heq. by apply Hne, fieldKey_inj. }
    rewrite <- !pendingFor_timersOf, <- !writesFor_writesOf. split.
    + rewrite handleTextUpdate_pendingFor by done. by rewrite decide_False.
    + unfold writesFor. by rewrite handleTextUpdate_writes.
Qed.

Lemma debounce_writes_once_per_burst_witness :
  inOrder twoBursts
  /\ writesOf "item1" Notes (advance 2000 (run twoBursts initialPage))
     = [mkWrite "item1" Notes "abcd"; mkWrite "item1" Notes "ab"].
Proof.
  assert (Hs : inOrder twoBursts).
  { unfold inOrder, twoBursts. repeat constructor; cbn [time]; lia. }
  assert (HT : Forall (fun ev => time ev + 500 <= 2000) twoBursts).
  { unfold twoBursts. repeat constructor; cbn [time]; lia. }
  split; [exact Hs |].
  exact (proj1 (debounce_writes_once_per_burst twoBursts "item1" Notes 2000
                  Hs HT)).
Defined.

End DebounceBurstFacts.

(** ** Facts about deletes that fail in part or overlap *)

Module DeleteOverlapFacts.
Import PhotoCache KvStore BatchFetch PhotoStore DeleteOverlap PhotoCacheFacts.

(** The [mutationFn] is its read followed by its writes. *)
Lemma deletePhoto_read_write m net photo w :
  deletePhoto m net photo w
  = async (await (deletePhoto_read net photo w) (deletePhoto_write m net photo)).
Proof. reflexivity. Qed.

Lemma delete_healthy m i p (st : Store) :
  Healthy m -> PhotoCache.delete m i p st = (Fulfilled tt, base.delete (cacheKey i p) st).
Proof.
  intros [Hopen Hfail]. unfold PhotoCache.delete. unfold_async.
  by rewrite Hopen, Hfail.
Qed.

(** C8, evaluated where the code departs from it. The index write and
    the delete of the full record are two requests of one
    [Promise.all], neither waiting for the other. First: when the
    write of the index fails and the delete of the record is served,
    the mutation rejects, the full record is gone and the index still
    lists the photo. Second: when two deletes of photos of one
    inspection overlap, both read the index before either writes it;
    both fulfil, the index written last is the list that the second
    read without the second photo, so it lists the first photo again,
    whose full record is deleted. In both cases the index has an entry
    without a full record. *)
Theorem delete_photo_can_leave_dangling_entry
    m net m' net' (photo other : Photo) ps w :
  table (remote w) !! photoIndex (inspection_id photo) = Some (VPhotos ps) ->
  (exists entry, entry ∈ ps /\ id entry = id photo) ->
  net (CallGet (photoIndex (inspection_id photo))) = false ->
  (forall v, net (CallSet (photoIndex (inspection_id photo)) v) = true) ->
  net (CallDelete (photoData (inspection_id photo) (id photo))) = false ->
  Healthy m' ->
  (forall c, net' c = false) ->
  inspection_id other = inspection_id photo ->
  id other <> id photo ->
  let i := inspection_id photo in
  let one := deletePhoto m net photo w in
  let two := overlappedDeletes m' net' photo other w in
  (one.1 = Rejected (ApiError "/kv/set")
   /\ table (remote one.2) !! photoData i (id photo) = None
   /\ table (remote one.2) !! photoIndex i = Some (VPhotos ps)
   /\ ~ noDangling i (table (remote one.2)))
  /\ (two.1 = (Fulfilled photo, Fulfilled other)
      /\ table (remote two.2) !! photoData i (id photo) = None
      /\ table (remote two.2) !! photoIndex i
         = Some (VPhotos (filter (fun p => id p <> id other) ps))
      /\ ~ noDangling i (table (remote two.2))).
Proof.
  intros Hidx (entry & Hin & Hid) Hget Hset Hdel Hm' Hnet' Hsame Hdiff i one two.
  split.
  - assert (Hone : one = (Rejected (ApiError "/kv/set"),
                          (deletePhoto m net photo w).2)
                   /\ table (remote one.2)
                      = base.delete (photoData i (id photo)) (table (remote w))).
    { subst one. unfold deletePhoto, async, tryCatch, await, onRemote, onCache,
        kvGet, kvSet, kvDelete, apiCall.
      rewrite Hget. cbn [serve mapSettled remote cache table]. rewrite Hidx.
      cbn [indexOf]. rewrite Hset. cbn [serve mapSettled remote cache table].
      rewrite Hdel. cbn [serve mapSettled remote cache table].
      destruct (PhotoCache.delete m _ (id photo) (cache w)) as [p3 st'].
      cbn [promiseAll3 fst snd remote table]. by split. }
    destruct Hone as [Hr Ht].
    assert (Hgone : table (remote one.2) !! photoData i (id photo) = None)
      by (rewrite Ht; apply lookup_delete_eq).
    assert (Hlist : table (remote one.2) !! photoIndex i = Some (VPhotos ps)).
    { rewrite Ht, lookup_delete_ne; [exact Hidx |].
      intros Heq. symmetry in Heq.
      by apply PhotoStoreFacts.photoIndex_photoData in Heq. }
    split; [by rewrite Hr |]. split; [exact Hgone |]. split; [exact Hlist |].
    intros Hnd. destruct (Hnd ps entry Hlist Hin) as [q Hq].
    rewrite Hid in Hq. congruence.
  - assert (Htwo : two.1 = (Fulfilled photo, Fulfilled other)
                   /\ table (remote two.2)
                      = base.delete (photoData i (id other))
                          (<[photoIndex i :=
                               VPhotos (filter (fun p => id p <> id other) ps)]>
                             (base.delete (photoData i (id photo))
                                (<[photoIndex i :=
                                     VPhotos (filter (fun p => id p <> id photo) ps)]>
                                   (table (remote w)))))).
    { subst two. unfold overlappedDeletes, deletePhoto_read, deletePhoto_write,
        async, tryCatch, await, onRemote, onCache, kvGet, kvSet, kvDelete,
        apiCall.
      rewrite Hsame. rewrite !Hnet'.
      cbn [serve mapSettled remote cache table]. rewrite Hidx.
      cbn [indexOf]. rewrite !Hnet'.
      cbn [serve mapSettled remote cache table].
      repeat (rewrite (delete_healthy m') by done;
              cbn [promiseAll3 fst snd remote table cache]).
      by split. }
    destruct Htwo as [Hr Ht].
    assert (Hgone : table (remote two.2) !! photoData i (id photo) = None).
    { rewrite Ht. rewrite lookup_delete_ne.
      - rewrite lookup_insert_ne
          by apply PhotoStoreFacts.photoIndex_photoData.
        apply lookup_delete_eq.
      - intros Heq. apply PhotoStoreFacts.photoData_same_inspection in Heq.
        by apply Hdiff. }
    assert (Hlist : table (remote two.2) !! photoIndex i
                    = Some (VPhotos (filter (fun p => id p <> id other) ps))).
    { rewrite Ht, lookup_delete_ne; [apply lookup_insert_eq |].
      intros Heq. symmetry in Heq.
      by apply PhotoStoreFacts.photoIndex_photoData in Heq. }
    split; [exact Hr |]. split; [exact Hgone |]. split; [exact Hlist |].
    intros Hnd.
    destruct (Hnd _ entry Hlist) as [q Hq].
    + apply list_elem_of_filter. split; [| done]. rewrite Hid. congruence.
    + rewrite Hid in Hq. congruence.
Qed.

Lemma delete_photo_dangling_witness :
  ((deletePhoto healthy setFails entryA twoStored).1
   = Rejected (ApiError "/kv/set")
   /\ table (remote (deletePhoto healthy setFails entryA twoStored).2)
        !! photoData "i" "a" = None
   /\ table (remote (deletePhoto healthy setFails entryA twoStored).2)
        !! photoIndex "i" = Some (VPhotos [entryA; entryB]))
  /\ ((overlappedDeletes healthy online entryA entryB twoStored).1
      = (Fulfilled entryA, Fulfilled entryB)
      /\ table (remote (overlappedDeletes healthy online entryA entryB
                          twoStored).2) !! photoData "i" "a" = None
      /\ table (remote (overlappedDeletes healthy online entryA entryB
                          twoStored).2) !! photoIndex "i"
         = Some (VPhotos [entryA])).
Proof.
  assert (Hidx : table (remote twoStored) !! photoIndex (inspection_id entryA)
                 = Some (VPhotos [entryA; entryB]))
    by (vm_compute; reflexivity).
  assert (Hin : exists entry, entry ∈ [entryA; entryB] /\ id entry = id entryA)
    by (exists entryA; split; [left | reflexivity]).
  assert (Hdiff : id entryB <> id entryA) by (vm_compute; discriminate).
  destruct (delete_photo_can_leave_dangling_entry healthy setFails healthy
              online entryA entryB [entryA; entryB] twoStored Hidx Hin
              eq_refl (fun _ => eq_refl) eq_refl healthy_Healthy
              (fun _ => eq_refl) eq_refl Hdiff)
    as [(H1 & H2 & H3 & _) (H4 & H5 & H6 & _)].
  exact (conj (conj H1 (conj H2 H3)) (conj H4 (conj H5 H6))).
Defined.

End DeleteOverlapFacts.
